(** * A shallow embedding of the [dag] package and its PostgreSQL store

    The development follows the Go sources:
    - [dag.go]            the transfer shapes [DAG], [Node], [Edge];
    - [store.go]          the sentinel errors;
    - [postgres/schema.go] the two tables and their constraints;
    - [postgres/dag.go], [postgres/node.go], [postgres/edge.go]
                          the store operations and [validateAcyclic].

    Go strings are [string]; a Go [map] is a [gmap] whose lookup of a
    missing key yields the zero value; a slice is a [list]; the [int]
    colours of the traversal are [Z]; a [json.RawMessage] payload is the
    [string] of its bytes, a nil payload being the empty one.  The database
    is a pair of row lists, changed only through the statements the code
    issues; every statement issued is also recorded in a log.  The order
    of a row list is that of insertion and is not what a query returns.

    Four sources of outcomes lie outside the store and are parameters of
    the model: the order in which [range] walks a Go map, the strings
    [uuid.NewString] returns, what the driver and a [JSONB NOT NULL] column
    make of a payload (SQL [NULL], a text that is not JSON, or a document
    in the rendering the column gives back), and the order in which the
    rows of an answer come back ([ORDER BY created_at] sorts by a column
    whose values come from the clock of the server).  A statement
    fails when a constraint of the schema or the type of a column rejects
    it; failures of the connection itself are not modelled, and
    identifiers are taken to be text the server accepts.  Calls run one at
    a time unless a schedule is written out. *)

From stdpp Require Import base gmap sets list strings relations.
From Stdlib Require Import ZArith Lia.

Open Scope Z_scope.

(** ** Transfer shapes ([dag.go]) *)

Module Node.
Record t := mk { ID : string; Ref : string; Data : string }.
End Node.

Module Edge.
Record t := mk {
  ID : string;
  FromNodeID : string;
  ToNodeID : string;
  FromNodeRef : string;
  ToNodeRef : string;
  Data : string }.
End Edge.

Module DAG.
Record t := mk { ID : string; Nodes : list Node.t; Edges : list Edge.t }.
End DAG.

(** ** Errors ([store.go], and the [fmt.Errorf] values of the store) *)

Inductive side := SideFrom | SideTo.

Inductive error :=
  | ErrCycleDetected
  | ErrNodeNotFound
  | ErrEdgeNotFound
  | ErrUnknownRef (s : side) (ref : string)
  | ErrDb (step : string).

(** ** The cycle validator ([validateAcyclic]) *)

Definition unvisited : Z := 0.
Definition visiting : Z := 1.
Definition visited : Z := 2.

(** [state[id]] and [adj[id]]: a missing key reads as the zero value. *)
Definition state_get (state : gmap string Z) (id : string) : Z :=
  default 0 (state !! id).

Definition adj_get (adj : gmap string (list string)) (id : string)
  : list string :=
  default [] (adj !! id).

(** [adj[e.FromNodeID] = append(adj[e.FromNodeID], e.ToNodeID)] *)
Definition build_adj (edges : list Edge.t) : gmap string (list string) :=
  foldl (λ adj e,
           <[Edge.FromNodeID e :=
               adj_get adj (Edge.FromNodeID e) ++ [Edge.ToNodeID e]]> adj)
        ∅ edges.

(** [if _, ok := state[id]; !ok { state[id] = unvisited }] *)
Definition ensure_key (state : gmap string Z) (id : string) : gmap string Z :=
  match state !! id with
  | Some _ => state
  | None => <[id := unvisited]> state
  end.

(** [for _, n := range nodes { state[n.ID] = unvisited }] *)
Definition state_of_nodes (state : gmap string Z) (nodes : list Node.t)
  : gmap string Z :=
  foldl (λ st n, <[Node.ID n := unvisited]> st) state nodes.

(** The second loop: nodes referenced only in edges. *)
Definition state_of_edges (state : gmap string Z) (edges : list Edge.t)
  : gmap string Z :=
  foldl (λ st e, ensure_key (ensure_key st (Edge.FromNodeID e))
                            (Edge.ToNodeID e))
        state edges.

Definition build_state (nodes : list Node.t) (edges : list Edge.t)
  : gmap string Z :=
  state_of_edges (state_of_nodes ∅ nodes) edges.

(** The body of the [for _, next := range adj[id]] loop of [dfs]; [rec] is
    the recursive call.  [None] stands for a traversal that did not finish
    within the recursion budget. *)
Fixpoint visit_all (rec : gmap string Z → string → option (bool * gmap string Z))
    (nexts : list string) (state : gmap string Z)
  : option (bool * gmap string Z) :=
  match nexts with
  | [] => Some (false, state)
  | next :: rest =>
      if decide (state_get state next = visiting) then Some (true, state)
      else if decide (state_get state next = unvisited) then
        match rec state next with
        | None => None
        | Some (true, state') => Some (true, state')
        | Some (false, state') => visit_all rec rest state'
        end
      else visit_all rec rest state
  end.

(** The closure [dfs]; the map [state] it mutates is threaded through. *)
Fixpoint dfs (fuel : nat) (adj : gmap string (list string))
    (state : gmap string Z) (id : string)
  : option (bool * gmap string Z) :=
  match fuel with
  | O => None
  | S fuel' =>
      match visit_all (dfs fuel' adj) (adj_get adj id)
                      (<[id := visiting]> state) with
      | None => None
      | Some (true, state') => Some (true, state')
      | Some (false, state') => Some (false, <[id := visited]> state')
      end
  end.

(** The [for id, s := range state] loop.  Go leaves the iteration order of
    a map unspecified; [order] is the order in which the keys are produced,
    and [s] is the value the entry holds when it is reached. *)
Fixpoint scan (fuel : nat) (adj : gmap string (list string))
    (order : list string) (state : gmap string Z) : option bool :=
  match order with
  | [] => Some false
  | id :: rest =>
      if decide (state_get state id = unvisited) then
        match dfs fuel adj state id with
        | None => None
        | Some (true, _) => Some true
        | Some (false, state') => scan fuel adj rest state'
        end
      else scan fuel adj rest state
  end.

(** Outcome of a call: a returned value, a returned error, or no return. *)
Inductive result (A : Type) :=
  | Ok (a : A)
  | Fail (e : error)
  | Diverge.
Arguments Ok {A} a.
Arguments Fail {A} e.
Arguments Diverge {A}.

(** An order in which [range] may produce the keys of a map. *)
Definition range_order_of (order : list string) (state : gmap string Z)
  : Prop :=
  order ≡ₚ elements (dom state).

(** [validateAcyclic]; [range] gives the iteration order of the final
    loop.  No recursion of [dfs] is deeper than the number of keys. *)
Definition validateAcyclic (range : gmap string Z → list string)
    (nodes : list Node.t) (edges : list Edge.t) : result unit :=
  let adj := build_adj edges in
  let state := build_state nodes edges in
  match scan (S (size state)) adj (range state) state with
  | None => Diverge
  | Some true => Fail ErrCycleDetected
  | Some false => Ok tt
  end.

(** A map iteration oracle is admissible when it produces every key once. *)
Definition range_ok (range : gmap string Z → list string) : Prop :=
  ∀ state, range_order_of (range state) state.

Definition range_sorted (state : gmap string Z) : list string :=
  elements (dom state).

(** ** Directed cycles of an edge list *)

Definition edge_rel (edges : list Edge.t) (a b : string) : Prop :=
  ∃ e, e ∈ edges ∧ Edge.FromNodeID e = a ∧ Edge.ToNodeID e = b.

Definition has_cycle (edges : list Edge.t) : Prop :=
  ∃ v, tc (edge_rel edges) v v.

(** ** Invariants of the traversal *)

Definition succ_of (adj : gmap string (list string)) (a b : string) : Prop :=
  b ∈ adj_get adj a.

(** A node the traversal has left: neither unvisited nor in progress. *)
Definition is_done (state : gmap string Z) (k : string) : Prop :=
  state_get state k ≠ unvisited ∧ state_get state k ≠ visiting.

(** What a finished, cycle-free [dfs] may change: unvisited entries become
    visited, nothing else moves, no key is added. *)
Definition frame (st st' : gmap string Z) : Prop :=
  dom st' = dom st ∧
  ∀ k, state_get st' k = state_get st k ∨
       (state_get st k = unvisited ∧ state_get st' k = visited).

Definition whites (st : gmap string Z) : gset string :=
  filter (λ k, state_get st k = unvisited) (dom st).

Definition closed_done (adj : gmap string (list string)) (st : gmap string Z)
  : Prop :=
  ∀ b s, is_done st b → succ_of adj b s → is_done st s.

Definition done_acyclic (adj : gmap string (list string)) (st : gmap string Z)
  : Prop :=
  ∀ b, is_done st b → ¬ tc (succ_of adj) b b.

Definition targets_in_dom (adj : gmap string (list string))
    (st : gmap string Z) : Prop :=
  ∀ a s, succ_of adj a s → s ∈ dom st.

Definition dfs_post (adj : gmap string (list string)) (st : gmap string Z)
    (id : string) (r : bool * gmap string Z) : Prop :=
  if r.1 then
    (∃ c, tc (succ_of adj) c c) ∨
    (∃ y, state_get st y = visiting ∧ tc (succ_of adj) id y)
  else
    frame st r.2 ∧ state_get r.2 id = visited ∧
    closed_done adj r.2 ∧ done_acyclic adj r.2.

Definition loop_post (adj : gmap string (list string)) (nexts : list string)
    (st : gmap string Z) (r : bool * gmap string Z) : Prop :=
  if r.1 then
    (∃ c, tc (succ_of adj) c c) ∨
    (∃ n y, n ∈ nexts ∧ state_get st y = visiting ∧ rtc (succ_of adj) n y)
  else
    frame st r.2 ∧ closed_done adj r.2 ∧ done_acyclic adj r.2 ∧
    ∀ n, n ∈ nexts → is_done r.2 n.

Definition dfs_pre (adj : gmap string (list string)) (fuel : nat)
    (st : gmap string Z) : Prop :=
  (size (whites st) < fuel)%nat ∧ closed_done adj st ∧
  done_acyclic adj st ∧ targets_in_dom adj st.

(** ** The database ([postgres/schema.go])

    Two tables.  [id] is the primary key of each table; [from_node_id] and
    [to_node_id] reference [dag_nodes(id)].  The action of these foreign
    keys on a delete belongs to the tables as they were created:
    [schemaSQL] declares [ON DELETE CASCADE], and since it creates the
    tables only [IF NOT EXISTS], tables created otherwise keep their own
    action.  The [data] of a row is the text the [JSONB] column gives back
    for the document it holds.  The column [created_at] is not kept: its
    values are times of the server's clock ([DEFAULT NOW()], the time at
    which the transaction of the insert began), see [by_rank] below. *)

Module NodeRow.
Record t := mk { id : string; dag_id : string; data : string }.
End NodeRow.

Module EdgeRow.
Record t := mk {
  id : string;
  dag_id : string;
  from_node_id : string;
  to_node_id : string;
  data : string }.
End EdgeRow.

Inductive fk_action := OnDeleteCascade | OnDeleteNoAction.

Record DB := mkDB {
  edge_fk : fk_action;
  dag_nodes : list NodeRow.t;
  dag_edges : list EdgeRow.t }.

(** The tables [schemaSQL] creates in an empty database. *)
Definition schemaSQL : DB := mkDB OnDeleteCascade [] [].

Definition node_ids (db : DB) : list string := NodeRow.id <$> dag_nodes db.
Definition edge_ids (db : DB) : list string := EdgeRow.id <$> dag_edges db.

(** A payload as it reaches a [data JSONB NOT NULL] column: the driver
    sends a nil payload as SQL [NULL] and any other as its text, which the
    server reads as JSON or rejects; [text] is the rendering the column
    gives back for the document, which need not be the text sent. *)
Inductive jsonb_param :=
  | SqlNull
  | NotJson
  | Jsonb (text : string).

(** The statements the store issues, with their parameters as bound. *)
Inductive stmt :=
  | Begin
  | Commit
  | Rollback
  | InsertNode (id dag : string) (data : jsonb_param)
  | InsertEdge (id dag from to : string) (data : jsonb_param)
  | DeleteEdgesByDag (dag : string)
  | DeleteNodesByDag (dag : string)
  | DeleteNodeById (id : string)
  | UpdateEdgeById (from to : string) (data : jsonb_param) (id : string)
  | SelectNodesByDag (dag : string)
  | SelectEdgesByDag (dag : string)
  | SelectEdgeDagById (id : string).

(** A row entering [dag_nodes]: rejected on a duplicate primary key. *)
Definition insert_node_row (r : NodeRow.t) (db : DB) : option DB :=
  if decide (NodeRow.id r ∈ node_ids db) then None
  else Some (mkDB (edge_fk db) (dag_nodes db ++ [r]) (dag_edges db)).

(** [INSERT INTO dag_nodes (id, dag_id, data) VALUES ($1, $2, $3)]:
    rejected when [$3] is [NULL] ([data] is [NOT NULL]) or is not JSON, and
    on a duplicate primary key; the row holds the document, not the text
    sent. *)
Definition insert_node (id dag : string) (data : jsonb_param) (db : DB)
  : option DB :=
  match data with
  | Jsonb text => insert_node_row (NodeRow.mk id dag text) db
  | SqlNull | NotJson => None
  end.

(** A row entering [dag_edges]: rejected on a duplicate primary key and on
    an endpoint that is not the id of a node row. *)
Definition insert_edge_row (r : EdgeRow.t) (db : DB) : option DB :=
  if decide (EdgeRow.id r ∈ edge_ids db) then None
  else if decide (EdgeRow.from_node_id r ∈ node_ids db) then
    if decide (EdgeRow.to_node_id r ∈ node_ids db) then
      Some (mkDB (edge_fk db) (dag_nodes db) (dag_edges db ++ [r]))
    else None
  else None.

(** [INSERT INTO dag_edges (id, dag_id, from_node_id, to_node_id, data)
    VALUES ($1, $2, $3, $4, $5)]: rejected when [$5] is [NULL] or is not
    JSON, on a duplicate primary key and on a dangling endpoint. *)
Definition insert_edge (id dag from to : string) (data : jsonb_param)
    (db : DB) : option DB :=
  match data with
  | Jsonb text => insert_edge_row (EdgeRow.mk id dag from to text) db
  | SqlNull | NotJson => None
  end.

Definition delete_edges_by_dag (dag : string) (db : DB) : DB :=
  mkDB (edge_fk db) (dag_nodes db)
       (filter (λ r, EdgeRow.dag_id r ≠ dag) (dag_edges db)).

Definition references (ids : list string) (r : EdgeRow.t) : Prop :=
  EdgeRow.from_node_id r ∈ ids ∨ EdgeRow.to_node_id r ∈ ids.

Global Instance references_dec ids r : Decision (references ids r).
Proof. unfold references. apply _. Defined.

(** [DELETE FROM dag_nodes WHERE ...]: the rows selected by [P] go; the
    edge rows that reference them go with them under [ON DELETE CASCADE],
    and make the statement fail under [NO ACTION]. *)
Definition delete_nodes (P : NodeRow.t → Prop) `{∀ r, Decision (P r)}
    (db : DB) : option DB :=
  let gone := NodeRow.id <$> filter P (dag_nodes db) in
  let kept := filter (λ r, ¬ P r) (dag_nodes db) in
  match edge_fk db with
  | OnDeleteCascade =>
      Some (mkDB (edge_fk db) kept
                 (filter (λ r, ¬ references gone r) (dag_edges db)))
  | OnDeleteNoAction =>
      if decide (Exists (references gone) (dag_edges db)) then None
      else Some (mkDB (edge_fk db) kept (dag_edges db))
  end.

Definition set_edge (from to data : string) (r : EdgeRow.t) : EdgeRow.t :=
  EdgeRow.mk (EdgeRow.id r) (EdgeRow.dag_id r) from to data.

(** The rows with id [id] take new endpoints and a new document; rejected
    when a row is hit and a new endpoint is not the id of a node row. *)
Definition update_edge_rows (from to data id : string) (db : DB)
  : option (DB * nat) :=
  let hit := filter (λ r, EdgeRow.id r = id) (dag_edges db) in
  if decide (hit = []) then Some (db, O)
  else if decide (from ∈ node_ids db) then
    if decide (to ∈ node_ids db) then
      Some (mkDB (edge_fk db) (dag_nodes db)
                 ((λ r, if decide (EdgeRow.id r = id)
                        then set_edge from to data r else r)
                    <$> dag_edges db),
            length hit)
    else None
  else None.

(** [UPDATE dag_edges SET from_node_id = $1, to_node_id = $2, data = $3
    WHERE id = $4], with the rows affected: rejected when [$3] is not JSON,
    whether or not a row is hit, and when a row is hit and [$3] is [NULL]
    or a new endpoint dangles. *)
Definition update_edge (from to : string) (data : jsonb_param) (id : string)
    (db : DB) : option (DB * nat) :=
  match data with
  | Jsonb text => update_edge_rows from to text id db
  | SqlNull =>
      if decide (filter (λ r, EdgeRow.id r = id) (dag_edges db) = [])
      then Some (db, O) else None
  | NotJson => None
  end.

(** A data-changing statement on the tables: the new tables and the rows
    affected, or [None] when the statement is rejected. *)
Definition run_stmt (s : stmt) (db : DB) : option (DB * nat) :=
  match s with
  | InsertNode id dag data =>
      (λ db', (db', 1%nat)) <$> insert_node id dag data db
  | InsertEdge id dag from to data =>
      (λ db', (db', 1%nat)) <$> insert_edge id dag from to data db
  | DeleteEdgesByDag dag =>
      Some (delete_edges_by_dag dag db,
            length (filter (λ r, EdgeRow.dag_id r = dag) (dag_edges db)))
  | DeleteNodesByDag dag =>
      (λ db', (db', length (filter (λ r, NodeRow.dag_id r = dag)
                                   (dag_nodes db))))
        <$> delete_nodes (λ r, NodeRow.dag_id r = dag) db
  | DeleteNodeById id =>
      (λ db', (db', length (filter (λ r, NodeRow.id r = id) (dag_nodes db))))
        <$> delete_nodes (λ r, NodeRow.id r = id) db
  | UpdateEdgeById from to data id => update_edge from to data id db
  | _ => Some (db, O)
  end.

(** Rows as the [Scan] calls read them into the transfer shapes. *)
Definition node_of_row (r : NodeRow.t) : Node.t :=
  Node.mk (NodeRow.id r) "" (NodeRow.data r).

Definition edge_of_row (r : EdgeRow.t) : Edge.t :=
  Edge.mk (EdgeRow.id r) (EdgeRow.from_node_id r) (EdgeRow.to_node_id r)
          "" "" (EdgeRow.data r).

(** The nodes and the edges a table holds for a graph. *)
Definition graph_nodes (dag : string) (db : DB) : list Node.t :=
  node_of_row <$> filter (λ r, NodeRow.dag_id r = dag) (dag_nodes db).

Definition graph_edges (dag : string) (db : DB) : list Edge.t :=
  edge_of_row <$> filter (λ r, EdgeRow.dag_id r = dag) (dag_edges db).

(** [ORDER BY created_at].  The rows one transaction inserts all carry the
    time at which it began, and the times of separate statements are
    readings of the server's clock; so the order of an answer is not fixed
    by the rows.  It is given from outside as a position [key] for every
    row: the answer is sorted by it, rows of equal key in the order of the
    table.  Every order of the selected rows is the answer for some [key]
    ([by_rank_any_order]), so that what holds for every [key] holds
    whatever the order of the answer. *)
Fixpoint insert_by {A} (key : A → nat) (x : A) (rows : list A) : list A :=
  match rows with
  | [] => [x]
  | y :: rest =>
      if decide (key x ≤ key y)%nat then x :: rows
      else y :: insert_by key x rest
  end.

Definition by_rank {A} (key : A → nat) (rows : list A) : list A :=
  foldr (insert_by key) [] rows.

(** [SELECT id, data FROM dag_nodes WHERE dag_id = $1 ORDER BY created_at] *)
Definition select_nodes_by_dag (key : string → nat) (dag : string) (db : DB)
  : list Node.t :=
  node_of_row <$>
    by_rank (λ r, key (NodeRow.id r))
            (filter (λ r, NodeRow.dag_id r = dag) (dag_nodes db)).

(** [SELECT id, from_node_id, to_node_id, data FROM dag_edges
    WHERE dag_id = $1 ORDER BY created_at] *)
Definition select_edges_by_dag (key : string → nat) (dag : string) (db : DB)
  : list Edge.t :=
  edge_of_row <$>
    by_rank (λ r, key (EdgeRow.id r))
            (filter (λ r, EdgeRow.dag_id r = dag) (dag_edges db)).

(** [SELECT dag_id FROM dag_edges WHERE id = $1] *)
Definition select_edge_dag (id : string) (db : DB) : option string :=
  EdgeRow.dag_id <$> head (filter (λ r, EdgeRow.id r = id) (dag_edges db)).

(** ** The world a store call runs in

    [db] holds the committed tables, [tx] the tables as seen by the open
    transaction, [log] the statements issued so far (latest last) and
    [uuids] the number of identifiers drawn from the generator. *)

Record World := mkWorld {
  db : DB;
  tx : option DB;
  log : list stmt;
  uuids : nat }.

(** What the store takes from outside: the iteration order of Go maps;
    the strings [uuid.NewString] returns, by number of the call; what the
    driver and a [JSONB NOT NULL] column make of a payload; and, for the
    statement with a given number, the position key of a row (by its id)
    in an answer [ORDER BY created_at]. *)
Record Env := mkEnv {
  range : gmap string Z → list string;
  NewString : nat → string;
  jsonb : string → jsonb_param;
  rank : nat → string → nat }.

Definition M (A : Type) : Type := World → result A * World.

Global Instance M_ret : MRet M := λ A a w, (Ok a, w).

Global Instance M_bind : MBind M := λ A B k m w,
  match m w with
  | (Ok a, w') => k a w'
  | (Fail e, w') => (Fail e, w')
  | (Diverge, w') => (Diverge, w')
  end.

Definition throw {A} (e : error) : M A := λ w, (Fail e, w).

Definition lift {A} (r : result A) : M A := λ w, (r, w).

Definition logged (s : stmt) (w : World) : World :=
  mkWorld (db w) (tx w) (log w ++ [s]) (uuids w).

Definition uuid_NewString (env : Env) : M string := λ w,
  (Ok (NewString env (uuids w)),
   mkWorld (db w) (tx w) (log w) (S (uuids w))).

(** [if x.ID == "" { x.ID = uuid.NewString() }] *)
Definition id_or_new (env : Env) (id : string) : M string :=
  if decide (id = "") then uuid_NewString env else mret id.

(** [s.db.Exec]: one statement on the pool, committed at once; [step] is
    the context the caller wraps a failure in. *)
Definition pool_exec (step : string) (s : stmt) : M nat := λ w,
  match run_stmt s (db w) with
  | Some (db', n) => (Ok n, mkWorld db' (tx w) (log w ++ [s]) (uuids w))
  | None => (Fail (ErrDb step), logged s w)
  end.

(** [s.db.Query] and [s.db.QueryRow] on the pool. *)
Definition pool_query {A} (s : stmt) (read : DB → A) : M A := λ w,
  (Ok (read (db w)), logged s w).

(** [s.db.Query] of a statement with [ORDER BY created_at]: the position
    keys of the answer are those [rank] has for the number of the
    statement, the count of the statements issued before it. *)
Definition stmt_no (w : World) : nat := length (log w).

Definition pool_query_ordered {A} (env : Env) (s : stmt)
    (read : (string → nat) → DB → A) : M A := λ w,
  pool_query s (read (rank env (stmt_no w))) w.

(** [s.db.Begin]: the transaction starts from the committed tables. *)
Definition pool_begin : M unit := λ w,
  (Ok tt, mkWorld (db w) (Some (db w)) (log w ++ [Begin]) (uuids w)).

(** [tx.Exec]: a statement inside the open transaction. *)
Definition tx_exec (step : string) (s : stmt) : M nat := λ w,
  match tx w with
  | None => (Fail (ErrDb step), logged s w)
  | Some t =>
      match run_stmt s t with
      | Some (t', n) => (Ok n, mkWorld (db w) (Some t') (log w ++ [s]) (uuids w))
      | None => (Fail (ErrDb step), logged s w)
      end
  end.

(** [tx.Commit]: the transaction's tables become the committed ones. *)
Definition tx_commit (step : string) : M unit := λ w,
  match tx w with
  | None => (Fail (ErrDb step), logged Commit w)
  | Some t => (Ok tt, mkWorld t None (log w ++ [Commit]) (uuids w))
  end.

(** [tx.Rollback]: drops an open transaction, does nothing after a commit. *)
Definition tx_rollback (w : World) : World :=
  match tx w with
  | None => w
  | Some _ => mkWorld (db w) None (log w ++ [Rollback]) (uuids w)
  end.

(** [defer tx.Rollback(ctx)] around the rest of the function body. *)
Definition deferring_rollback {A} (body : M A) : M A := λ w,
  let '(r, w') := body w in (r, tx_rollback w').

(** [for _, x := range xs { if _, err := f(x); err != nil { return } }] *)
Fixpoint for_each {A} (f : A → M nat) (xs : list A) : M unit :=
  match xs with
  | [] => mret tt
  | x :: rest => _ ← f x; for_each f rest
  end.

(** ** Granular accessors ([postgres/node.go], [postgres/edge.go]) *)

Definition ListNodes (env : Env) (dagID : string) : M (list Node.t) :=
  pool_query_ordered env (SelectNodesByDag dagID)
                     (λ key, select_nodes_by_dag key dagID).

Definition ListEdges (env : Env) (dagID : string) : M (list Edge.t) :=
  pool_query_ordered env (SelectEdgesByDag dagID)
                     (λ key, select_edges_by_dag key dagID).

Definition AddNode (env : Env) (dagID : string) (node : Node.t) : M string :=
  id ← id_or_new env (Node.ID node);
  _ ← pool_exec "dag: insert node"
        (InsertNode id dagID (jsonb env (Node.Data node)));
  mret id.

Definition DeleteNode (nodeID : string) : M unit :=
  _ ← pool_exec "dag: delete node" (DeleteNodeById nodeID);
  mret tt.

(** ** [CreateDAG] *)

(** The first loop: ids for the nodes, and the [ref → id] map. *)
Fixpoint assign_nodes (env : Env) (nodes : list Node.t)
    (refMap : gmap string string)
  : M (list Node.t * gmap string string) :=
  match nodes with
  | [] => mret ([], refMap)
  | n :: rest =>
      id ← id_or_new env (Node.ID n);
      let refMap' :=
        if decide (Node.Ref n = "") then refMap
        else <[Node.Ref n := id]> refMap in
      '(rest', refMap'') ← assign_nodes env rest refMap';
      mret (Node.mk id (Node.Ref n) (Node.Data n) :: rest', refMap'')
  end.

(** [if ref != "" { id, ok := refMap[ref]; if !ok { return err }; ... }] *)
Definition resolve_ref (refMap : gmap string string) (s : side)
    (ref : string) (id : string) : M string :=
  if decide (ref = "") then mret id
  else match refMap !! ref with
       | Some id' => mret id'
       | None => throw (ErrUnknownRef s ref)
       end.

(** The second loop: ids for the edges, refs resolved to node ids. *)
Fixpoint resolve_edges (env : Env) (refMap : gmap string string)
    (edges : list Edge.t) : M (list Edge.t) :=
  match edges with
  | [] => mret []
  | e :: rest =>
      id ← id_or_new env (Edge.ID e);
      from ← resolve_ref refMap SideFrom (Edge.FromNodeRef e) (Edge.FromNodeID e);
      to ← resolve_ref refMap SideTo (Edge.ToNodeRef e) (Edge.ToNodeID e);
      rest' ← resolve_edges env refMap rest;
      mret (Edge.mk id from to (Edge.FromNodeRef e) (Edge.ToNodeRef e)
                    (Edge.Data e) :: rest')
  end.

Definition insert_node_stmt (env : Env) (dagID : string) (n : Node.t)
  : M nat :=
  tx_exec ("dag: insert node " +:+ Node.ID n)
          (InsertNode (Node.ID n) dagID (jsonb env (Node.Data n))).

Definition insert_edge_stmt (env : Env) (dagID : string) (e : Edge.t)
  : M nat :=
  tx_exec ("dag: insert edge " +:+ Edge.ID e)
          (InsertEdge (Edge.ID e) dagID (Edge.FromNodeID e) (Edge.ToNodeID e)
                      (jsonb env (Edge.Data e))).

(** The transaction of [CreateDAG], from [s.db.Begin] to [tx.Commit]. *)
Definition persist (env : Env) (dagID : string) (nodes : list Node.t)
    (edges : list Edge.t) : M unit :=
  _ ← pool_begin;
  deferring_rollback (
    _ ← tx_exec "dag: delete edges" (DeleteEdgesByDag dagID);
    _ ← tx_exec "dag: delete nodes" (DeleteNodesByDag dagID);
    _ ← for_each (insert_node_stmt env dagID) nodes;
    _ ← for_each (insert_edge_stmt env dagID) edges;
    tx_commit "dag: commit").

Definition clear_node_ref (n : Node.t) : Node.t :=
  Node.mk (Node.ID n) "" (Node.Data n).

Definition clear_edge_refs (e : Edge.t) : Edge.t :=
  Edge.mk (Edge.ID e) (Edge.FromNodeID e) (Edge.ToNodeID e) "" ""
          (Edge.Data e).

(** [CreateDAG] returns the DAG it was given, updated in place; a failed
    call returns [nil]. *)
Definition CreateDAG (env : Env) (d : DAG.t) : M DAG.t :=
  '(nodes, refMap) ← assign_nodes env (DAG.Nodes d) ∅;
  edges ← resolve_edges env refMap (DAG.Edges d);
  _ ← lift (validateAcyclic (range env) nodes edges);
  _ ← persist env (DAG.ID d) nodes edges;
  mret (DAG.mk (DAG.ID d) (clear_node_ref <$> nodes)
               (clear_edge_refs <$> edges)).

(** ** [AddEdge] and [UpdateEdge] *)

Definition with_id (id : string) (e : Edge.t) : Edge.t :=
  Edge.mk id (Edge.FromNodeID e) (Edge.ToNodeID e) (Edge.FromNodeRef e)
          (Edge.ToNodeRef e) (Edge.Data e).

(** The reads of [AddEdge]: what it validates against. *)
Definition AddEdge_load (env : Env) (dagID : string) (edge : Edge.t)
  : M (Edge.t * list Node.t * list Edge.t) :=
  id ← id_or_new env (Edge.ID edge);
  nodes ← ListNodes env dagID;
  edges ← ListEdges env dagID;
  mret (with_id id edge, nodes, edges).

(** The rest of [AddEdge]: validation of the loaded edges with the new
    edge appended, then the insert. *)
Definition AddEdge_store (env : Env) (dagID : string)
    (loaded : Edge.t * list Node.t * list Edge.t) : M string :=
  let '(edge, nodes, edges) := loaded in
  _ ← lift (validateAcyclic (range env) nodes (edges ++ [edge]));
  _ ← pool_exec "dag: insert edge"
        (InsertEdge (Edge.ID edge) dagID (Edge.FromNodeID edge)
                    (Edge.ToNodeID edge) (jsonb env (Edge.Data edge)));
  mret (Edge.ID edge).

Definition AddEdge (env : Env) (dagID : string) (edge : Edge.t) : M string :=
  loaded ← AddEdge_load env dagID edge;
  AddEdge_store env dagID loaded.

(** [for i, e := range existingEdges { if e.ID == edge.ID { ...; break } }] *)
Fixpoint splice (edge : Edge.t) (existing : list Edge.t) : list Edge.t :=
  match existing with
  | [] => []
  | e :: rest =>
      if decide (Edge.ID e = Edge.ID edge) then
        Edge.mk (Edge.ID e) (Edge.FromNodeID edge) (Edge.ToNodeID edge)
                (Edge.FromNodeRef e) (Edge.ToNodeRef e) (Edge.Data e) :: rest
      else e :: splice edge rest
  end.

Definition UpdateEdge (env : Env) (edge : Edge.t) : M unit :=
  found ← pool_query (SelectEdgeDagById (Edge.ID edge))
                     (select_edge_dag (Edge.ID edge));
  match found with
  | None => throw ErrEdgeNotFound
  | Some dagID =>
      nodes ← ListNodes env dagID;
      existingEdges ← ListEdges env dagID;
      _ ← lift (validateAcyclic (range env) nodes (splice edge existingEdges));
      ct ← pool_exec "dag: update edge"
             (UpdateEdgeById (Edge.FromNodeID edge) (Edge.ToNodeID edge)
                             (jsonb env (Edge.Data edge)) (Edge.ID edge));
      if decide (ct = O) then throw ErrEdgeNotFound else mret tt
  end.

(** Two [AddEdge] calls on separate connections whose statements
    interleave: both load, then both validate and insert. *)
Definition AddEdge_interleaved (env : Env) (dagID : string)
    (edge1 edge2 : Edge.t) (w : World)
  : result string * result string * World :=
  match AddEdge_load env dagID edge1 w with
  | (Ok loaded1, w1) =>
      match AddEdge_load env dagID edge2 w1 with
      | (Ok loaded2, w2) =>
          let '(r1, w3) := AddEdge_store env dagID loaded1 w2 in
          let '(r2, w4) := AddEdge_store env dagID loaded2 w3 in
          (r1, r2, w4)
      | (Fail e, w2) => (Fail e, Fail e, w2)
      | (Diverge, w2) => (Diverge, Diverge, w2)
      end
  | (Fail e, w1) => (Fail e, Fail e, w1)
  | (Diverge, w1) => (Diverge, Diverge, w1)
  end.

(** The persisted edges and nodes of a graph: those the committed tables
    hold for it. *)
Definition persisted_edges (dagID : string) (w : World) : list Edge.t :=
  graph_edges dagID (db w).

Definition persisted_nodes (dagID : string) (w : World) : list Node.t :=
  graph_nodes dagID (db w).

(** Concrete parameters for examples: keys in the order of [elements];
    identifiers ["u"], ["uu"], ...; a column that knows a few documents,
    among them two that it renders otherwise than they were sent, and takes
    the nil payload as [NULL] and any other text as not JSON; answers in
    the order of the table. *)
Fixpoint uuid_n (n : nat) : string :=
  match n with
  | O => "u"
  | S k => "u" +:+ uuid_n k
  end.

Definition jsonb_few (data : string) : jsonb_param :=
  if decide (data = "") then SqlNull
  else if decide (data ∈ ["{}"; "[]"; "null"; "[1]"; "[2]"; "[3]"; "[1, 2]"])
  then Jsonb data
  else if decide (data = "{ }") then Jsonb "{}"
  else if decide (data = "[1,2]") then Jsonb "[1, 2]"
  else NotJson.

Definition env0 : Env := mkEnv range_sorted uuid_n jsonb_few (λ _ _, O).

Definition world0 (d : DB) : World := mkWorld d None [] O.

(** ** Specification vocabulary for the store *)

(** A step that touches neither the tables, nor the transaction, nor the
    statement log. *)
Definition same_store (w w' : World) : Prop :=
  db w' = db w ∧ tx w' = tx w ∧ log w' = log w.

(** The id the ref map holds for [ref] after the node loop: that of the
    last node declaring it. *)
Fixpoint ref_target (nodes : list Node.t) (ref : string) : option string :=
  match nodes with
  | [] => None
  | n :: rest =>
      match ref_target rest ref with
      | Some id => Some id
      | None => if decide (Node.Ref n = ref) then Some (Node.ID n) else None
      end
  end.

(** Position [j] holds the last node of [nodes] that declares [ref]. *)
Definition declares_last (nodes : list Node.t) (ref : string) (j : nat)
  : Prop :=
  (∃ n, nodes !! j = Some n ∧ Node.Ref n = ref) ∧
  ∀ j' n', (j < j')%nat → nodes !! j' = Some n' → Node.Ref n' ≠ ref.

Definition declared (nodes : list Node.t) (ref : string) : Prop :=
  ∃ n, n ∈ nodes ∧ Node.Ref n = ref.

Definition side_ref (s : side) (e : Edge.t) : string :=
  match s with
  | SideFrom => Edge.FromNodeRef e
  | SideTo => Edge.ToNodeRef e
  end.

Definition side_id (s : side) (e : Edge.t) : string :=
  match s with
  | SideFrom => Edge.FromNodeID e
  | SideTo => Edge.ToNodeID e
  end.

(** An edge naming, on side [s], a ref that no node declares. *)
Definition unknown_ref (nodes : list Node.t) (s : side) (e : Edge.t) : Prop :=
  side_ref s e ≠ "" ∧ ¬ declared nodes (side_ref s e).

(** What the node loop does to one node. *)
Definition node_assigned (env : Env) (n n' : Node.t) : Prop :=
  Node.Ref n' = Node.Ref n ∧ Node.Data n' = Node.Data n ∧
  (Node.ID n ≠ "" → Node.ID n' = Node.ID n) ∧
  ((∀ k, NewString env k ≠ "") → Node.ID n' ≠ "").

(** What the edge loop does to one side of one edge. *)
Definition side_resolved (refMap : gmap string string) (s : side)
    (e e' : Edge.t) : Prop :=
  (side_ref s e = "" ∧ side_id s e' = side_id s e) ∨
  (side_ref s e ≠ "" ∧ refMap !! side_ref s e = Some (side_id s e')).

Definition edge_resolved (env : Env) (refMap : gmap string string)
    (e e' : Edge.t) : Prop :=
  Edge.FromNodeRef e' = Edge.FromNodeRef e ∧
  Edge.ToNodeRef e' = Edge.ToNodeRef e ∧
  Edge.Data e' = Edge.Data e ∧
  (Edge.ID e ≠ "" → Edge.ID e' = Edge.ID e) ∧
  ((∀ k, NewString env k ≠ "") → Edge.ID e' ≠ "") ∧
  side_resolved refMap SideFrom e e' ∧ side_resolved refMap SideTo e e'.

(** A payload the column takes as a document, and the text it then gives
    back. *)
Definition accepted (env : Env) (data : string) : Prop :=
  ∃ text, jsonb env data = Jsonb text.

Definition rendered (env : Env) (data : string) : string :=
  match jsonb env data with
  | Jsonb text => text
  | SqlNull | NotJson => data
  end.

(** The rows an accepted node and an accepted edge are stored as. *)
Definition node_row (env : Env) (dagID : string) (n : Node.t) : NodeRow.t :=
  NodeRow.mk (Node.ID n) dagID (rendered env (Node.Data n)).

Definition edge_row (env : Env) (dagID : string) (e : Edge.t) : EdgeRow.t :=
  EdgeRow.mk (Edge.ID e) dagID (Edge.FromNodeID e) (Edge.ToNodeID e)
             (rendered env (Edge.Data e)).

(** A returned node against the node given: the id given is kept, the
    payload is the one given, the ref is cleared. *)
Definition node_kept (n n' : Node.t) : Prop :=
  (Node.ID n ≠ "" → Node.ID n' = Node.ID n) ∧
  Node.Data n' = Node.Data n ∧ Node.Ref n' = "".

(** One side of a returned edge against the edge given: the id given when
    the edge names no ref on that side; otherwise the id of the returned
    node at the position of the last node declaring the ref. *)
Definition side_wired (nodes nodes' : list Node.t) (s : side)
    (e e' : Edge.t) : Prop :=
  (side_ref s e = "" ∧ side_id s e' = side_id s e) ∨
  (side_ref s e ≠ "" ∧
   ∃ j n', declares_last nodes (side_ref s e) j ∧ nodes' !! j = Some n' ∧
           side_id s e' = Node.ID n').

Definition edge_kept (nodes nodes' : list Node.t) (e e' : Edge.t) : Prop :=
  (Edge.ID e ≠ "" → Edge.ID e' = Edge.ID e) ∧
  Edge.Data e' = Edge.Data e ∧
  Edge.FromNodeRef e' = "" ∧ Edge.ToNodeRef e' = "" ∧
  side_wired nodes nodes' SideFrom e e' ∧ side_wired nodes nodes' SideTo e e'.

(** A row of a table against the node or the edge it stores: the same
    ids, the graph, and for [data] the rendering of the payload. *)
Definition node_stored (env : Env) (dagID : string) (n : Node.t)
    (r : NodeRow.t) : Prop :=
  NodeRow.id r = Node.ID n ∧ NodeRow.dag_id r = dagID ∧
  jsonb env (Node.Data n) = Jsonb (NodeRow.data r).

Definition edge_stored (env : Env) (dagID : string) (e : Edge.t)
    (r : EdgeRow.t) : Prop :=
  EdgeRow.id r = Edge.ID e ∧ EdgeRow.dag_id r = dagID ∧
  EdgeRow.from_node_id r = Edge.FromNodeID e ∧
  EdgeRow.to_node_id r = Edge.ToNodeID e ∧
  jsonb env (Edge.Data e) = Jsonb (EdgeRow.data r).

(** A node and an edge as a later read returns them: without refs, the
    payload as the column renders it. *)
Definition node_read (env : Env) (n : Node.t) : Node.t :=
  Node.mk (Node.ID n) "" (rendered env (Node.Data n)).

Definition edge_read (env : Env) (e : Edge.t) : Edge.t :=
  Edge.mk (Edge.ID e) (Edge.FromNodeID e) (Edge.ToNodeID e) "" ""
          (rendered env (Edge.Data e)).

Fixpoint insert_all {A} (ins : A → DB → option DB) (xs : list A) (t : DB)
  : option DB :=
  match xs with
  | [] => Some t
  | x :: rest =>
      match ins x t with
      | Some t' => insert_all ins rest t'
      | None => None
      end
  end.

(** The statements of the transaction of [CreateDAG] as one function on
    the tables. *)
Definition insert_node_of (env : Env) (dagID : string) (n : Node.t)
  : DB → option DB :=
  insert_node (Node.ID n) dagID (jsonb env (Node.Data n)).

Definition insert_edge_of (env : Env) (dagID : string) (e : Edge.t)
  : DB → option DB :=
  insert_edge (Edge.ID e) dagID (Edge.FromNodeID e) (Edge.ToNodeID e)
              (jsonb env (Edge.Data e)).

Definition tx_body (env : Env) (dagID : string) (nodes : list Node.t)
    (edges : list Edge.t) (t : DB) : option DB :=
  match delete_nodes (λ r, NodeRow.dag_id r = dagID)
                     (delete_edges_by_dag dagID t) with
  | None => None
  | Some t1 =>
      match insert_all (insert_node_of env dagID) nodes t1 with
      | None => None
      | Some t2 => insert_all (insert_edge_of env dagID) edges t2
      end
  end.

Definition is_Ok {A} (r : result A) : Prop :=
  match r with
  | Ok _ => True
  | _ => False
  end.

(** Referential integrity of the edge table: what the two foreign keys
    guarantee of every state the statements can reach. *)
Definition fk_ok (t : DB) : Prop :=
  ∀ r, r ∈ dag_edges t →
       EdgeRow.from_node_id r ∈ node_ids t ∧ EdgeRow.to_node_id r ∈ node_ids t.

(** ** Example data *)

Definition plain_node (id : string) : Node.t := Node.mk id "" "{}".

Definition plain_edge (id from to : string) : Edge.t :=
  Edge.mk id from to "" "" "{}".

(** Nodes [q1], [q2], [q3] with the edges [q1 → q2] and [q2 → q3]. *)
Definition chain_db (fk : fk_action) : DB :=
  mkDB fk
       [NodeRow.mk "q1" "g" "{}"; NodeRow.mk "q2" "g" "{}";
        NodeRow.mk "q3" "g" "{}"]
       [EdgeRow.mk "e1" "g" "q1" "q2" "{}"; EdgeRow.mk "e2" "g" "q2" "q3" "{}"].

(** Nodes [q1], [q2], [q3] with the single edge [q1 → q2]. *)
Definition short_db : DB :=
  mkDB OnDeleteCascade
       [NodeRow.mk "q1" "g" "{}"; NodeRow.mk "q2" "g" "{}";
        NodeRow.mk "q3" "g" "{}"]
       [EdgeRow.mk "e1" "g" "q1" "q2" "{}"].

(** Two nodes declared by ref, one edge wired through the refs. *)
Definition ref_dag : DAG.t :=
  DAG.mk "g" [Node.mk "" "a" "[1]"; Node.mk "" "b" "[2]"]
         [Edge.mk "" "" "" "a" "b" "[3]"].

(** An edge that carries both an id and a ref for its source. *)
Definition both_dag : DAG.t :=
  DAG.mk "g" [Node.mk "n1" "a" "{}"; plain_node "x"; plain_node "y"]
         [Edge.mk "e" "x" "y" "a" "" "{}"].


(** The world after [ref_dag] has been created in the empty tables, and a
    graph to replace it: one node, sent with a payload that the column
    renders otherwise. *)
Definition ref_dag_created : World :=
  (CreateDAG env0 ref_dag (world0 schemaSQL)).2.

Definition single_dag : DAG.t := DAG.mk "g" [Node.mk "k" "" "[1,2]"] [].

(** An edge naming a ref that no node declares. *)
Definition dangling_dag : DAG.t :=
  DAG.mk "g" [Node.mk "" "a" "{}"] [Edge.mk "" "" "" "a" "zz" "{}"].

(** ** The remaining store calls ([postgres/dag.go], [postgres/node.go],
    [postgres/edge.go]) *)

(** [GetDAG]: [nil, nil] when the graph has no node row; the edges are
    only read after that test. *)
Definition GetDAG (env : Env) (dagID : string) : M (option DAG.t) :=
  nodes ← pool_query_ordered env (SelectNodesByDag dagID)
                             (λ key, select_nodes_by_dag key dagID);
  match nodes with
  | [] => mret None
  | _ :: _ =>
      edges ← pool_query_ordered env (SelectEdgesByDag dagID)
                                 (λ key, select_edges_by_dag key dagID);
      mret (Some (DAG.mk dagID nodes edges))
  end.

(** [DeleteDAG]: both deletes in one transaction; the error of the commit
    is returned as it is. *)
Definition DeleteDAG (dagID : string) : M unit :=
  _ ← pool_begin;
  deferring_rollback (
    _ ← tx_exec "dag: delete edges" (DeleteEdgesByDag dagID);
    _ ← tx_exec "dag: delete nodes" (DeleteNodesByDag dagID);
    tx_commit "commit").

(** The point accessors issue one statement each on the pool; they are
    written on the tables that statement reads or changes. *)

(** The error of pgx for a [QueryRow] that selects nothing. *)
Definition ErrNoRows : string := "no rows in result set".

(** [QueryRow(...).Scan(...)]: the first row selected, or the error. *)
Definition scan_row {A} (rows : list A) : A + string :=
  match rows with
  | r :: _ => inl r
  | [] => inr ErrNoRows
  end.

(** [isNoRows]: [err != nil && err.Error() == "no rows in result set"];
    here [err] is never [nil]. *)
Definition isNoRows (err : string) : bool :=
  bool_decide (err = "no rows in result set").

Definition GetNode (nodeID : string) (t : DB) : result (option Node.t) :=
  match scan_row (filter (λ r, NodeRow.id r = nodeID) (dag_nodes t)) with
  | inl r => Ok (Some (node_of_row r))
  | inr err => if isNoRows err then Ok None else Fail (ErrDb "dag: get node")
  end.

Definition GetEdge (edgeID : string) (t : DB) : result (option Edge.t) :=
  match scan_row (filter (λ r, EdgeRow.id r = edgeID) (dag_edges t)) with
  | inl r => Ok (Some (edge_of_row r))
  | inr err => if isNoRows err then Ok None else Fail (ErrDb "dag: get edge")
  end.

Definition set_node_data (data id : string) (r : NodeRow.t) : NodeRow.t :=
  if decide (NodeRow.id r = id)
  then NodeRow.mk (NodeRow.id r) (NodeRow.dag_id r) data else r.

(** [UPDATE dag_nodes SET data = $1 WHERE id = $2], with the rows
    affected: rejected when [$1] is not JSON, whether or not a row is hit,
    and when a row is hit and [$1] is [NULL]. *)
Definition update_node_data (data : jsonb_param) (id : string) (t : DB)
  : option (DB * nat) :=
  let hit := filter (λ r, NodeRow.id r = id) (dag_nodes t) in
  match data with
  | Jsonb text =>
      Some (mkDB (edge_fk t) (set_node_data text id <$> dag_nodes t)
                 (dag_edges t),
            length hit)
  | SqlNull => if decide (hit = []) then Some (t, O) else None
  | NotJson => None
  end.

Definition UpdateNode (env : Env) (node : Node.t) (t : DB)
  : result unit * DB :=
  match update_node_data (jsonb env (Node.Data node)) (Node.ID node) t with
  | None => (Fail (ErrDb "dag: update node"), t)
  | Some (t', ct) =>
      if decide (ct = O) then (Fail ErrNodeNotFound, t') else (Ok tt, t')
  end.

(** [DELETE FROM dag_edges WHERE id = $1] *)
Definition delete_edge_by_id (id : string) (t : DB) : DB :=
  mkDB (edge_fk t) (dag_nodes t)
       (filter (λ r, EdgeRow.id r ≠ id) (dag_edges t)).

Definition DeleteEdge (edgeID : string) (t : DB) : result unit * DB :=
  (Ok tt, delete_edge_by_id edgeID t).

(** A call on the tables, as a call in a world; the log, which records
    the statements of the calls written in the monad, is left as it is. *)
Definition on_tables {A} (f : DB → result A * DB) : M A := λ w,
  let '(r, t) := f (db w) in (r, mkWorld t (tx w) (log w) (uuids w)).

(** ** The [Store] interface as calls ([store.go]) *)

Inductive call :=
  | CallCreateDAG (d : DAG.t)
  | CallGetDAG (dagID : string)
  | CallDeleteDAG (dagID : string)
  | CallAddNode (dagID : string) (node : Node.t)
  | CallGetNode (nodeID : string)
  | CallUpdateNode (node : Node.t)
  | CallDeleteNode (nodeID : string)
  | CallListNodes (dagID : string)
  | CallAddEdge (dagID : string) (edge : Edge.t)
  | CallGetEdge (edgeID : string)
  | CallUpdateEdge (edge : Edge.t)
  | CallDeleteEdge (edgeID : string)
  | CallListEdges (dagID : string).

(** The world a call leaves, whatever it returns. *)
Definition run_call (env : Env) (c : call) (w : World) : World :=
  match c with
  | CallCreateDAG d => (CreateDAG env d w).2
  | CallGetDAG dagID => (GetDAG env dagID w).2
  | CallDeleteDAG dagID => (DeleteDAG dagID w).2
  | CallAddNode dagID node => (AddNode env dagID node w).2
  | CallGetNode nodeID => (on_tables (λ t, (GetNode nodeID t, t)) w).2
  | CallUpdateNode node => (on_tables (UpdateNode env node) w).2
  | CallDeleteNode nodeID => (DeleteNode nodeID w).2
  | CallListNodes dagID => (ListNodes env dagID w).2
  | CallAddEdge dagID edge => (AddEdge env dagID edge w).2
  | CallGetEdge edgeID => (on_tables (λ t, (GetEdge edgeID t, t)) w).2
  | CallUpdateEdge edge => (UpdateEdge env edge w).2
  | CallDeleteEdge edgeID => (on_tables (DeleteEdge edgeID) w).2
  | CallListEdges dagID => (ListEdges env dagID w).2
  end.

Definition run_calls (env : Env) (cs : list call) (w : World) : World :=
  foldl (λ w c, run_call env c w) w cs.

(** ** Integrity of the tables *)

(** Primary keys are unique and no edge dangles. *)
Definition db_ok (t : DB) : Prop :=
  NoDup (node_ids t) ∧ NoDup (edge_ids t) ∧ fk_ok t.

(** The edges of every graph are acyclic. *)
Definition acyclic_db (t : DB) : Prop :=
  ∀ g, ¬ has_cycle (graph_edges g t).

Definition store_ok (w : World) : Prop :=
  db_ok (db w) ∧ acyclic_db (db w) ∧ tx w = None.

Definition endpoints (e : Edge.t) : string * string :=
  (Edge.FromNodeID e, Edge.ToNodeID e).

(** A node that carries its id and no ref, an edge that carries its id,
    its endpoints and no ref. *)
Definition node_identified (n : Node.t) : Prop :=
  Node.ID n ≠ "" ∧ Node.Ref n = "".

Definition edge_identified (e : Edge.t) : Prop :=
  Edge.ID e ≠ "" ∧ Edge.FromNodeRef e = "" ∧ Edge.ToNodeRef e = "".

Definition ref_free (e : Edge.t) : Prop :=
  Edge.FromNodeRef e = "" ∧ Edge.ToNodeRef e = "".

(** The node rows of a graph. *)
Definition dag_node_ids (dagID : string) (t : DB) : list string :=
  NodeRow.id <$> filter (λ r, NodeRow.dag_id r = dagID) (dag_nodes t).

(** The id [id_or_new] settles on in world [w]. *)
Definition chosen_id (env : Env) (id : string) (w : World) : string :=
  if decide (id = "") then NewString env (uuids w) else id.

(** The edge rows after the rows with id [id] took new endpoints and a
    new document. *)
Definition update_rows (from to text id : string) (rows : list EdgeRow.t)
  : list EdgeRow.t :=
  (λ r, if decide (EdgeRow.id r = id) then set_edge from to text r else r)
    <$> rows.

(** An edge of the list [UpdateEdge] validates, with the endpoints of
    [edge] if it carries the id of [edge]. *)
Definition rewire (edge e : Edge.t) : Edge.t :=
  if decide (Edge.ID e = Edge.ID edge)
  then Edge.mk (Edge.ID e) (Edge.FromNodeID edge) (Edge.ToNodeID edge)
               (Edge.FromNodeRef e) (Edge.ToNodeRef e) (Edge.Data e)
  else e.

(** ** Proofs: the traversal *)

Lemma state_get_insert st k v k' :
  state_get (<[k := v]> st) k' = if decide (k = k') then v else state_get st k'.
Proof.
  unfold state_get. rewrite lookup_insert. by case_decide.
Qed.

Lemma state_get_insert_eq st k v : state_get (<[k := v]> st) k = v.
Proof. rewrite state_get_insert. by rewrite decide_True. Qed.

Lemma state_get_insert_ne st k v k' :
  k ≠ k' → state_get (<[k := v]> st) k' = state_get st k'.
Proof. intros. rewrite state_get_insert. by rewrite decide_False. Qed.

Lemma dom_insert_in (st : gmap string Z) k v :
  k ∈ dom st → dom (<[k := v]> st) = dom st.
Proof.
  intros. rewrite dom_insert_L. apply subseteq_union_1_L.
  by apply singleton_subseteq_l.
Qed.

Lemma frame_refl st : frame st st.
Proof. split; [done | by left]. Qed.

Lemma frame_trans st1 st2 st3 : frame st1 st2 → frame st2 st3 → frame st1 st3.
Proof.
  intros [Hd1 H1] [Hd2 H2]. split; [congruence |].
  intros k. destruct (H1 k) as [E1 | [E1 E1']], (H2 k) as [E2 | [E2 E2']].
  - left. congruence.
  - right. split; congruence.
  - right. split; congruence.
  - right. split; congruence.
Qed.

Lemma frame_visiting st st' y :
  frame st st' → state_get st' y = visiting → state_get st y = visiting.
Proof.
  intros [_ H] Hy. destruct (H y) as [E | [_ E]]; [congruence |].
  rewrite E in Hy. discriminate.
Qed.

Lemma frame_keeps_visiting st st' y :
  frame st st' → state_get st y = visiting → state_get st' y = visiting.
Proof.
  intros [_ H] Hy. destruct (H y) as [E | [E _]]; [congruence |].
  rewrite E in Hy. discriminate.
Qed.

Lemma frame_done st st' k : frame st st' → is_done st k → is_done st' k.
Proof.
  intros [_ H] [H0 H1]. destruct (H k) as [E | [E _]]; [| done].
  unfold is_done. by rewrite E.
Qed.

Lemma frame_whites st st' : frame st st' → whites st' ⊆ whites st.
Proof.
  intros [Hd H] k. unfold whites. rewrite !elem_of_filter, Hd.
  intros [Hk Hin]. split; [| done].
  destruct (H k) as [E | [E _]]; [congruence | done].
Qed.

Lemma whites_insert_visiting st id :
  id ∈ dom st → state_get st id = unvisited →
  (size (whites (<[id := visiting]> st)) < size (whites st))%nat.
Proof.
  intros Hin Hw. apply subset_size. apply strict_spec_alt. split.
  - intros k. unfold whites. rewrite !elem_of_filter, dom_insert_in by done.
    rewrite state_get_insert. case_decide; [| done].
    intros [? _]. discriminate.
  - intros Heq. assert (id ∈ whites st) as Hid.
    { unfold whites. apply elem_of_filter. done. }
    rewrite <- Heq in Hid. unfold whites in Hid.
    apply elem_of_filter in Hid as [Hid _].
    rewrite state_get_insert_eq in Hid. discriminate.
Qed.

Lemma closed_done_rtc adj st b c :
  closed_done adj st → is_done st b → rtc (succ_of adj) b c → is_done st c.
Proof.
  intros Hc Hb Hr. induction Hr; [done |]. apply IHHr. by eapply Hc.
Qed.

Lemma is_done_insert_visiting st id k :
  state_get st id = unvisited →
  is_done (<[id := visiting]> st) k ↔ is_done st k.
Proof.
  intros Hw. unfold is_done. rewrite state_get_insert. case_decide.
  - subst. rewrite Hw. unfold unvisited, visiting. split; intros [? ?]; done.
  - done.
Qed.

Lemma dfs_pre_frame adj fuel st st' :
  frame st st' → closed_done adj st' → done_acyclic adj st' →
  dfs_pre adj fuel st → dfs_pre adj fuel st'.
Proof.
  intros Hf Hc Ha (Hsz & _ & _ & Ht).
  split; [| split; [done | split; [done |]]].
  - eapply Nat.le_lt_trans; [| exact Hsz].
    apply subseteq_size. by apply frame_whites.
  - intros a x Hs. destruct Hf as [-> _]. by eapply Ht.
Qed.

Lemma is_done_visited st k : state_get st k = visited → is_done st k.
Proof. intros H. unfold is_done. rewrite H. by split. Qed.

(** The loop over the successors, given the specification of the
    recursive call. *)
Lemma visit_all_spec adj f
    (IH : ∀ st id, id ∈ dom st → state_get st id = unvisited →
            dfs_pre adj f st →
            ∃ r, dfs f adj st id = Some r ∧ dfs_post adj st id r) :
  ∀ nexts st,
    (∀ n, n ∈ nexts → n ∈ dom st) → dfs_pre adj f st →
    ∃ r, visit_all (dfs f adj) nexts st = Some r ∧ loop_post adj nexts st r.
Proof.
  induction nexts as [| next rest IHl]; intros st Hin Hpre.
  - exists (false, st). split; [done |]. unfold loop_post; simpl.
    destruct Hpre as (_ & Hc & Ha & _).
    split; [apply frame_refl | split; [done | split; [done |]]].
    intros n Hn. by apply elem_of_nil in Hn.
  - simpl. case_decide as Hv.
    { exists (true, st). split; [done |]. unfold loop_post; simpl.
      right. exists next, next. split; [left | split; [done | constructor]]. }
    assert (∀ n, n ∈ rest → n ∈ dom st) as Hin'.
    { intros n Hn. apply Hin. by right. }
    case_decide as Hu.
    + destruct (IH st next) as [[b st1] [Hrun Hpost]];
        [apply Hin; left | done | done |].
      rewrite Hrun. destruct b.
      * exists (true, st1). split; [done |].
        unfold dfs_post in Hpost; unfold loop_post; simpl in *.
        destruct Hpost as [Hcyc | (y & Hy & Hty)]; [by left | right].
        exists next, y. split; [left | split; [done | by apply tc_rtc]].
      * unfold dfs_post in Hpost; simpl in Hpost.
        destruct Hpost as (Hf & Hnext & Hc1 & Ha1).
        destruct (IHl st1) as [[b st2] [Hrun2 Hpost2]].
        { intros n Hn. destruct Hf as [-> _]. by apply Hin'. }
        { by eapply dfs_pre_frame. }
        exists (b, st2). split; [done |].
        unfold loop_post in *; simpl in *. destruct b.
        -- destruct Hpost2 as [Hcyc | (n & y & Hn & Hy & Hr)]; [by left | right].
           exists n, y. split; [by right | split; [| done]].
           by eapply frame_visiting.
        -- destruct Hpost2 as (Hf2 & Hc2 & Ha2 & Hd2).
           split; [by eapply frame_trans | split; [done | split; [done |]]].
           intros n Hn. apply elem_of_cons in Hn as [-> | Hn]; [| by apply Hd2].
           eapply frame_done; [done |]. by apply is_done_visited.
    + destruct (IHl st) as [[b st2] [Hrun2 Hpost2]]; [done | done |].
      exists (b, st2). split; [done |].
      unfold loop_post in *; simpl in *. destruct b.
      * destruct Hpost2 as [Hcyc | (n & y & Hn & Hy & Hr)]; [by left | right].
        exists n, y. split; [by right | done].
      * destruct Hpost2 as (Hf2 & Hc2 & Ha2 & Hd2).
        split; [done | split; [done | split; [done |]]].
        intros n Hn. apply elem_of_cons in Hn as [-> | Hn]; [| by apply Hd2].
        eapply frame_done; [done |]. by split.
Qed.

Lemma tc_first_step {A} (R : relation A) x z :
  tc R x z → ∃ y, R x y ∧ rtc R y z.
Proof.
  intros H. destruct H as [x z H | x y z H Ht].
  - exists z. split; [done | constructor].
  - exists y. split; [done | by apply tc_rtc].
Qed.

Lemma is_done_insert_visited st id k :
  state_get st id = visiting →
  is_done (<[id := visited]> st) k ↔ k = id ∨ is_done st k.
Proof.
  intros Hg. unfold is_done. rewrite state_get_insert. case_decide as Hk.
  - subst. split; [by left |]. intros _. by split.
  - split; [by right |]. intros [-> | H]; [done | done].
Qed.

(** The specification of [dfs]: with a budget above the number of
    unvisited keys it returns; [true] witnesses a cycle or a path to a node
    in progress, [false] leaves every node it reached visited. *)
Lemma dfs_spec adj :
  ∀ fuel st id,
    id ∈ dom st → state_get st id = unvisited → dfs_pre adj fuel st →
    ∃ r, dfs fuel adj st id = Some r ∧ dfs_post adj st id r.
Proof.
  induction fuel as [| f IHf]; intros st id Hin Hw Hpre.
  { destruct Hpre as (Hsz & _). lia. }
  destruct Hpre as (Hsz & Hc & Ha & Ht).
  set (st1 := <[id := visiting]> st).
  assert (dom st1 = dom st) as Hdom1 by by apply dom_insert_in.
  assert (dfs_pre adj f st1) as Hpre1.
  { split; [| split; [| split]].
    - pose proof (whites_insert_visiting st id Hin Hw). unfold st1. lia.
    - intros b x Hb Hx. apply is_done_insert_visiting; [done |].
      apply is_done_insert_visiting in Hb; [| done]. by eapply Hc.
    - intros b Hb. apply is_done_insert_visiting in Hb; [| done]. by apply Ha.
    - intros a x Hx. rewrite Hdom1. by eapply Ht. }
  destruct (visit_all_spec adj f IHf (adj_get adj id) st1)
    as [[b st2] [Hrun Hpost]]; [| done |].
  { intros n Hn. rewrite Hdom1. by eapply (Ht id). }
  simpl. fold st1. rewrite Hrun. unfold loop_post in Hpost; simpl in Hpost.
  destruct b.
  - exists (true, st2). split; [done |]. unfold dfs_post; simpl.
    destruct Hpost as [Hcyc | (n & y & Hn & Hy & Hr)]; [by left |].
    destruct (decide (y = id)) as [-> | Hne].
    + left. exists id. eapply tc_rtc_r; [| done]. by apply tc_once.
    + right. exists y. split.
      * unfold st1 in Hy. by rewrite state_get_insert_ne in Hy.
      * eapply tc_rtc_r; [| done]. by apply tc_once.
  - destruct Hpost as (Hf & Hc2 & Ha2 & Hd2).
    assert (state_get st2 id = visiting) as Hg.
    { eapply frame_keeps_visiting; [done |]. unfold st1.
      by rewrite state_get_insert_eq. }
    exists (false, <[id := visited]> st2). split; [done |].
    unfold dfs_post; simpl. split; [| split; [| split]].
    + destruct Hf as [Hd Hv]. split.
      * rewrite dom_insert_in; [congruence |]. rewrite Hd, Hdom1. done.
      * intros k. rewrite state_get_insert. case_decide as Hk.
        -- subst. by right.
        -- destruct (Hv k) as [E | [E E']]; unfold st1 in E;
             rewrite state_get_insert_ne in E by done.
           ++ by left.
           ++ by right.
    + by rewrite state_get_insert_eq.
    + intros b x Hb Hx. apply is_done_insert_visited; [done |].
      apply is_done_insert_visited in Hb as [-> | Hb]; [| | done].
      * right. by apply Hd2.
      * right. by eapply Hc2.
    + intros b Hb Hcyc.
      apply is_done_insert_visited in Hb as [-> | Hb]; [| | done].
      * apply tc_first_step in Hcyc as (x & Hx & Hr).
        assert (is_done st2 id) as [_ Hbad].
        { eapply closed_done_rtc; [done | by apply Hd2 | done]. }
        by apply Hbad.
      * by eapply Ha2.
Qed.

(** The outer loop, started in a state without nodes in progress. *)
Lemma scan_spec adj fuel :
  ∀ order st,
    (∀ k, k ∈ order → k ∈ dom st) → dfs_pre adj fuel st →
    (∀ k, state_get st k ≠ visiting) →
    ∃ b, scan fuel adj order st = Some b ∧
         if b then ∃ c, tc (succ_of adj) c c
         else ∃ st', frame st st' ∧ done_acyclic adj st' ∧
                     ∀ k, k ∈ order → is_done st' k.
Proof.
  induction order as [| id rest IH]; intros st Hin Hpre Hng.
  - exists false. split; [done |]. exists st.
    destruct Hpre as (_ & _ & Ha & _).
    split; [apply frame_refl | split; [done |]].
    intros k Hk. by apply elem_of_nil in Hk.
  - assert (∀ k, k ∈ rest → k ∈ dom st) as Hin'.
    { intros k Hk. apply Hin. by right. }
    simpl. case_decide as Hu.
    + destruct (dfs_spec adj fuel st id) as [[b st1] [Hrun Hpost]];
        [apply Hin; left | done | done |].
      rewrite Hrun. unfold dfs_post in Hpost; simpl in Hpost. destruct b.
      * exists true. split; [done |].
        destruct Hpost as [Hcyc | (y & Hy & _)]; [done |].
        by apply Hng in Hy.
      * destruct Hpost as (Hf & Hid & Hc1 & Ha1).
        destruct (IH st1) as [b [Hrun2 Hpost2]].
        { intros k Hk. destruct Hf as [-> _]. by apply Hin'. }
        { by eapply dfs_pre_frame. }
        { intros k Hk. eapply Hng, frame_visiting; done. }
        exists b. split; [done |]. destruct b; [done |].
        destruct Hpost2 as (st2 & Hf2 & Ha2 & Hd2). exists st2.
        split; [by eapply frame_trans | split; [done |]].
        intros k Hk. apply elem_of_cons in Hk as [-> | Hk]; [| by apply Hd2].
        eapply frame_done; [done |]. by apply is_done_visited.
    + destruct (IH st) as [b [Hrun2 Hpost2]]; [done | done | done |].
      exists b. split; [done |]. destruct b; [done |].
      destruct Hpost2 as (st2 & Hf2 & Ha2 & Hd2). exists st2.
      split; [done | split; [done |]].
      intros k Hk. apply elem_of_cons in Hk as [-> | Hk]; [| by apply Hd2].
      eapply frame_done; [done |]. split; [done | apply Hng].
Qed.

(** ** Proofs: the adjacency map and the state table *)

Lemma adj_get_insert adj k v k' :
  adj_get (<[k := v]> adj) k' = if decide (k = k') then v else adj_get adj k'.
Proof. unfold adj_get. rewrite lookup_insert. by case_decide. Qed.

Lemma build_adj_fold edges :
  ∀ adj a b,
    b ∈ adj_get
          (foldl (λ adj e,
                    <[Edge.FromNodeID e :=
                        adj_get adj (Edge.FromNodeID e) ++ [Edge.ToNodeID e]]>
                      adj) adj edges) a
    ↔ b ∈ adj_get adj a ∨ edge_rel edges a b.
Proof.
  induction edges as [| e rest IH]; intros adj a b; simpl.
  - split; [by left |]. intros [H | (e & He & _)]; [done |].
    by apply elem_of_nil in He.
  - rewrite IH, adj_get_insert. case_decide as Hk.
    + subst a. rewrite elem_of_app, list_elem_of_singleton. split.
      * intros [[H | ->] | (e' & He' & Hf & Hto)].
        -- by left.
        -- right. exists e. split; [left | done].
        -- right. exists e'. split; [by right | done].
      * intros [H | (e' & He' & Hf & Hto)]; [by left; left |].
        apply elem_of_cons in He' as [-> | He'].
        -- left; right. done.
        -- right. by exists e'.
    + split.
      * intros [H | (e' & He' & Hf & Hto)]; [by left |].
        right. exists e'. split; [by right | done].
      * intros [H | (e' & He' & Hf & Hto)]; [by left |].
        apply elem_of_cons in He' as [-> | He']; [done |].
        right. by exists e'.
Qed.

Lemma build_adj_spec edges a b :
  succ_of (build_adj edges) a b ↔ edge_rel edges a b.
Proof.
  unfold succ_of, build_adj. rewrite build_adj_fold. split; [| by right].
  intros [H | H]; [| done]. unfold adj_get in H. rewrite lookup_empty in H.
  by apply elem_of_nil in H.
Qed.

Lemma tc_iff {A} (R S : relation A) :
  (∀ x y, R x y ↔ S x y) → ∀ x y, tc R x y ↔ tc S x y.
Proof.
  intros H x y. split; intros Ht; induction Ht.
  - apply tc_once. by apply H.
  - eapply tc_l; [by apply H | done].
  - apply tc_once. by apply H.
  - eapply tc_l; [by apply H | done].
Qed.

Lemma has_cycle_adj edges :
  has_cycle edges ↔ ∃ c, tc (succ_of (build_adj edges)) c c.
Proof.
  unfold has_cycle. split; intros [c Hc]; exists c;
    eapply tc_iff; try exact Hc; intros x y;
    [| symmetry]; apply build_adj_spec.
Qed.

Lemma ensure_key_get st k k' :
  state_get st k' = unvisited → state_get (ensure_key st k) k' = unvisited.
Proof.
  intros H. unfold ensure_key. destruct (st !! k) eqn:E; [done |].
  rewrite state_get_insert. by case_decide.
Qed.

Lemma ensure_key_dom st k : dom (ensure_key st k) = {[k]} ∪ dom st.
Proof.
  unfold ensure_key. destruct (st !! k) eqn:E.
  - symmetry. apply subseteq_union_1_L, singleton_subseteq_l.
    apply elem_of_dom. by eexists.
  - by rewrite dom_insert_L.
Qed.

Lemma state_of_nodes_unvisited ns :
  ∀ st, (∀ k, state_get st k = unvisited) →
        ∀ k, state_get (state_of_nodes st ns) k = unvisited.
Proof.
  induction ns as [| n ns IH]; intros st Hst k; simpl; [done |].
  apply IH. intros k'. rewrite state_get_insert. by case_decide.
Qed.

Lemma state_of_edges_unvisited es :
  ∀ st, (∀ k, state_get st k = unvisited) →
        ∀ k, state_get (state_of_edges st es) k = unvisited.
Proof.
  induction es as [| e es IH]; intros st Hst k; simpl; [done |].
  apply IH. intros k'. by do 2 apply ensure_key_get.
Qed.

Lemma build_state_unvisited nodes edges k :
  state_get (build_state nodes edges) k = unvisited.
Proof.
  apply state_of_edges_unvisited, state_of_nodes_unvisited.
  intros k'. unfold state_get. by rewrite lookup_empty.
Qed.

Lemma state_of_nodes_mono ns :
  ∀ st k, k ∈ dom st → k ∈ dom (state_of_nodes st ns).
Proof.
  induction ns as [| n ns IH]; intros st k Hk; simpl; [done |].
  apply IH. rewrite dom_insert_L. apply elem_of_union. by right.
Qed.

Lemma state_of_edges_mono es :
  ∀ st k, k ∈ dom st → k ∈ dom (state_of_edges st es).
Proof.
  induction es as [| e es IH]; intros st k Hk; simpl; [done |].
  apply IH. rewrite !ensure_key_dom, !elem_of_union. auto.
Qed.

Lemma build_state_endpoints nodes edges e :
  e ∈ edges →
  Edge.FromNodeID e ∈ dom (build_state nodes edges) ∧
  Edge.ToNodeID e ∈ dom (build_state nodes edges).
Proof.
  unfold build_state. generalize (state_of_nodes ∅ nodes).
  induction edges as [| e' es IH]; intros st He; [by apply elem_of_nil in He |].
  simpl. apply elem_of_cons in He as [-> | He]; [| by apply IH].
  split; apply state_of_edges_mono;
    rewrite !ensure_key_dom, !elem_of_union, !elem_of_singleton; auto.
Qed.

Lemma build_state_nodes nodes edges n :
  n ∈ nodes → Node.ID n ∈ dom (build_state nodes edges).
Proof.
  unfold build_state. intros Hn. apply state_of_edges_mono. revert Hn.
  generalize (∅ : gmap string Z).
  induction nodes as [| n' ns IH]; intros st Hn; [by apply elem_of_nil in Hn |].
  simpl. apply elem_of_cons in Hn as [-> | Hn]; [| by apply IH].
  apply state_of_nodes_mono. rewrite dom_insert_L, elem_of_union, elem_of_singleton.
  auto.
Qed.

(** ** Proofs: [validateAcyclic] decides cyclicity *)

Lemma build_state_pre nodes edges :
  dfs_pre (build_adj edges) (S (size (build_state nodes edges)))
          (build_state nodes edges).
Proof.
  split; [| split; [| split]].
  - apply Nat.lt_succ_r. rewrite <- size_dom.
    apply subseteq_size. intros k Hk. unfold whites in Hk.
    by apply elem_of_filter in Hk as [_ Hk].
  - intros b x [Hb _]. by rewrite build_state_unvisited in Hb.
  - intros b [Hb _]. by rewrite build_state_unvisited in Hb.
  - intros a x Hx. apply build_adj_spec in Hx as (e & He & _ & <-).
    by apply build_state_endpoints.
Qed.

Lemma validateAcyclic_decides range nodes edges :
  range_ok range →
  (has_cycle edges ∧
   validateAcyclic range nodes edges = Fail ErrCycleDetected) ∨
  (¬ has_cycle edges ∧ validateAcyclic range nodes edges = Ok tt).
Proof.
  intros Hrange. unfold validateAcyclic.
  set (adj := build_adj edges). set (state := build_state nodes edges).
  pose proof (Hrange state) as Hperm. unfold range_order_of in Hperm.
  destruct (scan_spec adj (S (size state)) (range state) state)
    as [b [Hrun Hpost]].
  - intros k Hk. rewrite Hperm in Hk. by apply elem_of_elements in Hk.
  - apply build_state_pre.
  - intros k. unfold state. rewrite build_state_unvisited. done.
  - rewrite Hrun. destruct b.
    + left. split; [| done]. by apply has_cycle_adj.
    + right. split; [| done]. intros Hcyc.
      apply has_cycle_adj in Hcyc as [c Hc].
      destruct Hpost as (st' & _ & Ha & Hd).
      apply (Ha c); [| done]. apply Hd. rewrite Hperm. apply elem_of_elements.
      apply tc_first_step in Hc as (x & Hx & _).
      apply build_adj_spec in Hx as (e & He & <- & _).
      by apply build_state_endpoints.
Qed.

Lemma validateAcyclic_fail_iff range nodes edges :
  range_ok range →
  (validateAcyclic range nodes edges = Fail ErrCycleDetected ↔ has_cycle edges).
Proof.
  intros Hr. destruct (validateAcyclic_decides range nodes edges Hr)
    as [[Hc ->] | [Hc ->]]; split; try done.
Qed.

Lemma validateAcyclic_ok_iff range nodes edges :
  range_ok range →
  (validateAcyclic range nodes edges = Ok tt ↔ ¬ has_cycle edges).
Proof.
  intros Hr. destruct (validateAcyclic_decides range nodes edges Hr)
    as [[Hc ->] | [Hc ->]]; split; try done.
Qed.

(** The verdict does not depend on the order the final loop takes. *)
Lemma validateAcyclic_order_irrelevant range1 range2 nodes edges :
  range_ok range1 → range_ok range2 →
  validateAcyclic range1 nodes edges = validateAcyclic range2 nodes edges.
Proof.
  intros H1 H2.
  destruct (validateAcyclic_decides range1 nodes edges H1) as [[Hc ->] | [Hc ->]],
           (validateAcyclic_decides range2 nodes edges H2) as [[Hc' ->] | [Hc' ->]];
    done.
Qed.

Lemma range_sorted_ok : range_ok range_sorted.
Proof. intros st. unfold range_order_of, range_sorted. done. Qed.

Lemma self_loop_has_cycle edges e :
  e ∈ edges → Edge.FromNodeID e = Edge.ToNodeID e → has_cycle edges.
Proof.
  intros He Heq. exists (Edge.FromNodeID e). apply tc_once. by exists e.
Qed.

Lemma edge_rel_app edges es a b :
  edge_rel (edges ++ es) a b ↔ edge_rel edges a b ∨ edge_rel es a b.
Proof.
  unfold edge_rel. split.
  - intros (e & He & H). apply elem_of_app in He as [He | He]; eauto.
  - intros [(e & He & H) | (e & He & H)]; exists e;
      (split; [apply elem_of_app; auto | done]).
Qed.

Lemma has_cycle_ext edges edges' :
  (∀ a b, edge_rel edges a b ↔ edge_rel edges' a b) →
  has_cycle edges ↔ has_cycle edges'.
Proof.
  intros H. unfold has_cycle. split; intros [c Hc]; exists c;
    eapply tc_iff; try exact Hc; intros x y; [symmetry |]; apply H.
Qed.

Lemma duplicate_edge_no_new_cycle edges e e' :
  e ∈ edges →
  Edge.FromNodeID e' = Edge.FromNodeID e →
  Edge.ToNodeID e' = Edge.ToNodeID e →
  has_cycle (edges ++ [e']) ↔ has_cycle edges.
Proof.
  intros He Hf Ht. apply has_cycle_ext. intros a b.
  rewrite edge_rel_app. split; [| by left].
  intros [H | (x & Hx & Hxa & Hxb)]; [done |].
  apply list_elem_of_singleton in Hx as ->. exists e.
  split; [done | split; congruence].
Qed.

(** ** Proofs: the reference resolver *)

Lemma same_store_refl w : same_store w w.
Proof. by repeat split. Qed.

Lemma same_store_trans w1 w2 w3 :
  same_store w1 w2 → same_store w2 w3 → same_store w1 w3.
Proof.
  intros (H1 & H2 & H3) (H4 & H5 & H6). repeat split; congruence.
Qed.

Lemma id_or_new_run env id w :
  ∃ id' w', id_or_new env id w = (Ok id', w') ∧ same_store w w' ∧
            (id ≠ "" → id' = id) ∧
            ((∀ k, NewString env k ≠ "") → id' ≠ "").
Proof.
  unfold id_or_new. case_decide as Hid.
  - eexists _, _. split; [reflexivity |].
    split; [by repeat split | split; [done |]]. intros Hgen. apply Hgen.
  - exists id, w. split; [done |]. split; [apply same_store_refl |]. done.
Qed.

Lemma assign_nodes_spec env nodes :
  ∀ refMap w,
    ∃ nodes' refMap' w',
      assign_nodes env nodes refMap w = (Ok (nodes', refMap'), w') ∧
      same_store w w' ∧
      Forall2 (node_assigned env) nodes nodes' ∧
      ∀ ref, ref ≠ "" →
             refMap' !! ref = match ref_target nodes' ref with
                              | Some id => Some id
                              | None => refMap !! ref
                              end.
Proof.
  induction nodes as [| n rest IH]; intros refMap w.
  - exists [], refMap, w. split; [done |].
    split; [apply same_store_refl | split; [constructor | done]].
  - simpl. destruct (id_or_new_run env (Node.ID n) w)
      as (id & w1 & Hrun & Hs1 & Hkeep & Hne).
    set (refMap1 := if decide (Node.Ref n = "") then refMap
                    else <[Node.Ref n := id]> refMap).
    destruct (IH refMap1 w1) as (rest' & refMap2 & w2 & Hrun2 & Hs2 & Hall & Hmap).
    exists (Node.mk id (Node.Ref n) (Node.Data n) :: rest'), refMap2, w2.
    split; [| split; [by eapply same_store_trans | split]].
    + unfold mbind, M_bind. rewrite Hrun. fold refMap1. by rewrite Hrun2.
    + constructor; [| done]. by repeat split.
    + intros ref Href. rewrite (Hmap ref Href). simpl.
      destruct (ref_target rest' ref); [done |].
      unfold refMap1. case_decide as Hr; case_decide as Hr'; try done.
      * congruence.
      * subst ref. by rewrite lookup_insert_eq.
      * by rewrite lookup_insert_ne.
Qed.

Lemma ref_target_Some nodes ref id :
  ref_target nodes ref = Some id →
  ∃ j n, nodes !! j = Some n ∧ Node.Ref n = ref ∧ Node.ID n = id ∧
         ∀ j' n', (j < j')%nat → nodes !! j' = Some n' → Node.Ref n' ≠ ref.
Proof.
  revert id. induction nodes as [| n rest IH]; intros id H; [done |].
  simpl in H. destruct (ref_target rest ref) as [id' |] eqn:E.
  - destruct (IH id' eq_refl) as (j & m & Hj & Hr & Hi & Hlast).
    exists (S j), m. repeat split; try done; [congruence |].
    intros [| j'] n' Hlt Hn'; [lia |]. simpl in Hn'.
    eapply Hlast; [| done]. lia.
  - case_decide as Hr; [| done]. exists O, n.
    repeat split; try done; [congruence |].
    intros [| j'] n' Hlt Hn'; [lia |]. simpl in Hn'. intros Hbad.
    clear IH H. revert j' n' Hn' Hbad Hlt E.
    induction rest as [| m rest IH]; intros j' n' Hn' Hbad Hlt E; [done |].
    simpl in E. destruct (ref_target rest ref) eqn:E'; [done |].
    case_decide as Hm; [done |].
    destruct j' as [| j'']; simpl in Hn'; [congruence |].
    eapply (IH j'' n'); try done. lia.
Qed.

Lemma ref_target_None nodes ref :
  ref_target nodes ref = None → ∀ n, n ∈ nodes → Node.Ref n ≠ ref.
Proof.
  induction nodes as [| m rest IH]; intros H n Hn; [by apply elem_of_nil in Hn |].
  simpl in H. destruct (ref_target rest ref) eqn:E; [done |].
  case_decide as Hm; [done |].
  apply elem_of_cons in Hn as [-> | Hn]; [done | by apply IH].
Qed.

Lemma declares_last_unique nodes ref j1 j2 :
  declares_last nodes ref j1 → declares_last nodes ref j2 → j1 = j2.
Proof.
  intros [(n1 & Hn1 & Hr1) Hl1] [(n2 & Hn2 & Hr2) Hl2].
  destruct (Nat.lt_trichotomy j1 j2) as [Hlt | [-> | Hlt]]; [| done |].
  - by destruct (Hl1 j2 n2 Hlt Hn2).
  - by destruct (Hl2 j1 n1 Hlt Hn1).
Qed.

Lemma Forall2_assigned_refs env nodes nodes' j n' :
  Forall2 (node_assigned env) nodes nodes' → nodes' !! j = Some n' →
  ∃ n, nodes !! j = Some n ∧ Node.Ref n = Node.Ref n'.
Proof.
  intros Hall Hj. destruct (Forall2_lookup_r _ _ _ _ _ Hall Hj)
    as (n & Hn & (Hr & _)). by exists n.
Qed.

Lemma declares_last_assigned env nodes nodes' ref j :
  Forall2 (node_assigned env) nodes nodes' →
  declares_last nodes' ref j ↔ declares_last nodes ref j.
Proof.
  intros Hall. split; intros [(n & Hn & Hr) Hlast]; split.
  - destruct (Forall2_assigned_refs _ _ _ _ _ Hall Hn) as (m & Hm & Hrm).
    exists m. split; [done | congruence].
  - intros j' m' Hlt Hm'.
    destruct (Forall2_lookup_l _ _ _ _ _ Hall Hm') as (n' & Hn' & (Hr' & _)).
    rewrite <- Hr'. by eapply Hlast.
  - destruct (Forall2_lookup_l _ _ _ _ _ Hall Hn) as (n' & Hn' & (Hr' & _)).
    exists n'. split; [done | congruence].
  - intros j' n' Hlt Hn'.
    destruct (Forall2_assigned_refs _ _ _ _ _ Hall Hn') as (m & Hm & Hrm).
    rewrite <- Hrm. by eapply Hlast.
Qed.

(** The ref map after the node loop, read through positions of the input. *)
Lemma ref_target_declares_last env nodes nodes' ref id :
  Forall2 (node_assigned env) nodes nodes' →
  ref_target nodes' ref = Some id →
  ∃ j n', declares_last nodes ref j ∧ nodes' !! j = Some n' ∧ Node.ID n' = id.
Proof.
  intros Hall H. apply ref_target_Some in H as (j & n' & Hj & Hr & Hi & Hlast).
  exists j, n'. split; [| done].
  apply (declares_last_assigned env nodes nodes' ref j Hall).
  split; [by exists n' | done].
Qed.

Lemma ref_target_declared env nodes nodes' ref :
  Forall2 (node_assigned env) nodes nodes' →
  declared nodes ref → is_Some (ref_target nodes' ref).
Proof.
  intros Hall (n & Hn & Hr). destruct (ref_target nodes' ref) eqn:E; [by eexists |].
  apply list_elem_of_lookup in Hn as [j Hj].
  destruct (Forall2_lookup_l _ _ _ _ _ Hall Hj) as (n' & Hn' & (Hr' & _)).
  exfalso. eapply (ref_target_None nodes' ref E n').
  - apply list_elem_of_lookup. by exists j.
  - congruence.
Qed.

Lemma ref_target_undeclared env nodes nodes' ref :
  Forall2 (node_assigned env) nodes nodes' →
  ¬ declared nodes ref → ref_target nodes' ref = None.
Proof.
  intros Hall Hnd. destruct (ref_target nodes' ref) eqn:E; [| done].
  destruct (ref_target_declares_last env nodes nodes' ref s Hall E)
    as (j & n' & [(n & Hn & Hr) _] & _).
  exfalso. apply Hnd. exists n. split; [| done].
  apply list_elem_of_lookup. by exists j.
Qed.

Lemma resolve_ref_run refMap s e w :
  (∃ id, resolve_ref refMap s (side_ref s e) (side_id s e) w = (Ok id, w) ∧
         ((side_ref s e = "" ∧ id = side_id s e) ∨
          (side_ref s e ≠ "" ∧ refMap !! side_ref s e = Some id))) ∨
  (resolve_ref refMap s (side_ref s e) (side_id s e) w
     = (Fail (ErrUnknownRef s (side_ref s e)), w) ∧
   side_ref s e ≠ "" ∧ refMap !! side_ref s e = None).
Proof.
  unfold resolve_ref. case_decide as Hr.
  - left. exists (side_id s e). split; [done | by left].
  - destruct (refMap !! side_ref s e) as [id |] eqn:E.
    + left. exists id. split; [done | by right].
    + right. done.
Qed.

(** The edge loop: it returns the edges resolved, or the unknown-reference
    error of an edge whose ref the map does not hold; it issues no
    statement. *)
Lemma resolve_edges_spec env refMap edges :
  ∀ w, ∃ r w',
    resolve_edges env refMap edges w = (r, w') ∧ same_store w w' ∧
    match r with
    | Ok edges' => Forall2 (edge_resolved env refMap) edges edges'
    | Fail err =>
        ∃ s e, err = ErrUnknownRef s (side_ref s e) ∧ e ∈ edges ∧
               side_ref s e ≠ "" ∧ refMap !! side_ref s e = None
    | Diverge => False
    end.
Proof.
  induction edges as [| e rest IH]; intros w.
  - exists (Ok []), w. split; [done |]. split; [apply same_store_refl | constructor].
  - simpl. destruct (id_or_new_run env (Edge.ID e) w)
      as (id & w1 & Hrun & Hs1 & Hkeep & Hne).
    unfold mbind, M_bind. rewrite Hrun.
    destruct (resolve_ref_run refMap SideFrom e w1)
      as [(from & Hf & Hfrom) | (Hf & Hfr & Hfm)]; simpl in Hf; rewrite Hf.
    2:{ eexists _, _. split; [reflexivity |]. split; [done |].
        exists SideFrom, e. split; [done |]. split; [left | done]. }
    destruct (resolve_ref_run refMap SideTo e w1)
      as [(to & Ht & Hto) | (Ht & Htr & Htm)]; simpl in Ht; rewrite Ht.
    2:{ eexists _, _. split; [reflexivity |]. split; [done |].
        exists SideTo, e. split; [done |]. split; [left | done]. }
    destruct (IH w1) as (r & w2 & Hrun2 & Hs2 & Hpost). rewrite Hrun2.
    destruct r as [rest' | err |]; [| | done].
    + eexists _, _. split; [reflexivity |].
      split; [by eapply same_store_trans |].
      constructor; [| done]. unfold edge_resolved, side_resolved; simpl.
      repeat split; try done.
    + eexists _, _. split; [reflexivity |].
      split; [by eapply same_store_trans |].
      destruct Hpost as (s & e' & -> & He' & Hr & Hm).
      exists s, e'. split; [done |]. split; [by right | done].
Qed.

Lemma edge_resolved_side env refMap e e' s :
  edge_resolved env refMap e e' → side_resolved refMap s e e'.
Proof. intros (_ & _ & _ & _ & _ & Hf & Ht). by destruct s. Qed.

(** ** Proofs: the transaction of [CreateDAG] *)

Lemma for_each_tx {A} (f : A → M nat) (ins : A → DB → option DB) xs :
  (∀ x w t, tx w = Some t →
     ∃ r w', f x w = (r, w') ∧ db w' = db w ∧ uuids w' = uuids w ∧
       match ins x t with
       | Some t' => (∃ n, r = Ok n) ∧ tx w' = Some t'
       | None => (∃ step, r = Fail (ErrDb step)) ∧ is_Some (tx w')
       end) →
  ∀ w t, tx w = Some t →
    ∃ r w', for_each f xs w = (r, w') ∧ db w' = db w ∧ uuids w' = uuids w ∧
      match insert_all ins xs t with
      | Some t' => r = Ok tt ∧ tx w' = Some t'
      | None => (∃ step, r = Fail (ErrDb step)) ∧ is_Some (tx w')
      end.
Proof.
  intros Hf. induction xs as [| x rest IH]; intros w t Ht; simpl.
  - exists (Ok tt), w. by repeat split.
  - destruct (Hf x w t Ht) as (r & w1 & Hrun & Hdb & Hu & Hpost).
    unfold mbind, M_bind. rewrite Hrun. destruct (ins x t) as [t1 |].
    + destruct Hpost as [[n ->] Ht1].
      destruct (IH w1 t1 Ht1) as (r2 & w2 & Hrun2 & Hdb2 & Hu2 & Hpost2).
      exists r2, w2. split; [done |]. split; [congruence |]. split; [congruence | done].
    + destruct Hpost as [[step ->] Hsome].
      eexists _, _. split; [reflexivity |]. split; [done |]. split; [done |].
      split; [by exists step | done].
Qed.

Lemma tx_exec_insert step (s : stmt) (ins : DB → option DB) w t :
  (∀ d, run_stmt s d = (λ d', (d', 1%nat)) <$> ins d) →
  tx w = Some t →
  ∃ r w', tx_exec step s w = (r, w') ∧ db w' = db w ∧ uuids w' = uuids w ∧
    match ins t with
    | Some t' => (∃ n, r = Ok n) ∧ tx w' = Some t'
    | None => (∃ step, r = Fail (ErrDb step)) ∧ is_Some (tx w')
    end.
Proof.
  intros Hs Ht. unfold tx_exec. rewrite Ht, Hs.
  destruct (ins t) as [t' |]; simpl.
  - eexists _, _. split; [reflexivity |]. simpl. repeat split; try done. by eexists.
  - eexists _, _. split; [reflexivity |]. simpl.
    split; [done | split; [done | split; [by eexists |]]].
    rewrite Ht. by eexists.
Qed.

(** The transaction either commits the tables [tx_body] computes, or
    leaves the committed tables as they were; when the call returns no
    transaction is open. *)
Lemma persist_spec env dagID nodes edges w :
  ∃ r w', persist env dagID nodes edges w = (r, w') ∧
          tx w' = None ∧ uuids w' = uuids w ∧
          match tx_body env dagID nodes edges (db w) with
          | Some t => r = Ok tt ∧ db w' = t
          | None => (∃ step, r = Fail (ErrDb step)) ∧ db w' = db w
          end.
Proof.
  unfold persist, tx_body, mbind, M_bind, pool_begin, deferring_rollback.
  simpl. unfold tx_exec at 1. simpl.
  destruct (delete_nodes (λ r, NodeRow.dag_id r = dagID)
                         (delete_edges_by_dag dagID (db w))) as [t1 |]; simpl.
  2:{ eexists _, _. split; [reflexivity |]. simpl. repeat split; try done. by eexists. }
  match goal with
  | |- context [for_each (insert_node_stmt env dagID) nodes ?w1] =>
      destruct (for_each_tx (insert_node_stmt env dagID)
                  (insert_node_of env dagID) nodes) with (w := w1) (t := t1)
        as (r2 & w2 & Hrun2 & Hdb2 & Hu2 & Hpost2)
  end.
  { intros x w' t Ht. by apply tx_exec_insert. }
  { done. }
  rewrite Hrun2. simpl in Hdb2, Hu2.
  destruct (insert_all (insert_node_of env dagID) nodes t1) as [t2 |].
  2:{ destruct Hpost2 as [[step ->] [t' Ht']].
      eexists _, _. split; [reflexivity |]. unfold tx_rollback. rewrite Ht'. simpl.
      repeat split; try done. by eexists. }
  destruct Hpost2 as [-> Ht2].
  destruct (for_each_tx (insert_edge_stmt env dagID)
              (insert_edge_of env dagID) edges) with (w := w2) (t := t2)
    as (r3 & w3 & Hrun3 & Hdb3 & Hu3 & Hpost3).
  { intros x w' t Ht. by apply tx_exec_insert. }
  { done. }
  rewrite Hrun3.
  destruct (insert_all (insert_edge_of env dagID) edges t2) as [t3 |].
  2:{ destruct Hpost3 as [[step ->] [t' Ht']].
      eexists _, _. split; [reflexivity |]. unfold tx_rollback. rewrite Ht'. simpl.
      repeat split; try congruence. by eexists. }
  destruct Hpost3 as [-> Ht3]. unfold tx_commit. rewrite Ht3.
  eexists _, _. split; [reflexivity |]. simpl. repeat split; congruence.
Qed.

Lemma filter_none {A} (P : A → Prop) `{∀ x, Decision (P x)} (l : list A) :
  (∀ x, x ∈ l → ¬ P x) → filter P l = [].
Proof.
  induction l as [| x l IH]; intros Hl; [done |].
  rewrite filter_cons_False by (apply Hl; left).
  apply IH. intros y Hy. apply Hl. by right.
Qed.

Lemma filter_all {A} (P : A → Prop) `{∀ x, Decision (P x)} (l : list A) :
  (∀ x, x ∈ l → P x) → filter P l = l.
Proof.
  induction l as [| x l IH]; intros Hl; [done |].
  rewrite filter_cons_True by (apply Hl; left).
  f_equal. apply IH. intros y Hy. apply Hl. by right.
Qed.

Lemma NoDup_fmap_filter {A B} (f : A → B) (P : A → Prop)
    `{∀ x, Decision (P x)} (l : list A) :
  NoDup (f <$> l) → NoDup (f <$> filter P l).
Proof.
  intros Hnd. eapply sublist_NoDup; [exact Hnd |].
  apply fmap_sublist, sublist_filter.
Qed.

(** *** Payloads *)

Lemma rendered_Jsonb env data text :
  jsonb env data = Jsonb text → rendered env data = text.
Proof. unfold rendered. by intros ->. Qed.

Lemma insert_node_Some id dag data t t' :
  insert_node id dag data t = Some t' ↔
  ∃ text, data = Jsonb text ∧ (id ∉ node_ids t) ∧
          t' = mkDB (edge_fk t) (dag_nodes t ++ [NodeRow.mk id dag text])
                    (dag_edges t).
Proof.
  unfold insert_node, insert_node_row. destruct data as [| | text]; simpl.
  - split; [done | by intros (? & ? & _)].
  - split; [done | by intros (? & ? & _)].
  - case_decide as Hid.
    + split; [done |]. intros (x & Hx & Hn & _). by destruct Hn.
    + split.
      * intros H. injection H as <-. by exists text.
      * intros (x & Hx & _ & ->). by injection Hx as ->.
Qed.

Lemma insert_edge_row_Some r t t' :
  insert_edge_row r t = Some t' ↔
  ((EdgeRow.id r ∉ edge_ids t) ∧
   EdgeRow.from_node_id r ∈ node_ids t ∧ EdgeRow.to_node_id r ∈ node_ids t) ∧
  t' = mkDB (edge_fk t) (dag_nodes t) (dag_edges t ++ [r]).
Proof.
  unfold insert_edge_row.
  destruct (decide (EdgeRow.id r ∈ edge_ids t)) as [Hid | Hid];
    [split; [done | by intros [(? & _) _]] |].
  destruct (decide (EdgeRow.from_node_id r ∈ node_ids t)) as [Hf | Hf];
    [| split; [done | by intros [(_ & ? & _) _]]].
  destruct (decide (EdgeRow.to_node_id r ∈ node_ids t)) as [Ht | Ht];
    [| split; [done | by intros [(_ & _ & ?) _]]].
  split.
  - intros Heq. by injection Heq as <-.
  - by intros [_ ->].
Qed.

Lemma insert_edge_Some id dag from to data t t' :
  insert_edge id dag from to data t = Some t' ↔
  ∃ text, data = Jsonb text ∧
          ((id ∉ edge_ids t) ∧ from ∈ node_ids t ∧ to ∈ node_ids t) ∧
          t' = mkDB (edge_fk t) (dag_nodes t)
                    (dag_edges t ++ [EdgeRow.mk id dag from to text]).
Proof.
  unfold insert_edge. destruct data as [| | text].
  - split; [done | by intros (? & ? & _)].
  - split; [done | by intros (? & ? & _)].
  - rewrite insert_edge_row_Some. simpl. split.
    + intros [H ->]. by exists text.
    + intros (x & Hx & H & ->). by injection Hx as ->.
Qed.

Lemma insert_node_of_Some env dagID n t t' :
  insert_node_of env dagID n t = Some t' ↔
  accepted env (Node.Data n) ∧ (Node.ID n ∉ node_ids t) ∧
  t' = mkDB (edge_fk t) (dag_nodes t ++ [node_row env dagID n]) (dag_edges t).
Proof.
  unfold insert_node_of, accepted, node_row. rewrite insert_node_Some. split.
  - intros (text & Hj & Hid & ->). rewrite (rendered_Jsonb _ _ _ Hj).
    split; [by exists text | done].
  - intros ([text Hj] & Hid & ->). exists text.
    by rewrite (rendered_Jsonb _ _ _ Hj).
Qed.

Lemma insert_edge_of_Some env dagID e t t' :
  insert_edge_of env dagID e t = Some t' ↔
  accepted env (Edge.Data e) ∧
  ((Edge.ID e ∉ edge_ids t) ∧
   Edge.FromNodeID e ∈ node_ids t ∧ Edge.ToNodeID e ∈ node_ids t) ∧
  t' = mkDB (edge_fk t) (dag_nodes t) (dag_edges t ++ [edge_row env dagID e]).
Proof.
  unfold insert_edge_of, accepted, edge_row. rewrite insert_edge_Some. split.
  - intros (text & Hj & Hid & ->). rewrite (rendered_Jsonb _ _ _ Hj).
    split; [by exists text | done].
  - intros ([text Hj] & Hid & ->). exists text.
    by rewrite (rendered_Jsonb _ _ _ Hj).
Qed.

Lemma node_of_node_row env dagID n :
  node_of_row (node_row env dagID n) = node_read env n.
Proof. done. Qed.

Lemma edge_of_edge_row env dagID e :
  edge_of_row (edge_row env dagID e) = edge_read env e.
Proof. done. Qed.

(** *** Answers in the order of [rank] *)

Lemma insert_by_Permutation {A} (key : A → nat) x rows :
  insert_by key x rows ≡ₚ x :: rows.
Proof.
  induction rows as [| y rest IH]; [done |]. simpl. case_decide; [done |].
  rewrite IH. apply Permutation_swap.
Qed.

Lemma by_rank_Permutation {A} (key : A → nat) rows : by_rank key rows ≡ₚ rows.
Proof.
  induction rows as [| x rest IH]; [done |]. unfold by_rank in *. simpl.
  by rewrite insert_by_Permutation, IH.
Qed.

Lemma insert_by_ext {A} (k k' : A → nat) x l :
  (∀ y, y ∈ l → (k x ≤ k y)%nat ↔ (k' x ≤ k' y)%nat) →
  insert_by k x l = insert_by k' x l.
Proof.
  induction l as [| y l IH]; intros H; [done |]. simpl.
  destruct (decide (k x ≤ k y)%nat) as [Hle | Hle].
  - rewrite decide_True; [done |]. apply H; [left | done].
  - rewrite decide_False.
    + f_equal. apply IH. intros z Hz. apply H. by right.
    + intros Hle'. apply Hle. apply H; [left | done].
Qed.

Lemma by_rank_ext {A} (k k' : A → nat) l :
  (∀ x y, x ∈ l → y ∈ l → (k x ≤ k y)%nat ↔ (k' x ≤ k' y)%nat) →
  by_rank k l = by_rank k' l.
Proof.
  induction l as [| x l IH]; intros H; [done |].
  change (insert_by k x (by_rank k l) = insert_by k' x (by_rank k' l)).
  rewrite IH.
  - apply insert_by_ext. intros y Hy. rewrite by_rank_Permutation in Hy.
    apply H; [left | by right].
  - intros y z Hy Hz. apply H; by right.
Qed.

(** The row with the least key comes first. *)
Lemma by_rank_least {A} (id : A → string) (k : A → nat) l x :
  NoDup (id <$> l) → x ∈ l →
  (∀ y, y ∈ l → id y ≠ id x → (k x < k y)%nat) →
  by_rank k l = x :: by_rank k (filter (λ r, id r ≠ id x) l).
Proof.
  induction l as [| y l IH]; intros Hnd Hx Hmin; [by apply elem_of_nil in Hx |].
  rewrite fmap_cons in Hnd. apply NoDup_cons in Hnd as [Hy Hnd].
  change (by_rank k (y :: l)) with (insert_by k y (by_rank k l)).
  destruct (decide (id y = id x)) as [Heq | Hne].
  - assert (y = x) as ->.
    { apply elem_of_cons in Hx as [-> | Hx]; [done |].
      exfalso. apply Hy. rewrite Heq. apply list_elem_of_fmap. by exists x. }
    rewrite filter_cons_False by (intros Hbad; by apply Hbad).
    rewrite filter_all.
    2:{ intros z Hz Hbad. apply Hy. rewrite <- Hbad.
        apply list_elem_of_fmap. by exists z. }
    destruct (by_rank k l) as [| z s] eqn:E; [done |]. simpl.
    rewrite decide_True; [done |].
    assert (z ∈ l) as Hz by (rewrite <- (by_rank_Permutation k l), E; left).
    assert (k x < k z)%nat; [| lia]. apply Hmin; [by right |].
    intros Hbad. apply Hy. rewrite <- Hbad. apply list_elem_of_fmap. by exists z.
  - apply elem_of_cons in Hx as [-> | Hx]; [done |].
    rewrite filter_cons_True by done.
    change (by_rank k (y :: filter (λ r, id r ≠ id x) l))
      with (insert_by k y (by_rank k (filter (λ r, id r ≠ id x) l))).
    rewrite (IH Hnd Hx) by (intros z Hz; apply Hmin; by right). simpl.
    rewrite decide_False; [done |].
    assert (k x < k y)%nat; [| lia]. apply Hmin; [left | done].
Qed.

(** The parameter does not restrict the answers: every order of rows with
    distinct ids is the answer for some position keys. *)
Lemma by_rank_any_order {A} (id : A → string) (answer : list A) :
  ∀ rows, NoDup (id <$> rows) → rows ≡ₚ answer →
          ∃ key : string → nat, by_rank (λ r, key (id r)) rows = answer.
Proof.
  induction answer as [| a rest IH]; intros rows Hnd Hp.
  - apply Permutation_nil_r in Hp as ->. by exists (λ _, O).
  - assert (NoDup (id <$> a :: rest)) as Hnd' by by rewrite <- Hp.
    rewrite fmap_cons in Hnd'. apply NoDup_cons in Hnd' as [Ha Hrest].
    set (rows' := filter (λ r, id r ≠ id a) rows).
    assert (rows' ≡ₚ rest) as Hp'.
    { unfold rows'. rewrite Hp, filter_cons_False by (intros Hbad; by apply Hbad).
      rewrite filter_all; [done |]. intros z Hz Hbad. apply Ha. rewrite <- Hbad.
      apply list_elem_of_fmap. by exists z. }
    destruct (IH rows') as [key Hkey]; [by apply NoDup_fmap_filter | done |].
    exists (λ s, if decide (s = id a) then O else S (key s)).
    rewrite (by_rank_least id _ rows a); [| done | rewrite Hp; left |].
    + f_equal. fold rows'. rewrite <- Hkey. apply by_rank_ext.
      intros x y Hx Hy.
      apply list_elem_of_filter in Hx as [Hx _], Hy as [Hy _].
      rewrite !decide_False by done. lia.
    + intros y Hy Hne. rewrite decide_True by done.
      rewrite decide_False by done. lia.
Qed.

Lemma select_nodes_Permutation key dagID t :
  select_nodes_by_dag key dagID t ≡ₚ graph_nodes dagID t.
Proof.
  unfold select_nodes_by_dag, graph_nodes. apply fmap_Permutation.
  apply by_rank_Permutation.
Qed.

Lemma select_edges_Permutation key dagID t :
  select_edges_by_dag key dagID t ≡ₚ graph_edges dagID t.
Proof.
  unfold select_edges_by_dag, graph_edges. apply fmap_Permutation.
  apply by_rank_Permutation.
Qed.

Lemma select_edges_elem key dagID t e :
  e ∈ select_edges_by_dag key dagID t ↔ e ∈ graph_edges dagID t.
Proof. by rewrite select_edges_Permutation. Qed.

(** *** The rows of the transaction *)

Lemma insert_all_nodes env dagID nodes :
  ∀ t t', insert_all (insert_node_of env dagID) nodes t = Some t' →
          edge_fk t' = edge_fk t ∧
          dag_nodes t' = dag_nodes t ++ (node_row env dagID <$> nodes) ∧
          dag_edges t' = dag_edges t.
Proof.
  induction nodes as [| n rest IH]; intros t t' H; simpl in H.
  - injection H as <-. by rewrite app_nil_r.
  - destruct (insert_node_of env dagID n t) as [t1 |] eqn:E; [| done].
    apply insert_node_of_Some in E as (_ & _ & ->).
    apply IH in H as (Hfk & Hn & He). simpl in *.
    rewrite Hn, <- app_assoc. done.
Qed.

Lemma insert_all_edges env dagID edges :
  ∀ t t', insert_all (insert_edge_of env dagID) edges t = Some t' →
          edge_fk t' = edge_fk t ∧
          dag_nodes t' = dag_nodes t ∧
          dag_edges t' = dag_edges t ++ (edge_row env dagID <$> edges).
Proof.
  induction edges as [| e rest IH]; intros t t' H; simpl in H.
  - injection H as <-. by rewrite app_nil_r.
  - destruct (insert_edge_of env dagID e t) as [t1 |] eqn:E; [| done].
    apply insert_edge_of_Some in E as (_ & _ & ->).
    apply IH in H as (Hfk & Hn & He). simpl in *.
    rewrite He, <- app_assoc. done.
Qed.

Lemma insert_all_nodes_accepted env dagID nodes :
  ∀ t t', insert_all (insert_node_of env dagID) nodes t = Some t' →
          Forall (λ n, accepted env (Node.Data n)) nodes.
Proof.
  induction nodes as [| n rest IH]; intros t t' H; simpl in H; [constructor |].
  destruct (insert_node_of env dagID n t) as [t1 |] eqn:E; [| done].
  apply insert_node_of_Some in E as (Hacc & _). constructor; [done |].
  by eapply IH.
Qed.

Lemma insert_all_edges_accepted env dagID edges :
  ∀ t t', insert_all (insert_edge_of env dagID) edges t = Some t' →
          Forall (λ e, accepted env (Edge.Data e)) edges.
Proof.
  induction edges as [| e rest IH]; intros t t' H; simpl in H; [constructor |].
  destruct (insert_edge_of env dagID e t) as [t1 |] eqn:E; [| done].
  apply insert_edge_of_Some in E as (Hacc & _). constructor; [done |].
  by eapply IH.
Qed.

Lemma delete_nodes_by_dag_clears dagID t t1 :
  delete_nodes (λ r, NodeRow.dag_id r = dagID) (delete_edges_by_dag dagID t)
    = Some t1 →
  (∀ r, r ∈ dag_nodes t1 → NodeRow.dag_id r ≠ dagID) ∧
  (∀ r, r ∈ dag_edges t1 → EdgeRow.dag_id r ≠ dagID).
Proof.
  unfold delete_nodes, delete_edges_by_dag. simpl. intros H.
  destruct (edge_fk t).
  - injection H as <-. simpl. split; intros r Hr.
    + by apply list_elem_of_filter in Hr as [Hr _].
    + apply list_elem_of_filter in Hr as [_ Hr].
      by apply list_elem_of_filter in Hr as [Hr _].
  - case_decide; [done |]. injection H as <-. simpl. split; intros r Hr.
    + by apply list_elem_of_filter in Hr as [Hr _].
    + by apply list_elem_of_filter in Hr as [Hr _].
Qed.

(** After a committed transaction the table holds, for the graph, the
    rows of the call and no other. *)
Lemma tx_body_rows env dagID nodes edges t t' :
  tx_body env dagID nodes edges t = Some t' →
  filter (λ r, NodeRow.dag_id r = dagID) (dag_nodes t')
  = node_row env dagID <$> nodes ∧
  filter (λ r, EdgeRow.dag_id r = dagID) (dag_edges t')
  = edge_row env dagID <$> edges.
Proof.
  unfold tx_body. intros H.
  destruct (delete_nodes _ _) as [t1 |] eqn:E1; [| done].
  destruct (insert_all _ nodes t1) as [t2 |] eqn:E2; [| done].
  apply delete_nodes_by_dag_clears in E1 as [Hn1 He1].
  apply insert_all_nodes in E2 as (_ & Hn2 & He2).
  apply insert_all_edges in H as (_ & Hn3 & He3).
  rewrite Hn3, Hn2, He3, He2, !filter_app.
  rewrite (filter_none _ (dag_nodes t1)) by (intros r Hr; by apply Hn1).
  rewrite (filter_none _ (dag_edges t1)) by (intros r Hr; by apply He1).
  rewrite !filter_all.
  - done.
  - intros r Hr. by apply list_elem_of_fmap in Hr as (e & -> & _).
  - intros r Hr. by apply list_elem_of_fmap in Hr as (n & -> & _).
Qed.

Lemma tx_body_graph env dagID nodes edges t t' :
  tx_body env dagID nodes edges t = Some t' →
  graph_nodes dagID t' = node_read env <$> nodes ∧
  graph_edges dagID t' = edge_read env <$> edges.
Proof.
  intros H. apply tx_body_rows in H as [Hn He].
  unfold graph_nodes, graph_edges. rewrite Hn, He.
  by rewrite <- !list_fmap_compose.
Qed.

Lemma tx_body_accepted env dagID nodes edges t t' :
  tx_body env dagID nodes edges t = Some t' →
  Forall (λ n, accepted env (Node.Data n)) nodes ∧
  Forall (λ e, accepted env (Edge.Data e)) edges.
Proof.
  unfold tx_body. intros H.
  destruct (delete_nodes _ _) as [t1 |] eqn:E1; [| done].
  destruct (insert_all _ nodes t1) as [t2 |] eqn:E2; [| done].
  split; [by eapply insert_all_nodes_accepted
         | by eapply insert_all_edges_accepted].
Qed.

(** ** Proofs: [CreateDAG] by phases *)

Lemma validateAcyclic_cases range nodes edges :
  validateAcyclic range nodes edges = Ok tt ∨
  validateAcyclic range nodes edges = Fail ErrCycleDetected ∨
  validateAcyclic range nodes edges = Diverge.
Proof.
  unfold validateAcyclic. destruct (scan _ _ _ _) as [[|] |]; auto.
Qed.

(** Every run of [CreateDAG] is one of: an unknown reference met by the
    edge loop, a validation that does not pass, or the transaction. *)
Lemma CreateDAG_phases env d w r w' :
  CreateDAG env d w = (r, w') →
  ∃ nodes refMap,
    Forall2 (node_assigned env) (DAG.Nodes d) nodes ∧
    (∀ ref, ref ≠ "" → refMap !! ref = ref_target nodes ref) ∧
    ((∃ s e, r = Fail (ErrUnknownRef s (side_ref s e)) ∧ e ∈ DAG.Edges d ∧
             side_ref s e ≠ "" ∧ refMap !! side_ref s e = None ∧
             same_store w w') ∨
     (∃ edges,
        Forall2 (edge_resolved env refMap) (DAG.Edges d) edges ∧
        ((validateAcyclic (range env) nodes edges = Fail ErrCycleDetected ∧
          r = Fail ErrCycleDetected ∧ same_store w w') ∨
         (validateAcyclic (range env) nodes edges = Diverge ∧
          r = Diverge ∧ same_store w w') ∨
         (validateAcyclic (range env) nodes edges = Ok tt ∧ tx w' = None ∧
          match tx_body env (DAG.ID d) nodes edges (db w) with
          | Some t =>
              r = Ok (DAG.mk (DAG.ID d) (clear_node_ref <$> nodes)
                             (clear_edge_refs <$> edges)) ∧
              db w' = t
          | None => (∃ step, r = Fail (ErrDb step)) ∧ db w' = db w
          end)))).
Proof.
  intros Hrun. unfold CreateDAG, mbind, M_bind in Hrun.
  destruct (assign_nodes_spec env (DAG.Nodes d) ∅ w)
    as (nodes & refMap & w1 & Ha & Hs1 & Hall & Hmap).
  rewrite Ha in Hrun. exists nodes, refMap. split; [done |]. split.
  { intros ref Href. rewrite (Hmap ref Href), lookup_empty.
    by destruct (ref_target nodes ref). }
  destruct (resolve_edges_spec env refMap (DAG.Edges d) w1)
    as (re & w2 & He & Hs2 & Hpost).
  rewrite He in Hrun. destruct re as [edges | err |]; [| | done].
  2:{ left. injection Hrun as <- <-.
      destruct Hpost as (s & e & -> & Hin & Hr & Hm).
      exists s, e. repeat split; try done; by eapply same_store_trans. }
  right. exists edges. split; [done |].
  assert (same_store w w2) as Hs by by eapply same_store_trans.
  unfold lift in Hrun.
  destruct (validateAcyclic_cases (range env) nodes edges) as [Hv | [Hv | Hv]];
    rewrite Hv in Hrun.
  - right; right. split; [done |].
    destruct (persist_spec env (DAG.ID d) nodes edges w2)
      as (rp & w3 & Hp & Htx & _ & Hbody).
    rewrite Hp in Hrun. destruct Hs as (Hdb & _ & _). rewrite Hdb in Hbody.
    destruct (tx_body env (DAG.ID d) nodes edges (db w)) as [t |].
    + destruct Hbody as [-> Hdb3]. injection Hrun as <- <-. done.
    + destruct Hbody as [[step ->] Hdb3]. injection Hrun as <- <-.
      split; [done |]. split; [by exists step | congruence].
  - left. injection Hrun as <- <-. done.
  - right; left. injection Hrun as <- <-. done.
Qed.

(** ** Proofs: [AddEdge] *)

Lemma has_cycle_same_endpoints edges e e' :
  Edge.FromNodeID e' = Edge.FromNodeID e →
  Edge.ToNodeID e' = Edge.ToNodeID e →
  has_cycle (edges ++ [e']) ↔ has_cycle (edges ++ [e]).
Proof.
  intros Hf Ht. apply has_cycle_ext. intros a b. rewrite !edge_rel_app.
  assert (edge_rel [e'] a b ↔ edge_rel [e] a b) as Hiff; [| by rewrite Hiff].
  unfold edge_rel. split; intros (x & Hx & Ha & Hb);
    apply list_elem_of_singleton in Hx as ->.
  - exists e. split; [apply list_elem_of_singleton; done | split; congruence].
  - exists e'. split; [apply list_elem_of_singleton; done | split; congruence].
Qed.

Lemma edge_rel_Permutation edges edges' a b :
  edges ≡ₚ edges' → edge_rel edges a b ↔ edge_rel edges' a b.
Proof.
  intros Hp. unfold edge_rel. split; intros (e & He & H); exists e;
    (split; [| done]); [by rewrite <- Hp | by rewrite Hp].
Qed.

Lemma has_cycle_Permutation_app edges edges' es :
  edges ≡ₚ edges' → has_cycle (edges ++ es) ↔ has_cycle (edges' ++ es).
Proof.
  intros Hp. apply has_cycle_ext. intros a b.
  by rewrite !edge_rel_app, (edge_rel_Permutation _ _ a b Hp).
Qed.

(** The two queries of [AddEdge] and [UpdateEdge] return the nodes and the
    edges the tables hold for the graph, in some order. *)
Lemma AddEdge_load_run env dagID edge w :
  ∃ id w1 nodes edges,
    AddEdge_load env dagID edge w = (Ok (with_id id edge, nodes, edges), w1) ∧
    nodes ≡ₚ persisted_nodes dagID w ∧ edges ≡ₚ persisted_edges dagID w ∧
    db w1 = db w ∧ tx w1 = tx w ∧
    log w1 = log w ++ [SelectNodesByDag dagID; SelectEdgesByDag dagID] ∧
    id = chosen_id env (Edge.ID edge) w ∧
    (Edge.ID edge ≠ "" → id = Edge.ID edge).
Proof.
  unfold AddEdge_load, mbind, M_bind.
  destruct (id_or_new_run env (Edge.ID edge) w)
    as (id & w1 & Hrun & (Hdb & Htx & Hlog) & Hkeep & _).
  rewrite Hrun. unfold ListNodes, ListEdges, pool_query_ordered, pool_query.
  simpl. eexists id, _, _, _. split; [reflexivity |]. simpl.
  rewrite Hdb. split; [apply select_nodes_Permutation |].
  split; [apply select_edges_Permutation |]. split; [done |]. split; [done |].
  split; [by rewrite Hlog, <- app_assoc |]. split; [| done].
  unfold id_or_new, chosen_id in *. case_decide.
  - unfold uuid_NewString in Hrun. by injection Hrun as <- _.
  - by injection Hrun as <- _.
Qed.

Lemma insert_edge_persisted env dagID e t t' :
  insert_edge_of env dagID e t = Some t' →
  graph_edges dagID t' = graph_edges dagID t ++ [edge_read env e] ∧
  graph_nodes dagID t' = graph_nodes dagID t.
Proof.
  intros H. apply insert_edge_of_Some in H as (_ & _ & ->).
  unfold graph_edges, graph_nodes. simpl.
  rewrite filter_app, fmap_app. split; [| done]. f_equal.
  by rewrite filter_cons_True.
Qed.

(** [AddEdge] by cases on the cycle check of the loaded edges with the
    new edge appended. *)
Lemma AddEdge_run env dagID edge w :
  range_ok (range env) →
  ∃ r w',
    AddEdge env dagID edge w = (r, w') ∧ tx w' = tx w ∧
    let id := chosen_id env (Edge.ID edge) w in
    ((has_cycle (persisted_edges dagID w ++ [edge]) ∧
      r = Fail ErrCycleDetected ∧ db w' = db w ∧
      log w' = log w ++ [SelectNodesByDag dagID; SelectEdgesByDag dagID]) ∨
     (¬ has_cycle (persisted_edges dagID w ++ [edge]) ∧
      match insert_edge_of env dagID (with_id id edge) (db w) with
      | Some t => r = Ok id ∧ db w' = t
      | None => r = Fail (ErrDb "dag: insert edge") ∧ db w' = db w
      end)).
Proof.
  intros Hrange. unfold AddEdge, mbind, M_bind.
  destruct (AddEdge_load_run env dagID edge w)
    as (id & w1 & nodes & edges & Hrun & _ & Hp & Hdb & Htx & Hlog & Hid & _).
  rewrite Hrun. simpl. rewrite <- Hid.
  unfold AddEdge_store, mbind, M_bind, lift.
  assert (has_cycle (edges ++ [with_id id edge])
          ↔ has_cycle (persisted_edges dagID w ++ [edge])) as Hiff.
  { rewrite (has_cycle_Permutation_app _ _ _ Hp).
    by apply has_cycle_same_endpoints. }
  destruct (validateAcyclic_decides (range env) nodes
              (edges ++ [with_id id edge]) Hrange)
    as [[Hc ->] | [Hc ->]].
  - eexists _, _. split; [reflexivity |]. split; [done |].
    left. split; [by apply Hiff | done].
  - unfold pool_exec, run_stmt. simpl. rewrite Hdb.
    change (insert_edge id dagID (Edge.FromNodeID edge) (Edge.ToNodeID edge)
              (jsonb env (Edge.Data edge)) (db w))
      with (insert_edge_of env dagID (with_id id edge) (db w)).
    destruct (insert_edge_of env dagID (with_id id edge) (db w)) as [t |] eqn:E;
      simpl.
    + eexists _, _. split; [reflexivity |]. split; [done |].
      right. split; [| done]. intros Hbad. by apply Hc, Hiff.
    + eexists _, _. split; [reflexivity |]. split; [done |].
      right. split; [| done]. intros Hbad. by apply Hc, Hiff.
Qed.

Lemma CreateDAG_ok_inv env d w d' w' :
  CreateDAG env d w = (Ok d', w') →
  ∃ nodes refMap edges,
    Forall2 (node_assigned env) (DAG.Nodes d) nodes ∧
    (∀ ref, ref ≠ "" → refMap !! ref = ref_target nodes ref) ∧
    Forall2 (edge_resolved env refMap) (DAG.Edges d) edges ∧
    d' = DAG.mk (DAG.ID d) (clear_node_ref <$> nodes)
                (clear_edge_refs <$> edges) ∧
    validateAcyclic (range env) nodes edges = Ok tt ∧
    tx w' = None ∧
    tx_body env (DAG.ID d) nodes edges (db w) = Some (db w').
Proof.
  intros Hrun. apply CreateDAG_phases in Hrun
    as (nodes & refMap & Hall & Hmap & [(s & e & Hr & _) | (edges & He & Hcase)]);
    [done |].
  exists nodes, refMap, edges. split; [done |]. split; [done |]. split; [done |].
  destruct Hcase as [(_ & Hr & _) | [(_ & Hr & _) | (Hv & Htx & Hbody)]];
    [done | done |].
  destruct (tx_body env (DAG.ID d) nodes edges (db w)) as [t |].
  - destruct Hbody as [Hr Hdb]. injection Hr as ->. by rewrite Hdb.
  - by destruct Hbody as [[step Hr] _].
Qed.

Lemma side_id_clear s e : side_id s (clear_edge_refs e) = side_id s e.
Proof. by destruct s. Qed.

(** How a returned edge got each of its endpoints. *)
Lemma CreateDAG_ok_side env d w d' w' i e e' s :
  CreateDAG env d w = (Ok d', w') →
  DAG.Edges d !! i = Some e → DAG.Edges d' !! i = Some e' →
  (side_ref s e = "" ∧ side_id s e' = side_id s e) ∨
  (side_ref s e ≠ "" ∧
   ∃ j n', declares_last (DAG.Nodes d) (side_ref s e) j ∧
           DAG.Nodes d' !! j = Some n' ∧ side_id s e' = Node.ID n').
Proof.
  intros Hrun He He'. apply CreateDAG_ok_inv in Hrun
    as (nodes & refMap & edges & Hall & Hmap & Hres & -> & _).
  simpl in *. rewrite list_lookup_fmap in He'.
  destruct (edges !! i) as [e0 |] eqn:E0; [| done]. injection He' as <-.
  pose proof (Forall2_lookup_lr _ _ _ _ _ _ Hres He E0) as Hr.
  apply (edge_resolved_side _ _ _ _ s) in Hr.
  rewrite side_id_clear. destruct Hr as [[Hr Hid] | [Hr Hm]]; [by left | right].
  split; [done |]. rewrite (Hmap _ Hr) in Hm.
  destruct (ref_target_declares_last env _ _ _ _ Hall Hm) as (j & n0 & Hj & Hn0 & Hid).
  exists j, (clear_node_ref n0). split; [done |]. split; [| done].
  by rewrite list_lookup_fmap, Hn0.
Qed.

(** ** The claims *)

Lemma edge_rel_at edges (i : nat) e a b :
  edges !! i = Some e → Edge.FromNodeID e = a → Edge.ToNodeID e = b →
  edge_rel edges a b.
Proof.
  intros Hi Ha Hb. exists e. split; [| done].
  apply list_elem_of_lookup. by exists i.
Qed.

(** C1: [validateAcyclic] returns the cycle-detected error exactly when the
    edge list has a directed cycle and succeeds exactly when it has none,
    whatever order the final loop meets the keys in; a self-loop is
    reported as a cycle, both endpoints of every edge are keys of the state
    table whether or not a node declares them, and an edge repeating the
    endpoints of an existing one does not change the verdict. *)
Theorem validateAcyclic_iff_cycle range nodes edges :
  range_ok range →
  (validateAcyclic range nodes edges = Fail ErrCycleDetected
   ↔ has_cycle edges) ∧
  (validateAcyclic range nodes edges = Ok tt ↔ ¬ has_cycle edges) ∧
  (∀ e, e ∈ edges → Edge.FromNodeID e = Edge.ToNodeID e →
        validateAcyclic range nodes edges = Fail ErrCycleDetected) ∧
  (∀ e, e ∈ edges →
        Edge.FromNodeID e ∈ dom (build_state nodes edges) ∧
        Edge.ToNodeID e ∈ dom (build_state nodes edges)) ∧
  (∀ e e', e ∈ edges →
           Edge.FromNodeID e' = Edge.FromNodeID e →
           Edge.ToNodeID e' = Edge.ToNodeID e →
           validateAcyclic range nodes (edges ++ [e'])
           = validateAcyclic range nodes edges).
Proof.
  intros Hr. split; [by apply validateAcyclic_fail_iff |].
  split; [by apply validateAcyclic_ok_iff |]. split; [| split].
  - intros e He Hloop. apply validateAcyclic_fail_iff; [done |].
    by eapply self_loop_has_cycle.
  - intros e He. by apply build_state_endpoints.
  - intros e e' He Hf Ht.
    pose proof (duplicate_edge_no_new_cycle edges e e' He Hf Ht) as Hdup.
    destruct (validateAcyclic_decides range nodes edges Hr) as [[Hc ->] | [Hc ->]].
    + apply validateAcyclic_fail_iff; [done |]. by apply Hdup.
    + apply validateAcyclic_ok_iff; [done |]. by rewrite Hdup.
Qed.

Lemma validateAcyclic_iff_cycle_witness :
  range_ok range_sorted ∧
  validateAcyclic range_sorted [plain_node "q1"]
    [plain_edge "e1" "q1" "q2"; plain_edge "e2" "q2" "q3";
     plain_edge "e3" "q3" "q1"]
  = Fail ErrCycleDetected.
Proof.
  split; [apply range_sorted_ok |].
  apply (validateAcyclic_iff_cycle range_sorted [plain_node "q1"]
           [plain_edge "e1" "q1" "q2"; plain_edge "e2" "q2" "q3";
            plain_edge "e3" "q3" "q1"] range_sorted_ok).
  exists "q1".
  eapply tc_l; [eapply (edge_rel_at _ 0); reflexivity |].
  eapply tc_l; [eapply (edge_rel_at _ 1); reflexivity |].
  apply tc_once. eapply (edge_rel_at _ 2); reflexivity.
Defined.

(** C2: when the persisted edges of the graph together with the candidate
    edge contain a directed cycle, [AddEdge] returns the cycle-detected
    error, the tables are left as they were (the candidate is not among
    the persisted edges), and the only statements issued are the two that
    load the nodes and the edges of the graph. *)
Theorem AddEdge_rejects_cycle env dagID edge w :
  range_ok (range env) →
  has_cycle (persisted_edges dagID w ++ [edge]) →
  ∃ w', AddEdge env dagID edge w = (Fail ErrCycleDetected, w') ∧
        db w' = db w ∧
        persisted_edges dagID w' = persisted_edges dagID w ∧
        log w' = log w ++ [SelectNodesByDag dagID; SelectEdgesByDag dagID].
Proof.
  intros Hr Hc.
  destruct (AddEdge_run env dagID edge w Hr)
    as (r & w' & Hrun & _ & [(_ & -> & Hdb & Hlog) | (Hn & _)]);
    [| done].
  exists w'. split; [done |]. split; [done |]. split; [| done].
  unfold persisted_edges. by rewrite Hdb.
Qed.

Lemma AddEdge_rejects_cycle_witness :
  ∃ w', AddEdge env0 "g" (plain_edge "" "q3" "q1")
                (world0 (chain_db OnDeleteCascade))
        = (Fail ErrCycleDetected, w') ∧
        db w' = chain_db OnDeleteCascade.
Proof.
  destruct (AddEdge_rejects_cycle env0 "g" (plain_edge "" "q3" "q1")
              (world0 (chain_db OnDeleteCascade)) range_sorted_ok)
    as (w' & Hrun & Hdb & _).
  - exists "q1".
    eapply tc_l; [eapply (edge_rel_at _ 0); reflexivity |].
    eapply tc_l; [eapply (edge_rel_at _ 1); reflexivity |].
    apply tc_once. eapply (edge_rel_at _ 2); reflexivity.
  - exists w'. split; [exact Hrun | exact Hdb].
Defined.

Lemma uuid_n_nonempty k : uuid_n k ≠ "".
Proof. by destruct k. Qed.

(** C3: a successful [CreateDAG] returns nodes and edges whose ref fields
    are all empty and whose ids are all non-empty (an id the caller gave is
    kept, a missing one is generated); and wherever an input edge names a
    ref on one side, the returned edge carries on that side the id of the
    returned node at the position of the node that declared the ref. *)
Theorem CreateDAG_resolves_refs env d w d' w' :
  (∀ k, NewString env k ≠ "") →
  CreateDAG env d w = (Ok d', w') →
  (∀ n, n ∈ DAG.Nodes d' → Node.Ref n = "" ∧ Node.ID n ≠ "") ∧
  (∀ e, e ∈ DAG.Edges d' →
        Edge.FromNodeRef e = "" ∧ Edge.ToNodeRef e = "" ∧ Edge.ID e ≠ "") ∧
  length (DAG.Nodes d') = length (DAG.Nodes d) ∧
  length (DAG.Edges d') = length (DAG.Edges d) ∧
  (∀ j n n', DAG.Nodes d !! j = Some n → DAG.Nodes d' !! j = Some n' →
             (Node.ID n ≠ "" → Node.ID n' = Node.ID n) ∧
             Node.Data n' = Node.Data n) ∧
  (∀ i e e', DAG.Edges d !! i = Some e → DAG.Edges d' !! i = Some e' →
             (Edge.ID e ≠ "" → Edge.ID e' = Edge.ID e) ∧
             Edge.Data e' = Edge.Data e) ∧
  (∀ i e e' s j n',
     DAG.Edges d !! i = Some e → DAG.Edges d' !! i = Some e' →
     side_ref s e ≠ "" →
     declares_last (DAG.Nodes d) (side_ref s e) j →
     DAG.Nodes d' !! j = Some n' →
     side_id s e' = Node.ID n').
Proof.
  intros Hgen Hrun. pose proof Hrun as Hinv. apply CreateDAG_ok_inv in Hinv
    as (nodes & refMap & edges & Hall & Hmap & Hres & -> & _).
  simpl. split; [| split; [| split; [| split; [| split; [| split]]]]].
  - intros n Hn. apply list_elem_of_fmap in Hn as (m & -> & Hm).
    split; [done |]. simpl. apply list_elem_of_lookup in Hm as [j Hj].
    destruct (Forall2_lookup_r _ _ _ _ _ Hall Hj) as (n0 & _ & (_ & _ & _ & Hne)).
    by apply Hne.
  - intros e He. apply list_elem_of_fmap in He as (m & -> & Hm).
    split; [done |]. split; [done |]. simpl.
    apply list_elem_of_lookup in Hm as [j Hj].
    destruct (Forall2_lookup_r _ _ _ _ _ Hres Hj)
      as (e0 & _ & (_ & _ & _ & _ & Hne & _)).
    by apply Hne.
  - rewrite length_fmap. symmetry. by eapply Forall2_length.
  - rewrite length_fmap. symmetry. by eapply Forall2_length.
  - intros j n n' Hn Hn'. rewrite list_lookup_fmap in Hn'.
    destruct (nodes !! j) as [n0 |] eqn:E0; [| done]. injection Hn' as <-.
    destruct (Forall2_lookup_lr _ _ _ _ _ _ Hall Hn E0) as (_ & Hd & Hk & _).
    split; [exact Hk | exact Hd].
  - intros i e e' He He'. rewrite list_lookup_fmap in He'.
    destruct (edges !! i) as [e0 |] eqn:E0; [| done]. injection He' as <-.
    destruct (Forall2_lookup_lr _ _ _ _ _ _ Hres He E0)
      as (_ & _ & Hd & Hk & _).
    split; [exact Hk | exact Hd].
  - intros i e e' s j n' He He' Hr Hlast Hn'.
    destruct (CreateDAG_ok_side env d w _ w' i e e' s Hrun He He')
      as [[Hr0 _] | (_ & j0 & n0 & Hlast0 & Hn0 & Hid)]; [done |].
    pose proof (declares_last_unique _ _ _ _ Hlast Hlast0) as ->.
    simpl in Hn0. rewrite Hn' in Hn0. by injection Hn0 as <-.
Qed.

Lemma CreateDAG_resolves_refs_witness :
  ∃ d' w',
    CreateDAG env0 ref_dag (world0 schemaSQL) = (Ok d', w') ∧
    ∀ e, e ∈ DAG.Edges d' →
         Edge.FromNodeRef e = "" ∧ Edge.ToNodeRef e = "" ∧ Edge.ID e ≠ "".
Proof.
  eexists _, _. split; [vm_compute; reflexivity |].
  eapply (CreateDAG_resolves_refs env0 ref_dag (world0 schemaSQL));
    [apply uuid_n_nonempty | vm_compute; reflexivity].
Defined.

Lemma accepted_rendered env data :
  accepted env data → jsonb env data = Jsonb (rendered env data).
Proof. intros [text H]. by rewrite (rendered_Jsonb _ _ _ H). Qed.

(** The graph a successful [CreateDAG] returns, against the graph given. *)
Lemma CreateDAG_ok_kept env d w d' w' :
  CreateDAG env d w = (Ok d', w') →
  Forall2 node_kept (DAG.Nodes d) (DAG.Nodes d') ∧
  Forall2 (edge_kept (DAG.Nodes d) (DAG.Nodes d')) (DAG.Edges d) (DAG.Edges d').
Proof.
  intros Hrun. pose proof Hrun as Hinv. apply CreateDAG_ok_inv in Hinv
    as (nodes & refMap & edges & Hall & _ & Hres & Hd' & _).
  split.
  - rewrite Hd'. simpl. apply Forall2_fmap_r.
    eapply Forall2_impl; [exact Hall |].
    intros n n' (_ & Hdata & Hid & _). by repeat split.
  - apply Forall2_same_length_lookup_2.
    { rewrite Hd'. simpl. rewrite length_fmap. by eapply Forall2_length. }
    intros i e e' He He'.
    pose proof (CreateDAG_ok_side env d w d' w' i e e' SideFrom Hrun He He')
      as Hfrom.
    pose proof (CreateDAG_ok_side env d w d' w' i e e' SideTo Hrun He He')
      as Hto.
    rewrite Hd' in He'. simpl in He'. rewrite list_lookup_fmap in He'.
    destruct (edges !! i) as [e0 |] eqn:E0; [| done]. injection He' as <-.
    destruct (Forall2_lookup_lr _ _ _ _ _ _ Hres He E0)
      as (_ & _ & Hdata & Hid & _).
    by repeat split.
Qed.

(** The rows a successful [CreateDAG] leaves for its graph, against the
    graph it returns. *)
Lemma CreateDAG_ok_rows env d w d' w' :
  CreateDAG env d w = (Ok d', w') →
  ∃ nrows erows,
    Forall2 (node_stored env (DAG.ID d)) (DAG.Nodes d') nrows ∧
    Forall2 (edge_stored env (DAG.ID d)) (DAG.Edges d') erows ∧
    filter (λ r, NodeRow.dag_id r = DAG.ID d) (dag_nodes (db w')) = nrows ∧
    filter (λ r, EdgeRow.dag_id r = DAG.ID d) (dag_edges (db w')) = erows.
Proof.
  intros Hrun. apply CreateDAG_ok_inv in Hrun
    as (nodes & refMap & edges & _ & _ & _ & -> & _ & _ & Hbody).
  pose proof (tx_body_accepted _ _ _ _ _ _ Hbody) as [Han Hae].
  apply tx_body_rows in Hbody as [Hn He].
  exists (node_row env (DAG.ID d) <$> nodes),
         (edge_row env (DAG.ID d) <$> edges).
  split; [| split; [| done]]; simpl.
  - apply Forall2_fmap, Forall_Forall2_diag.
    eapply Forall_impl; [exact Han |]. intros n Hacc.
    split; [done |]. split; [done |]. by apply accepted_rendered.
  - apply Forall2_fmap, Forall_Forall2_diag.
    eapply Forall_impl; [exact Hae |]. intros e Hacc.
    repeat split; try done. by apply accepted_rendered.
Qed.

Lemma ListNodes_run env dagID w :
  ∃ l w', ListNodes env dagID w = (Ok l, w') ∧
          l ≡ₚ persisted_nodes dagID w ∧
          db w' = db w ∧ tx w' = tx w ∧ uuids w' = uuids w.
Proof.
  unfold ListNodes, pool_query_ordered, pool_query. eexists _, _.
  split; [reflexivity |]. split; [apply select_nodes_Permutation | done].
Qed.

Lemma ListEdges_run env dagID w :
  ∃ l w', ListEdges env dagID w = (Ok l, w') ∧
          l ≡ₚ persisted_edges dagID w ∧
          db w' = db w ∧ tx w' = tx w ∧ uuids w' = uuids w.
Proof.
  unfold ListEdges, pool_query_ordered, pool_query. eexists _, _.
  split; [reflexivity |]. split; [apply select_edges_Permutation | done].
Qed.

(** C4: a successful [CreateDAG] returns the graph it was given (ids the
    caller gave kept, payloads as given, endpoints as given or as the refs
    resolve), and leaves in the tables, for its graph id, one row for each
    node and each edge it returns and no other row, whatever the graph
    held before, another call's rows included; each row holds the payload
    as the column renders it, and the rows are what [ListNodes] and
    [ListEdges] then return, in some order.  A call that does not succeed
    leaves the committed tables as they were.  In both cases no
    transaction stays open. *)
Theorem CreateDAG_replaces_atomically env d w r w' :
  CreateDAG env d w = (r, w') →
  (∀ d', r = Ok d' →
     Forall2 node_kept (DAG.Nodes d) (DAG.Nodes d') ∧
     Forall2 (edge_kept (DAG.Nodes d) (DAG.Nodes d'))
             (DAG.Edges d) (DAG.Edges d') ∧
     (∃ nrows erows,
        Forall2 (node_stored env (DAG.ID d)) (DAG.Nodes d') nrows ∧
        Forall2 (edge_stored env (DAG.ID d)) (DAG.Edges d') erows ∧
        filter (λ r, NodeRow.dag_id r = DAG.ID d) (dag_nodes (db w'))
          ≡ₚ nrows ∧
        filter (λ r, EdgeRow.dag_id r = DAG.ID d) (dag_edges (db w'))
          ≡ₚ erows ∧
        (∃ l, (ListNodes env (DAG.ID d) w').1 = Ok l ∧
              l ≡ₚ node_of_row <$> nrows) ∧
        (∃ l, (ListEdges env (DAG.ID d) w').1 = Ok l ∧
              l ≡ₚ edge_of_row <$> erows)) ∧
     tx w' = None) ∧
  (¬ is_Ok r → db w' = db w ∧ (tx w = None → tx w' = None)).
Proof.
  intros Hrun. split.
  - intros d' ->.
    destruct (CreateDAG_ok_kept env d w d' w' Hrun) as [Hn He].
    destruct (CreateDAG_ok_rows env d w d' w' Hrun)
      as (nrows & erows & Hnr & Her & Hfn & Hfe).
    apply CreateDAG_ok_inv in Hrun as (_ & _ & _ & _ & _ & _ & _ & _ & Htx & _).
    split; [done |]. split; [done |]. split; [| done].
    exists nrows, erows. split; [done |]. split; [done |].
    split; [by rewrite Hfn |]. split; [by rewrite Hfe |]. split.
    + destruct (ListNodes_run env (DAG.ID d) w') as (l & w2 & -> & Hp & _).
      exists l. split; [done |]. rewrite Hp.
      unfold persisted_nodes, graph_nodes. by rewrite Hfn.
    + destruct (ListEdges_run env (DAG.ID d) w') as (l & w2 & -> & Hp & _).
      exists l. split; [done |]. rewrite Hp.
      unfold persisted_edges, graph_edges. by rewrite Hfe.
  - intros Hnok. apply CreateDAG_phases in Hrun
      as (nodes & refMap & _ & _ & [(s & e & _ & _ & _ & _ & Hs) | (edges & _ & Hcase)]).
    { destruct Hs as (Hdb & Htx & _). split; [done | congruence]. }
    destruct Hcase as [(_ & _ & Hs) | [(_ & _ & Hs) | (_ & Htx & Hbody)]].
    + destruct Hs as (Hdb & Htx & _). split; [done | congruence].
    + destruct Hs as (Hdb & Htx & _). split; [done | congruence].
    + destruct (tx_body env (DAG.ID d) nodes edges (db w)) as [t |].
      * destruct Hbody as [-> _]. by destruct Hnok.
      * by destruct Hbody as [_ Hdb].
Qed.

(** Two calls on the same graph id: of the rows of the first, none is
    left after the second. *)
Lemma CreateDAG_replaces_atomically_witness :
  ∃ d1 d2 w2,
    CreateDAG env0 ref_dag (world0 schemaSQL) = (Ok d1, ref_dag_created) ∧
    CreateDAG env0 single_dag ref_dag_created = (Ok d2, w2) ∧
    dag_nodes (db ref_dag_created)
    = [NodeRow.mk "u" "g" "[1]"; NodeRow.mk "uu" "g" "[2]"] ∧
    dag_edges (db ref_dag_created) = [EdgeRow.mk "uuu" "g" "u" "uu" "[3]"] ∧
    dag_nodes (db w2) = [NodeRow.mk "k" "g" "[1, 2]"] ∧
    dag_edges (db w2) = [] ∧
    Forall2 node_kept (DAG.Nodes single_dag) (DAG.Nodes d2) ∧
    ∃ nrows,
      Forall2 (node_stored env0 "g") (DAG.Nodes d2) nrows ∧
      filter (λ r, NodeRow.dag_id r = "g") (dag_nodes (db w2)) ≡ₚ nrows.
Proof.
  eexists _, _, _. split; [vm_compute; reflexivity |].
  split; [vm_compute; reflexivity |].
  split; [reflexivity |]. split; [reflexivity |].
  split; [reflexivity |]. split; [reflexivity |].
  match goal with
  | |- Forall2 _ _ (DAG.Nodes ?d2) ∧
       (∃ nrows, _ ∧ filter _ (dag_nodes (db ?w2)) ≡ₚ nrows) =>
      destruct (CreateDAG_replaces_atomically env0 single_dag ref_dag_created
                  (Ok d2) w2 ltac:(vm_compute; reflexivity)) as [Hok _]
  end.
  destruct (Hok _ eq_refl)
    as (Hkept & _ & (nrows & erows & Hnr & _ & Hpn & _) & _).
  split; [exact Hkept |]. exists nrows. split; [exact Hnr | exact Hpn].
Defined.

(** C5: when an edge of the input names, on either side, a non-empty ref
    that no input node declares, [CreateDAG] returns the unknown-reference
    error of such an edge, carrying the side and the ref string; the
    tables are as they were and no statement, not even the begin of a
    transaction, has been issued. *)
Theorem CreateDAG_unknown_ref env d w :
  (∃ s e, e ∈ DAG.Edges d ∧ unknown_ref (DAG.Nodes d) s e) →
  ∃ s e w',
    CreateDAG env d w = (Fail (ErrUnknownRef s (side_ref s e)), w') ∧
    e ∈ DAG.Edges d ∧ unknown_ref (DAG.Nodes d) s e ∧
    db w' = db w ∧ tx w' = tx w ∧ log w' = log w.
Proof.
  intros (s & e & He & Hr & Hnd).
  destruct (CreateDAG env d w) as [r w'] eqn:Hrun.
  apply CreateDAG_phases in Hrun
    as (nodes & refMap & Hall & Hmap &
        [(s0 & e0 & -> & He0 & Hr0 & Hm0 & Hs) | (edges & Hres & _)]).
  - exists s0, e0, w'. split; [done |]. split; [done |].
    split; [| by destruct Hs as (? & ? & ?)].
    split; [done |]. intros Hd. rewrite (Hmap _ Hr0) in Hm0.
    destruct (ref_target_declared env _ _ _ Hall Hd) as [id Hid]. congruence.
  - exfalso. apply list_elem_of_lookup in He as [i Hi].
    destruct (Forall2_lookup_l _ _ _ _ _ Hres Hi) as (e' & _ & Hres').
    apply (edge_resolved_side _ _ _ _ s) in Hres'
      as [[Hr' _] | [_ Hm]]; [done |].
    rewrite (Hmap _ Hr), (ref_target_undeclared env _ _ _ Hall Hnd) in Hm. done.
Qed.

Lemma CreateDAG_unknown_ref_witness :
  ∃ s e w',
    CreateDAG env0 dangling_dag (world0 schemaSQL)
      = (Fail (ErrUnknownRef s (side_ref s e)), w') ∧
    e ∈ DAG.Edges dangling_dag ∧ unknown_ref (DAG.Nodes dangling_dag) s e ∧
    db w' = schemaSQL ∧ tx w' = None ∧ log w' = [].
Proof.
  apply (CreateDAG_unknown_ref env0 dangling_dag (world0 schemaSQL)).
  exists SideTo, (Edge.mk "" "" "" "a" "zz" "{}").
  split; [left |]. split; [done |].
  intros (n & Hn & Hr). simpl in Hn.
  apply list_elem_of_singleton in Hn as ->. done.
Defined.

Lemma select_edge_dag_absent id t :
  id ∉ edge_ids t → select_edge_dag id t = None.
Proof.
  intros Hid. unfold select_edge_dag. rewrite filter_none; [done |].
  intros r Hr Heq. apply Hid. unfold edge_ids.
  apply list_elem_of_fmap. by exists r.
Qed.

(** C6: [UpdateEdge] of an edge id that no edge row carries returns the
    edge-not-found error after a single statement, the lookup of the
    owning graph: neither the nodes nor the edges are loaded, the outcome
    does not depend on the endpoints given, and the tables are as they
    were. *)
Theorem UpdateEdge_not_found env edge w :
  Edge.ID edge ∉ edge_ids (db w) →
  UpdateEdge env edge w
  = (Fail ErrEdgeNotFound,
     mkWorld (db w) (tx w) (log w ++ [SelectEdgeDagById (Edge.ID edge)])
             (uuids w)).
Proof.
  intros Hid. unfold UpdateEdge, mbind, M_bind, pool_query. simpl.
  by rewrite select_edge_dag_absent.
Qed.

Lemma UpdateEdge_not_found_witness :
  UpdateEdge env0 (plain_edge "zz" "q1" "q1") (world0 (chain_db OnDeleteCascade))
  = (Fail ErrEdgeNotFound,
     mkWorld (chain_db OnDeleteCascade) None [SelectEdgeDagById "zz"] O).
Proof.
  apply (UpdateEdge_not_found env0 (plain_edge "zz" "q1" "q1")
           (world0 (chain_db OnDeleteCascade))).
  vm_compute. intros H. repeat (apply elem_of_cons in H as [H | H]; [done |]).
  by apply elem_of_nil in H.
Defined.

(** C7, as the code has it: resolution is decided by the ref, not by the
    id.  On each side, an edge whose ref is empty keeps the id it came
    with, and an edge whose ref is not empty gets the id of the node that
    declared the ref, whatever id it came with. *)
Theorem CreateDAG_ref_decides env d w d' w' i e e' s :
  CreateDAG env d w = (Ok d', w') →
  DAG.Edges d !! i = Some e → DAG.Edges d' !! i = Some e' →
  (side_ref s e = "" → side_id s e' = side_id s e) ∧
  (side_ref s e ≠ "" →
   ∃ j n', declares_last (DAG.Nodes d) (side_ref s e) j ∧
           DAG.Nodes d' !! j = Some n' ∧ side_id s e' = Node.ID n').
Proof.
  intros Hrun He He'.
  destruct (CreateDAG_ok_side env d w d' w' i e e' s Hrun He He')
    as [[Hr Hid] | [Hr Hid]]; split; done.
Qed.

Lemma CreateDAG_ref_decides_witness :
  ∃ d' w',
    CreateDAG env0 both_dag (world0 schemaSQL) = (Ok d', w') ∧
    ∀ e', DAG.Edges d' !! O = Some e' →
          side_id SideTo e' = "y" ∧
          ∃ j n', declares_last (DAG.Nodes both_dag) "a" j ∧
                  DAG.Nodes d' !! j = Some n' ∧
                  side_id SideFrom e' = Node.ID n'.
Proof.
  eexists _, _. split; [vm_compute; reflexivity |].
  intros e' He'. split.
  - eapply (CreateDAG_ref_decides env0 both_dag (world0 schemaSQL) _ _ O
             (Edge.mk "e" "x" "y" "a" "" "{}") e' SideTo);
      [vm_compute; reflexivity | reflexivity | exact He' | reflexivity].
  - eapply (CreateDAG_ref_decides env0 both_dag (world0 schemaSQL) _ _ O
             (Edge.mk "e" "x" "y" "a" "" "{}") e' SideFrom);
      [vm_compute; reflexivity | reflexivity | exact He' | done].
Defined.

(** C7 as stated fails: an edge that carries a source id together with a
    source ref does not keep the id. *)
Lemma CreateDAG_overwrites_given_id :
  ¬ (∀ d' w' i e e',
       CreateDAG env0 both_dag (world0 schemaSQL) = (Ok d', w') →
       DAG.Edges both_dag !! i = Some e → DAG.Edges d' !! i = Some e' →
       Edge.FromNodeID e ≠ "" → Edge.FromNodeID e' = Edge.FromNodeID e).
Proof.
  intros H.
  assert (Edge.FromNodeID (Edge.mk "e" "n1" "y" "" "" "{}")
          = Edge.FromNodeID (Edge.mk "e" "x" "y" "a" "" "{}")) as Hx.
  { eapply (H _ _ O);
      [vm_compute; reflexivity | reflexivity | reflexivity | done]. }
  discriminate Hx.
Qed.

Lemma gone_ids_by_id nodeID t x :
  x ∈ NodeRow.id <$> filter (λ r, NodeRow.id r = nodeID) (dag_nodes t) ↔
  x = nodeID ∧ nodeID ∈ node_ids t.
Proof.
  unfold node_ids. rewrite !list_elem_of_fmap. split.
  - intros (r & -> & Hr). apply list_elem_of_filter in Hr as [Hid Hr].
    split; [done |]. exists r. by split.
  - intros [-> (r & Hid & Hr)]. exists r. split; [done |].
    apply list_elem_of_filter. by split.
Qed.

(** C8, as the code has it: on tables whose foreign keys carry the
    [ON DELETE CASCADE] of [schemaSQL], [DeleteNode] issues the single
    node delete and the storage layer removes with the node every edge row
    that has it as source or target, and only those; afterwards no edge
    row references the node. *)
Theorem DeleteNode_cascades nodeID w :
  edge_fk (db w) = OnDeleteCascade → fk_ok (db w) →
  ∃ w',
    DeleteNode nodeID w = (Ok tt, w') ∧
    log w' = log w ++ [DeleteNodeById nodeID] ∧
    (nodeID ∉ node_ids (db w')) ∧
    (∀ r, r ∈ dag_edges (db w') →
          EdgeRow.from_node_id r ≠ nodeID ∧ EdgeRow.to_node_id r ≠ nodeID) ∧
    (∀ r, r ∈ dag_edges (db w) →
          EdgeRow.from_node_id r ≠ nodeID → EdgeRow.to_node_id r ≠ nodeID →
          r ∈ dag_edges (db w')).
Proof.
  intros Hfk Hok.
  unfold DeleteNode, mbind, M_bind, pool_exec, run_stmt, delete_nodes.
  rewrite Hfk. simpl. eexists. split; [reflexivity |]. simpl.
  split; [done |]. split; [| split].
  - unfold node_ids. simpl. intros Hin.
    apply list_elem_of_fmap in Hin as (r & Hid & Hr).
    apply list_elem_of_filter in Hr as [Hne _]. by apply Hne.
  - intros r Hr. apply list_elem_of_filter in Hr as [Hnr Hr].
    destruct (Hok r Hr) as [Hf Ht].
    split; intros Heq; apply Hnr; [left | right]; apply gone_ids_by_id;
      (split; [done | congruence]).
  - intros r Hr Hf Ht. apply list_elem_of_filter. split; [| done].
    intros [Hin | Hin]; apply gone_ids_by_id in Hin as [Heq _]; done.
Qed.

Lemma chain_db_fk_ok fk : fk_ok (chain_db fk).
Proof.
  intros r Hr. simpl in Hr.
  repeat (apply elem_of_cons in Hr as [-> | Hr];
          [split; apply list_elem_of_In; simpl; auto |]).
  by apply elem_of_nil in Hr.
Qed.

Lemma DeleteNode_cascades_witness :
  ∃ w',
    DeleteNode "q2" (world0 (chain_db OnDeleteCascade)) = (Ok tt, w') ∧
    log w' = [DeleteNodeById "q2"] ∧
    ("q2" ∉ node_ids (db w')) ∧
    (∀ r, r ∈ dag_edges (db w') →
          EdgeRow.from_node_id r ≠ "q2" ∧ EdgeRow.to_node_id r ≠ "q2") ∧
    (∀ r, r ∈ dag_edges (chain_db OnDeleteCascade) →
          EdgeRow.from_node_id r ≠ "q2" → EdgeRow.to_node_id r ≠ "q2" →
          r ∈ dag_edges (db w')).
Proof.
  apply (DeleteNode_cascades "q2" (world0 (chain_db OnDeleteCascade)));
    [reflexivity | apply chain_db_fk_ok].
Defined.

(** C8 as stated fails: on tables whose foreign keys do not cascade,
    [DeleteNode] still issues nothing but the node delete; the storage
    layer rejects it and the edges of the node stay. *)
Lemma DeleteNode_leaves_edges_without_cascade :
  ¬ (∀ r w',
       DeleteNode "q2" (world0 (chain_db OnDeleteNoAction)) = (r, w') →
       ∀ e, e ∈ dag_edges (db w') →
            EdgeRow.from_node_id e ≠ "q2" ∧ EdgeRow.to_node_id e ≠ "q2").
Proof.
  intros H.
  destruct (H (Fail (ErrDb "dag: delete node"))
              (mkWorld (chain_db OnDeleteNoAction) None [DeleteNodeById "q2"] O)
              ltac:(vm_compute; reflexivity)
              (EdgeRow.mk "e1" "g" "q1" "q2" "{}")) as [_ Hto].
  - left.
  - by apply Hto.
Qed.

Lemma update_edge_Some from to data id t t' n :
  update_edge from to data id t = Some (t', n) →
  (t' = t ∧ n = O) ∨
  ∃ text, data = Jsonb text ∧
          update_edge_rows from to text id t = Some (t', n).
Proof.
  unfold update_edge. destruct data as [| | text]; [| done |].
  - case_decide; [| done]. intros Heq. injection Heq as <- <-. by left.
  - intros Heq. right. by exists text.
Qed.

(** Every statement keeps the referential integrity of the edge table. *)
Lemma run_stmt_fk_ok s t t' n :
  fk_ok t → run_stmt s t = Some (t', n) → fk_ok t'.
Proof.
  assert (∀ (P : NodeRow.t → Prop) `{∀ r, Decision (P r)} t t',
            fk_ok t → delete_nodes P t = Some t' → fk_ok t') as Hdel.
  { intros P HP u u' Hok Hd. unfold delete_nodes in Hd.
    assert (∀ x, x ∈ node_ids u →
                 x ∉ NodeRow.id <$> filter P (dag_nodes u) →
                 x ∈ NodeRow.id <$> filter (λ r, ¬ P r) (dag_nodes u)) as Hkept.
    { intros x Hx Hng. apply list_elem_of_fmap in Hx as (r & -> & Hr).
      apply list_elem_of_fmap. exists r. split; [done |].
      apply list_elem_of_filter. split; [| done]. intros HPr. apply Hng.
      apply list_elem_of_fmap. exists r. split; [done |].
      apply list_elem_of_filter. by split. }
    destruct (edge_fk u).
    - injection Hd as <-. intros r Hr. unfold node_ids. simpl in *.
      apply list_elem_of_filter in Hr as [Hnr Hr]. destruct (Hok r Hr) as [Hf Ht].
      split; apply Hkept; try done; intros Hg; apply Hnr; [by left | by right].
    - case_decide as Hex; [done |]. injection Hd as <-.
      intros r Hr. unfold node_ids. simpl in *. destruct (Hok r Hr) as [Hf Ht].
      split; apply Hkept; try done; intros Hg; apply Hex, Exists_exists;
        exists r; (split; [done |]); [by left | by right]. }
  intros Hok Hs. destruct s; simpl in Hs; try (injection Hs as <- <-; done).
  - destruct (insert_node _ _ _ t) as [u |] eqn:E; [| done].
    injection Hs as <- <-. apply insert_node_Some in E as (text & _ & _ & ->).
    intros e He. unfold node_ids. simpl in *. destruct (Hok e He) as [Hf Ht].
    rewrite fmap_app, !elem_of_app. auto.
  - destruct (insert_edge _ _ _ _ _ t) as [u |] eqn:E; [| done].
    injection Hs as <- <-.
    apply insert_edge_Some in E as (text & _ & (_ & Hf & Ht) & ->).
    intros e He. unfold node_ids. simpl in *.
    apply elem_of_app in He as [He | He]; [by apply Hok |].
    apply list_elem_of_singleton in He as ->. done.
  - injection Hs as <- <-. intros e He. simpl in He.
    apply list_elem_of_filter in He as [_ He]. by apply Hok.
  - destruct (delete_nodes _ t) as [u |] eqn:E; [| done].
    injection Hs as <- <-. by eapply Hdel.
  - destruct (delete_nodes _ t) as [u |] eqn:E; [| done].
    injection Hs as <- <-. by eapply Hdel.
  - apply update_edge_Some in Hs as [[-> _] | (text & _ & Hs)]; [done |].
    unfold update_edge_rows in Hs. repeat case_decide; try done.
    + by injection Hs as <- <-.
    + injection Hs as <- <-. intros e He. unfold node_ids. simpl in *.
      apply list_elem_of_fmap in He as (e0 & -> & He0). case_decide.
      * done.
      * by apply Hok.
Qed.

Lemma has_cycle_app_ext edges edges' es es' :
  (∀ a b, edge_rel edges a b ↔ edge_rel edges' a b) →
  (∀ a b, edge_rel es a b ↔ edge_rel es' a b) →
  has_cycle (edges ++ es) ↔ has_cycle (edges' ++ es').
Proof.
  intros H1 H2. apply has_cycle_ext. intros a b.
  by rewrite !edge_rel_app, H1, H2.
Qed.

Lemma edge_rel_same_endpoints e e' a b :
  Edge.FromNodeID e' = Edge.FromNodeID e →
  Edge.ToNodeID e' = Edge.ToNodeID e →
  edge_rel [e'] a b ↔ edge_rel [e] a b.
Proof.
  intros Hf Ht. unfold edge_rel. split; intros (x & Hx & Ha & Hb);
    apply list_elem_of_singleton in Hx as ->.
  - exists e. split; [apply list_elem_of_singleton; done | split; congruence].
  - exists e'. split; [apply list_elem_of_singleton; done | split; congruence].
Qed.

(** A successful [AddEdge] appends the edge to the persisted edges of the
    graph, and these are acyclic. *)
Lemma AddEdge_ok_persisted env dagID edge w id w' :
  range_ok (range env) →
  AddEdge env dagID edge w = (Ok id, w') →
  ¬ has_cycle (persisted_edges dagID w ++ [edge]) ∧
  ∃ e', Edge.FromNodeID e' = Edge.FromNodeID edge ∧
        Edge.ToNodeID e' = Edge.ToNodeID edge ∧
        persisted_edges dagID w' = persisted_edges dagID w ++ [e'].
Proof.
  intros Hr Hrun.
  destruct (AddEdge_run env dagID edge w Hr)
    as (r & w2 & Hrun' & _ & Hcase).
  rewrite Hrun in Hrun'. injection Hrun' as <- <-.
  destruct Hcase as [(_ & Hbad & _) | (Hn & Hins)]; [done |].
  split; [done |].
  destruct (insert_edge_of env dagID _ (db w)) as [t |] eqn:E;
    [| by destruct Hins].
  destruct Hins as [_ Hdb]. apply insert_edge_persisted in E as [He _].
  eexists. split; [| split; [| unfold persisted_edges; rewrite Hdb; exact He]];
    done.
Qed.

(** C9, as the code has it: [AddEdge] takes no lock and opens no
    transaction, so what it guarantees is for calls that run one after the
    other.  Then every successful call leaves the persisted edges of the
    graph acyclic, and of two calls whose edges together with the
    persisted ones contain a cycle at most one succeeds. *)
Theorem AddEdge_sequential_acyclic env dagID e1 e2 w r1 w1 r2 w2 :
  range_ok (range env) →
  AddEdge env dagID e1 w = (r1, w1) →
  AddEdge env dagID e2 w1 = (r2, w2) →
  (is_Ok r1 → ¬ has_cycle (persisted_edges dagID w1)) ∧
  (is_Ok r2 → ¬ has_cycle (persisted_edges dagID w2)) ∧
  (has_cycle (persisted_edges dagID w ++ [e1; e2]) →
   ¬ (is_Ok r1 ∧ is_Ok r2)).
Proof.
  intros Hr H1 H2.
  assert (∀ e u r u', AddEdge env dagID e u = (r, u') → is_Ok r →
                      ¬ has_cycle (persisted_edges dagID u')) as Hkeep.
  { intros e u r u' Hrun Hok. destruct r as [id | |]; try done.
    destruct (AddEdge_ok_persisted env dagID e u id u' Hr Hrun)
      as (Hn & e' & Hf & Ht & ->).
    intros Hc. apply Hn. by eapply has_cycle_same_endpoints; [| | exact Hc]. }
  split; [by eapply Hkeep |]. split; [by eapply Hkeep |].
  intros Hc [Hok1 Hok2].
  destruct r1 as [id1 | |]; try done. destruct r2 as [id2 | |]; try done.
  destruct (AddEdge_ok_persisted env dagID e1 w id1 w1 Hr H1)
    as (_ & e1' & Hf1 & Ht1 & Hp1).
  destruct (AddEdge_ok_persisted env dagID e2 w1 id2 w2 Hr H2) as (Hn2 & _).
  apply Hn2. rewrite Hp1, <- app_assoc. simpl.
  eapply has_cycle_app_ext; [| | exact Hc]; [done |].
  intros a b. change [e1'; e2] with ([e1'] ++ [e2]).
  change [e1; e2] with ([e1] ++ [e2]). rewrite !edge_rel_app.
  by rewrite (edge_rel_same_endpoints e1 e1' a b Hf1 Ht1).
Qed.

Lemma AddEdge_sequential_acyclic_witness :
  ∃ r1 w1 r2 w2,
    AddEdge env0 "g" (plain_edge "" "q2" "q3") (world0 short_db) = (r1, w1) ∧
    AddEdge env0 "g" (plain_edge "" "q3" "q1") w1 = (r2, w2) ∧
    (is_Ok r1 → ¬ has_cycle (persisted_edges "g" w1)) ∧
    ¬ (is_Ok r1 ∧ is_Ok r2).
Proof.
  eexists _, _, _, _. split; [vm_compute; reflexivity |].
  split; [vm_compute; reflexivity |].
  match goal with
  | |- (is_Ok ?r1 → ¬ has_cycle (persisted_edges _ ?w1)) ∧
       ¬ (is_Ok _ ∧ is_Ok ?r2) =>
      destruct (AddEdge_sequential_acyclic env0 "g" (plain_edge "" "q2" "q3")
                  (plain_edge "" "q3" "q1") (world0 short_db) r1 w1 r2 _
                  range_sorted_ok
                  ltac:(vm_compute; reflexivity)
                  ltac:(vm_compute; reflexivity)) as (H1 & _ & H3)
  end.
  split; [exact H1 |]. apply H3. exists "q1".
  eapply tc_l; [eapply (edge_rel_at _ 0); reflexivity |].
  eapply tc_l; [eapply (edge_rel_at _ 1); reflexivity |].
  apply tc_once. eapply (edge_rel_at _ 2); reflexivity.
Defined.

(** C9 as stated fails: with [q1 → q2] persisted, the calls adding
    [q2 → q3] and [q3 → q1] each succeed alone, and when their statements
    interleave (both load, then both insert) both succeed and the
    persisted edges contain the cycle [q1 → q2 → q3 → q1]. *)
Lemma AddEdge_interleaved_persists_cycle :
  ¬ (is_Ok (AddEdge env0 "g" (plain_edge "" "q2" "q3") (world0 short_db)).1 →
     is_Ok (AddEdge env0 "g" (plain_edge "" "q3" "q1") (world0 short_db)).1 →
     ∀ r1 r2 w',
       AddEdge_interleaved env0 "g" (plain_edge "" "q2" "q3")
                           (plain_edge "" "q3" "q1") (world0 short_db)
       = (r1, r2, w') →
       ¬ (is_Ok r1 ∧ is_Ok r2) ∨ ¬ has_cycle (persisted_edges "g" w')).
Proof.
  intros H.
  destruct (H ltac:(vm_compute; exact I) ltac:(vm_compute; exact I) _ _ _
              ltac:(vm_compute; reflexivity)) as [Hboth | Hcyc].
  - apply Hboth. split; exact I.
  - apply Hcyc. exists "q1".
    eapply tc_l; [eapply (edge_rel_at _ 0); reflexivity |].
    eapply tc_l; [eapply (edge_rel_at _ 1); reflexivity |].
    apply tc_once. eapply (edge_rel_at _ 2); reflexivity.
Qed.





(** ** Further properties: the validator *)

Lemma tc_mono {A} (R S : relation A) :
  (∀ x y, R x y → S x y) → ∀ x y, tc R x y → tc S x y.
Proof.
  intros H x y Ht. induction Ht.
  - apply tc_once. by apply H.
  - eapply tc_l; [by apply H | done].
Qed.

Lemma edge_rel_endpoints edges a b :
  edge_rel edges a b ↔ (a, b) ∈ endpoints <$> edges.
Proof.
  unfold edge_rel, endpoints. rewrite list_elem_of_fmap. split.
  - intros (e & He & <- & <-). by exists e.
  - intros (e & Heq & He). injection Heq as -> ->. by exists e.
Qed.

Lemma has_cycle_endpoints edges edges' :
  endpoints <$> edges = endpoints <$> edges' →
  has_cycle edges ↔ has_cycle edges'.
Proof.
  intros H. apply has_cycle_ext. intros a b.
  by rewrite !edge_rel_endpoints, H.
Qed.

(** X1: the verdict of [validateAcyclic] is a matter of the endpoint pairs
    alone.  If it accepts an edge list, it accepts, for any node list and
    any iteration order, every edge list whose endpoint pairs all occur in
    the first: fewer edges, the same edges in another order, or with
    repetitions. *)
Theorem validateAcyclic_subgraph range1 range2 nodes nodes' edges edges' :
  range_ok range1 → range_ok range2 →
  (∀ a b, edge_rel edges' a b → edge_rel edges a b) →
  validateAcyclic range1 nodes edges = Ok tt →
  validateAcyclic range2 nodes' edges' = Ok tt.
Proof.
  intros H1 H2 Hsub Hok.
  apply validateAcyclic_ok_iff in Hok; [| done].
  apply validateAcyclic_ok_iff; [done |].
  intros [c Hc]. apply Hok. exists c. by eapply tc_mono.
Qed.

Lemma validateAcyclic_subgraph_witness :
  validateAcyclic range_sorted [plain_node "q9"]
    [plain_edge "b" "q2" "q3"; plain_edge "a" "q1" "q2";
     plain_edge "c" "q1" "q2"]
  = Ok tt.
Proof.
  apply (validateAcyclic_subgraph range_sorted range_sorted [] [plain_node "q9"]
           [plain_edge "e1" "q1" "q2"; plain_edge "e2" "q2" "q3"]
           [plain_edge "b" "q2" "q3"; plain_edge "a" "q1" "q2";
            plain_edge "c" "q1" "q2"]
           range_sorted_ok range_sorted_ok).
  - intros a b (e & He & <- & <-).
    repeat (apply elem_of_cons in He as [-> | He]);
      [eapply (edge_rel_at _ 1); reflexivity
      | eapply (edge_rel_at _ 0); reflexivity
      | eapply (edge_rel_at _ 0); reflexivity
      | by apply elem_of_nil in He].
  - vm_compute. reflexivity.
Defined.

(** ** Further properties: [CreateDAG] *)

Lemma endpoints_clear e : endpoints (clear_edge_refs e) = endpoints e.
Proof. done. Qed.

Lemma has_cycle_clear edges :
  has_cycle (clear_edge_refs <$> edges) ↔ has_cycle edges.
Proof.
  apply has_cycle_endpoints. rewrite <- list_fmap_compose.
  apply list_fmap_ext. intros i e _. done.
Qed.

Lemma has_cycle_read env edges :
  has_cycle (edge_read env <$> edges) ↔ has_cycle edges.
Proof.
  apply has_cycle_endpoints. rewrite <- list_fmap_compose.
  apply list_fmap_ext. intros i e _. done.
Qed.

(** X2: the graph a successful [CreateDAG] returns has no directed cycle,
    and neither have the edges persisted for its graph id. *)
Theorem CreateDAG_ok_acyclic env d w d' w' :
  range_ok (range env) →
  CreateDAG env d w = (Ok d', w') →
  ¬ has_cycle (DAG.Edges d') ∧
  ¬ has_cycle (persisted_edges (DAG.ID d) w').
Proof.
  intros Hr Hrun. apply CreateDAG_ok_inv in Hrun
    as (nodes & refMap & edges & _ & _ & _ & -> & Hv & _ & Hbody).
  apply validateAcyclic_ok_iff in Hv; [| done].
  apply tx_body_graph in Hbody as [_ He]. unfold persisted_edges.
  rewrite He. simpl. by rewrite has_cycle_clear, has_cycle_read.
Qed.

Lemma CreateDAG_ok_acyclic_witness :
  ∃ d' w',
    CreateDAG env0 ref_dag (world0 schemaSQL) = (Ok d', w') ∧
    ¬ has_cycle (DAG.Edges d') ∧ ¬ has_cycle (persisted_edges "g" w').
Proof.
  eexists _, _. split; [vm_compute; reflexivity |].
  apply (CreateDAG_ok_acyclic env0 ref_dag (world0 schemaSQL));
    [apply range_sorted_ok | vm_compute; reflexivity].
Defined.

Lemma resolved_ref_free env refMap edges edges' :
  Forall ref_free edges →
  Forall2 (edge_resolved env refMap) edges edges' →
  endpoints <$> edges' = endpoints <$> edges.
Proof.
  intros Hfree Hres. induction Hres as [| e e' l l' He Hl IH]; [done |].
  apply Forall_cons in Hfree as [[Hf Ht] Hfree]. rewrite !fmap_cons.
  rewrite (IH Hfree). f_equal.
  destruct He as (_ & _ & _ & _ & _ & [[_ Hfrom] | [Hbad _]] & [[_ Hto] | [Hbad' _]]);
    try done.
  unfold endpoints. simpl in *. congruence.
Qed.

(** X3: a cycle is reported before the database is touched.  Whenever
    [CreateDAG] returns the cycle-detected error the tables, the
    transaction state and the statement log are as before the call; and it
    does return that error when the edges of the input, none of them using
    a ref, contain a directed cycle. *)
Theorem CreateDAG_cycle_before_any_statement env d w :
  range_ok (range env) →
  (∀ w', CreateDAG env d w = (Fail ErrCycleDetected, w') → same_store w w') ∧
  (Forall ref_free (DAG.Edges d) → has_cycle (DAG.Edges d) →
   ∃ w', CreateDAG env d w = (Fail ErrCycleDetected, w')).
Proof.
  intros Hr. split.
  - intros w' Hrun. apply CreateDAG_phases in Hrun
      as (nodes & refMap & _ & _ & [(s & e & Heq & _) | (edges & _ & Hcase)]);
      [done |].
    destruct Hcase as [(_ & _ & Hs) | [(_ & Hbad & _) | (_ & _ & Hbody)]];
      [done | done |].
    destruct (tx_body _ _ _ _); [by destruct Hbody | by destruct Hbody as [[? ?] _]].
  - intros Hfree Hcyc. destruct (CreateDAG env d w) as [r w'] eqn:Hrun.
    exists w'. f_equal. apply CreateDAG_phases in Hrun
      as (nodes & refMap & _ & _ &
          [(s & e & _ & He & Hne & _) | (edges & Hres & Hcase)]).
    + exfalso. rewrite Forall_forall in Hfree.
      destruct (Hfree e He) as [Hf Ht]. by destruct s.
    + assert (has_cycle edges) as Hc.
      { eapply has_cycle_endpoints; [| exact Hcyc].
        by eapply resolved_ref_free. }
      destruct Hcase as [(_ & -> & _) | [(Hv & _) | (Hv & _)]]; [done | |].
      * apply (validateAcyclic_fail_iff (range env) nodes edges Hr) in Hc.
        congruence.
      * apply (validateAcyclic_fail_iff (range env) nodes edges Hr) in Hc.
        congruence.
Qed.

Lemma CreateDAG_cycle_before_any_statement_witness :
  ∃ w',
    CreateDAG env0
      (DAG.mk "g" [plain_node "q1"] [plain_edge "e" "q1" "q1"])
      (world0 schemaSQL)
    = (Fail ErrCycleDetected, w') ∧
    same_store (world0 schemaSQL) w'.
Proof.
  destruct (CreateDAG_cycle_before_any_statement env0
              (DAG.mk "g" [plain_node "q1"] [plain_edge "e" "q1" "q1"])
              (world0 schemaSQL) range_sorted_ok) as [Hsame Hfail].
  destruct Hfail as [w' Hw'].
  - repeat constructor.
  - exists "q1". apply tc_once. eapply (edge_rel_at _ 0); reflexivity.
  - exists w'. split; [exact Hw' | exact (Hsame w' Hw')].
Defined.

Lemma assign_nodes_identified env nodes :
  Forall node_identified nodes →
  ∀ refMap w, assign_nodes env nodes refMap w = (Ok (nodes, refMap), w).
Proof.
  induction 1 as [| n rest [Hid Href] Hrest IH]; intros refMap w; [done |].
  simpl. unfold id_or_new, mbind, M_bind.
  rewrite decide_False by done. simpl. rewrite decide_True by done.
  rewrite IH. by destruct n.
Qed.

Lemma resolve_edges_identified env refMap edges :
  Forall edge_identified edges →
  ∀ w, resolve_edges env refMap edges w = (Ok edges, w).
Proof.
  induction 1 as [| e rest (Hid & Hf & Ht) Hrest IH]; intros w; [done |].
  simpl. unfold id_or_new, resolve_ref, mbind, M_bind.
  rewrite decide_False by done. simpl.
  rewrite !decide_True by done. simpl. rewrite IH.
  destruct e; simpl in *. by subst.
Qed.

Lemma clear_identified_nodes nodes :
  Forall node_identified nodes → clear_node_ref <$> nodes = nodes.
Proof.
  induction 1 as [| n rest [_ Href] _ IH]; [done |].
  rewrite fmap_cons, IH. f_equal. destruct n; simpl in *. by subst.
Qed.

Lemma clear_identified_edges edges :
  Forall edge_identified edges → clear_edge_refs <$> edges = edges.
Proof.
  induction 1 as [| e rest (_ & Hf & Ht) _ IH]; [done |].
  rewrite fmap_cons, IH. f_equal. destruct e; simpl in *. by subst.
Qed.

(** X4: when every node of the input carries an id and no ref, and every
    edge carries an id and no ref, a successful [CreateDAG] returns the
    input as it is and draws no identifier from the generator. *)
Theorem CreateDAG_identified_identity env d w d' w' :
  Forall node_identified (DAG.Nodes d) →
  Forall edge_identified (DAG.Edges d) →
  CreateDAG env d w = (Ok d', w') →
  d' = d ∧ uuids w' = uuids w.
Proof.
  intros Hn He Hrun. unfold CreateDAG, mbind, M_bind, lift in Hrun.
  rewrite assign_nodes_identified, resolve_edges_identified in Hrun by done.
  destruct (validateAcyclic _ _ _) as [[] | |]; [| done | done].
  destruct (persist_spec env (DAG.ID d) (DAG.Nodes d) (DAG.Edges d) w)
    as (rp & w2 & Hp & _ & Hu & _).
  rewrite Hp in Hrun. destruct rp as [[] | |]; [| done | done].
  injection Hrun as <- <-. split; [| done].
  rewrite clear_identified_nodes, clear_identified_edges by done.
  by destruct d.
Qed.

Lemma CreateDAG_identified_identity_witness :
  ∃ w',
    CreateDAG env0
      (DAG.mk "g" [plain_node "q1"; plain_node "q2"]
              [plain_edge "e1" "q1" "q2"])
      (world0 schemaSQL)
    = (Ok (DAG.mk "g" [plain_node "q1"; plain_node "q2"]
                  [plain_edge "e1" "q1" "q2"]), w') ∧
    uuids w' = O.
Proof.
  eexists. split; [vm_compute; reflexivity |].
  eapply (CreateDAG_identified_identity env0
            (DAG.mk "g" [plain_node "q1"; plain_node "q2"]
                    [plain_edge "e1" "q1" "q2"])
            (world0 schemaSQL));
    [repeat constructor; done | repeat constructor; done
     | vm_compute; reflexivity].
Defined.

Lemma insert_all_nodes_fresh env dagID nodes :
  ∀ t t', insert_all (insert_node_of env dagID) nodes t = Some t' →
          NoDup (Node.ID <$> nodes) ∧
          ∀ n, n ∈ nodes → Node.ID n ∉ node_ids t.
Proof.
  induction nodes as [| n rest IH]; intros t t' H; simpl in H.
  - split; [constructor |]. intros n Hn. by apply elem_of_nil in Hn.
  - destruct (insert_node_of env dagID n t) as [t1 |] eqn:E; [| done].
    apply insert_node_of_Some in E as (_ & Hfresh & ->).
    destruct (IH _ _ H) as [Hnd Hrest].
    assert (∀ m, m ∈ rest → (Node.ID m ∉ node_ids t) ∧ Node.ID m ≠ Node.ID n)
      as Hsplit.
    { intros m Hm. specialize (Hrest m Hm). unfold node_ids in *. simpl in Hrest.
      rewrite fmap_app, elem_of_app in Hrest. simpl in Hrest.
      rewrite list_elem_of_singleton in Hrest. split; intros ?; apply Hrest; auto. }
    split.
    + rewrite fmap_cons. constructor; [| done].
      intros Hin. apply list_elem_of_fmap in Hin as (m & Heq & Hm).
      destruct (Hsplit m Hm) as [_ Hne]. congruence.
    + intros m Hm. apply elem_of_cons in Hm as [-> | Hm]; [done |].
      by apply Hsplit.
Qed.

Lemma insert_all_edges_checked env dagID edges :
  ∀ t t', insert_all (insert_edge_of env dagID) edges t = Some t' →
          NoDup (Edge.ID <$> edges) ∧
          ∀ e, e ∈ edges →
               (Edge.ID e ∉ edge_ids t) ∧
               Edge.FromNodeID e ∈ node_ids t ∧ Edge.ToNodeID e ∈ node_ids t.
Proof.
  induction edges as [| e rest IH]; intros t t' H; simpl in H.
  - split; [constructor |]. intros e He. by apply elem_of_nil in He.
  - destruct (insert_edge_of env dagID e t) as [t1 |] eqn:E; [| done].
    apply insert_edge_of_Some in E as (_ & (Hfresh & Hf & Ht) & ->).
    destruct (IH _ _ H) as [Hnd Hrest].
    assert (∀ m, m ∈ rest →
                 ((Edge.ID m ∉ edge_ids t) ∧ Edge.ID m ≠ Edge.ID e) ∧
                 Edge.FromNodeID m ∈ node_ids t ∧ Edge.ToNodeID m ∈ node_ids t)
      as Hsplit.
    { intros m Hm. destruct (Hrest m Hm) as (Hid & Hmf & Hmt).
      unfold node_ids, edge_ids in *. simpl in *.
      rewrite fmap_app, elem_of_app in Hid. simpl in Hid.
      rewrite list_elem_of_singleton in Hid.
      split; [split; intros ?; apply Hid; auto | done]. }
    split.
    + rewrite fmap_cons. constructor; [| done].
      intros Hin. apply list_elem_of_fmap in Hin as (m & Heq & Hm).
      destruct (Hsplit m Hm) as [[_ Hne] _]. congruence.
    + intros m Hm. apply elem_of_cons in Hm as [-> | Hm]; [done |].
      destruct (Hsplit m Hm) as [[Hid _] Hends]. done.
Qed.

(** X5: what the constraints of the schema make of a successful
    [CreateDAG]: the returned nodes have pairwise distinct ids, so have the
    returned edges, and both endpoints of every returned edge are ids of
    node rows in the committed table (of whatever graph). *)
Theorem CreateDAG_ok_constraints env d w d' w' :
  CreateDAG env d w = (Ok d', w') →
  NoDup (Node.ID <$> DAG.Nodes d') ∧
  NoDup (Edge.ID <$> DAG.Edges d') ∧
  ∀ e, e ∈ DAG.Edges d' →
       Edge.FromNodeID e ∈ node_ids (db w') ∧
       Edge.ToNodeID e ∈ node_ids (db w').
Proof.
  intros Hrun. apply CreateDAG_ok_inv in Hrun
    as (nodes & refMap & edges & _ & _ & _ & -> & _ & _ & Hbody).
  unfold tx_body in Hbody.
  destruct (delete_nodes _ _) as [t1 |]; [| done].
  destruct (insert_all _ nodes t1) as [t2 |] eqn:E2; [| done].
  destruct (insert_all_nodes_fresh _ _ _ _ _ E2) as [Hn _].
  destruct (insert_all_edges_checked _ _ _ _ _ Hbody) as [He Hends].
  apply insert_all_edges in Hbody as (_ & Hnodes & _).
  simpl. rewrite <- !list_fmap_compose. split; [done |]. split; [done |].
  intros e Hin. apply list_elem_of_fmap in Hin as (e0 & -> & He0).
  destruct (Hends e0 He0) as (_ & Hf & Ht). unfold node_ids in *.
  rewrite Hnodes. done.
Qed.

Lemma CreateDAG_ok_constraints_witness :
  ∃ d' w',
    CreateDAG env0 ref_dag (world0 schemaSQL) = (Ok d', w') ∧
    NoDup (Node.ID <$> DAG.Nodes d').
Proof.
  eexists _, _. split; [vm_compute; reflexivity |].
  eapply (CreateDAG_ok_constraints env0 ref_dag (world0 schemaSQL)).
  vm_compute; reflexivity.
Defined.

(** ** Further properties: whole graphs *)

Lemma delete_nodes_spec (P : NodeRow.t → Prop) `{∀ r, Decision (P r)} t t1 :
  delete_nodes P t = Some t1 →
  edge_fk t1 = edge_fk t ∧
  dag_nodes t1 = filter (λ r, ¬ P r) (dag_nodes t) ∧
  dag_edges t1
  = filter (λ r, ¬ references (NodeRow.id <$> filter P (dag_nodes t)) r)
           (dag_edges t).
Proof.
  unfold delete_nodes. intros Hd. destruct (edge_fk t) eqn:Hfk.
  - injection Hd as <-. done.
  - case_decide as Hex; [done |]. injection Hd as <-. simpl.
    split; [done |]. split; [done |].
    symmetry. apply filter_all. intros r Hr Href. apply Hex.
    apply Exists_exists. by exists r.
Qed.

Lemma filter_filter_implied {A} (P Q : A → Prop)
    `{∀ x, Decision (P x)} `{∀ x, Decision (Q x)} (l : list A) :
  (∀ x, P x → Q x) → filter P (filter Q l) = filter P l.
Proof.
  intros HPQ. induction l as [| x l IH]; [done |].
  rewrite !filter_cons. destruct (decide (Q x)) as [HQ | HQ].
  - rewrite filter_cons. destruct (decide (P x)); by rewrite IH.
  - rewrite IH. destruct (decide (P x)) as [HP | HP]; [| done].
    by destruct (HQ (HPQ x HP)).
Qed.

Lemma filter_comm {A} (P Q : A → Prop)
    `{∀ x, Decision (P x)} `{∀ x, Decision (Q x)} (l : list A) :
  filter P (filter Q l) = filter Q (filter P l).
Proof.
  induction l as [| x l IH]; [done |].
  rewrite !filter_cons.
  destruct (decide (Q x)), (decide (P x)); rewrite ?filter_cons;
    repeat case_decide; try done; by rewrite IH.
Qed.

(** The tables a committed [CreateDAG] transaction leaves, row by row. *)
Lemma tx_body_tables env dagID nodes edges t t' :
  tx_body env dagID nodes edges t = Some t' →
  dag_nodes t'
  = filter (λ r, NodeRow.dag_id r ≠ dagID) (dag_nodes t)
      ++ (node_row env dagID <$> nodes) ∧
  dag_edges t'
  = filter (λ r, ¬ references (dag_node_ids dagID t) r)
           (filter (λ r, EdgeRow.dag_id r ≠ dagID) (dag_edges t))
      ++ (edge_row env dagID <$> edges).
Proof.
  unfold tx_body. intros H.
  destruct (delete_nodes _ _) as [t1 |] eqn:E1; [| done].
  destruct (insert_all _ nodes t1) as [t2 |] eqn:E2; [| done].
  apply delete_nodes_spec in E1 as (_ & Hn1 & He1).
  apply insert_all_nodes in E2 as (_ & Hn2 & He2).
  apply insert_all_edges in H as (_ & Hn3 & He3).
  simpl in Hn1, He1. unfold dag_node_ids.
  rewrite Hn3, Hn2, Hn1, He3, He2, He1. done.
Qed.

(** X6: a successful [CreateDAG] leaves the nodes of every other graph as
    they were; of the edges of another graph it removes exactly those that
    had a node of the replaced graph as an endpoint, and keeps the rest in
    their order. *)
Theorem CreateDAG_other_graphs env d w d' w' g :
  CreateDAG env d w = (Ok d', w') → g ≠ DAG.ID d →
  persisted_nodes g w' = persisted_nodes g w ∧
  persisted_edges g w'
  = edge_of_row <$>
      filter (λ r, ¬ references (dag_node_ids (DAG.ID d) (db w)) r)
             (filter (λ r, EdgeRow.dag_id r = g) (dag_edges (db w))).
Proof.
  intros Hrun Hg. apply CreateDAG_ok_inv in Hrun
    as (nodes & refMap & edges & _ & _ & _ & _ & _ & _ & Hbody).
  apply tx_body_tables in Hbody as [Hn He].
  unfold persisted_nodes, persisted_edges, graph_nodes,
    graph_edges.
  rewrite Hn, He, !filter_app. split.
  - rewrite (filter_none _ (node_row env (DAG.ID d) <$> nodes)).
    + rewrite app_nil_r. f_equal. apply filter_filter_implied.
      intros r Hr. congruence.
    + intros r Hr Heq. apply list_elem_of_fmap in Hr as (n & -> & _).
      simpl in Heq. congruence.
  - rewrite (filter_none _ (edge_row env (DAG.ID d) <$> edges)).
    + rewrite app_nil_r. f_equal. rewrite filter_comm. f_equal.
      apply filter_filter_implied. intros r Hr. congruence.
    + intros r Hr Heq. apply list_elem_of_fmap in Hr as (e & -> & _).
      simpl in Heq. congruence.
Qed.

Lemma CreateDAG_other_graphs_witness :
  ∃ d' w',
    CreateDAG env0 (DAG.mk "h" [plain_node "p1"] [])
              (world0 (chain_db OnDeleteCascade)) = (Ok d', w') ∧
    persisted_nodes "g" w' = persisted_nodes "g" (world0 (chain_db OnDeleteCascade)).
Proof.
  eexists _, _. split; [vm_compute; reflexivity |].
  eapply (CreateDAG_other_graphs env0 (DAG.mk "h" [plain_node "p1"] [])
            (world0 (chain_db OnDeleteCascade)));
    [vm_compute; reflexivity | done].
Defined.

(** [GetDAG] reads the nodes and, when there is one, the edges the tables
    hold for the graph, each list in some order. *)
Lemma GetDAG_run env dagID w :
  ∃ r w', GetDAG env dagID w = (Ok r, w') ∧
          db w' = db w ∧ tx w' = tx w ∧ uuids w' = uuids w ∧
          match persisted_nodes dagID w with
          | [] => r = None
          | _ :: _ =>
              ∃ g, r = Some g ∧ DAG.ID g = dagID ∧
                   DAG.Nodes g ≡ₚ persisted_nodes dagID w ∧
                   DAG.Edges g ≡ₚ persisted_edges dagID w
          end.
Proof.
  unfold GetDAG, mbind, M_bind, pool_query_ordered, pool_query. simpl.
  pose proof (select_nodes_Permutation (rank env (stmt_no w)) dagID (db w))
    as Hp. fold (persisted_nodes dagID w) in Hp.
  destruct (select_nodes_by_dag _ dagID (db w)) as [| n l] eqn:E.
  - eexists _, _. split; [reflexivity |]. simpl.
    split; [done |]. split; [done |]. split; [done |].
    symmetry in Hp. apply Permutation_nil_r in Hp. by rewrite Hp.
  - eexists _, _. split; [reflexivity |]. simpl.
    split; [done |]. split; [done |]. split; [done |].
    destruct (persisted_nodes dagID w) as [| m k] eqn:E'.
    + by apply Permutation_nil_r in Hp.
    + eexists. split; [reflexivity |]. simpl. split; [done |].
      split; [done |]. apply select_edges_Permutation.
Qed.

Lemma GetDAG_none env dagID w :
  persisted_nodes dagID w = [] → (GetDAG env dagID w).1 = Ok None.
Proof.
  intros Hn. destruct (GetDAG_run env dagID w) as (r & w' & -> & _ & _ & _ & Hr).
  rewrite Hn in Hr. by rewrite Hr.
Qed.



Lemma DeleteDAG_spec dagID w :
  ∃ r w', DeleteDAG dagID w = (r, w') ∧ tx w' = None ∧ uuids w' = uuids w ∧
          match delete_nodes (λ r, NodeRow.dag_id r = dagID)
                             (delete_edges_by_dag dagID (db w)) with
          | Some t => r = Ok tt ∧ db w' = t
          | None => (∃ step, r = Fail (ErrDb step)) ∧ db w' = db w
          end.
Proof.
  unfold DeleteDAG, mbind, M_bind, pool_begin, deferring_rollback.
  simpl. unfold tx_exec. simpl.
  destruct (delete_nodes (λ r, NodeRow.dag_id r = dagID)
                         (delete_edges_by_dag dagID (db w))) as [t1 |]; simpl.
  - eexists _, _. split; [reflexivity |]. simpl. done.
  - eexists _, _. split; [reflexivity |]. simpl.
    split; [done |]. split; [done |]. split; [by eexists | done].
Qed.

(** X8: [DeleteDAG] is all or nothing.  When it succeeds the graph has no
    node row and no edge row left, [GetDAG] then returns nothing, and the
    nodes of every other graph are as they were; when it does not succeed
    the committed tables are as they were, the deleted edges included.  No
    transaction stays open. *)
Theorem DeleteDAG_all_or_nothing env dagID w r w' :
  DeleteDAG dagID w = (r, w') →
  tx w' = None ∧
  (is_Ok r →
   persisted_nodes dagID w' = [] ∧ persisted_edges dagID w' = [] ∧
   (GetDAG env dagID w').1 = Ok None ∧
   ∀ g, g ≠ dagID → persisted_nodes g w' = persisted_nodes g w) ∧
  (¬ is_Ok r → db w' = db w).
Proof.
  intros Hrun. destruct (DeleteDAG_spec dagID w) as (r0 & w0 & Hrun0 & Htx & _ & Hd).
  rewrite Hrun in Hrun0. injection Hrun0 as <- <-. split; [done |].
  destruct (delete_nodes _ _) as [t |] eqn:E.
  - destruct Hd as [-> Hdb]. split; [| by intros []]. intros _.
    pose proof (delete_nodes_by_dag_clears _ _ _ E) as [Hn He].
    apply delete_nodes_spec in E as (_ & Hnodes & _).
    assert (persisted_nodes dagID w' = []) as Hpn.
    { unfold persisted_nodes, graph_nodes. rewrite Hdb.
      rewrite filter_none; [done |]. intros x Hx. by apply Hn. }
    split; [done |]. split; [| split].
    + unfold persisted_edges, graph_edges. rewrite Hdb.
      rewrite filter_none; [done |]. intros x Hx. by apply He.
    + by apply GetDAG_none.
    + intros g Hg. unfold persisted_nodes, graph_nodes.
      rewrite Hdb, Hnodes. simpl. f_equal. apply filter_filter_implied.
      intros x Hx. congruence.
  - destruct Hd as [[step ->] Hdb]. split; [by intros [] | done].
Qed.

Lemma DeleteDAG_all_or_nothing_witness :
  ∃ r w',
    DeleteDAG "g" (world0 (chain_db OnDeleteCascade)) = (r, w') ∧
    tx w' = None ∧ persisted_nodes "g" w' = [] ∧ persisted_edges "g" w' = [].
Proof.
  eexists _, _. split; [vm_compute; reflexivity |].
  match goal with
  | |- tx ?w' = None ∧ _ =>
      destruct (DeleteDAG_all_or_nothing env0 "g"
                  (world0 (chain_db OnDeleteCascade))
                  (Ok tt) w' ltac:(vm_compute; reflexivity))
        as (Htx & Hok & _)
  end.
  destruct (Hok I) as (Hn & He & _). done.
Defined.

(** X9: [DeleteDAG] returns without error when the foreign keys cascade,
    and also, whatever the foreign keys, when the graph has no row at all;
    in that case the tables are left as they were. *)
Theorem DeleteDAG_succeeds dagID w :
  (edge_fk (db w) = OnDeleteCascade →
   ∃ w', DeleteDAG dagID w = (Ok tt, w')) ∧
  (persisted_nodes dagID w = [] → persisted_edges dagID w = [] →
   ∃ w', DeleteDAG dagID w = (Ok tt, w') ∧ db w' = db w).
Proof.
  destruct (DeleteDAG_spec dagID w) as (r & w' & Hrun & _ & _ & Hd). split.
  - intros Hfk. exists w'. rewrite Hrun. f_equal.
    unfold delete_nodes in Hd. simpl in Hd. rewrite Hfk in Hd.
    by destruct Hd as [-> _].
  - intros Hn He. exists w'.
    assert (filter (λ r, NodeRow.dag_id r = dagID) (dag_nodes (db w)) = [])
      as Hn0.
    { unfold persisted_nodes, graph_nodes in Hn.
      by apply fmap_nil_inv in Hn. }
    assert (filter (λ r, EdgeRow.dag_id r = dagID) (dag_edges (db w)) = [])
      as He0.
    { unfold persisted_edges, graph_edges in He.
      by apply fmap_nil_inv in He. }
    assert (delete_edges_by_dag dagID (db w) = db w) as Hde.
    { unfold delete_edges_by_dag. rewrite filter_all; [by destruct (db w) |].
      intros x Hx Heq. eapply (filter_nil_not_elem_of _ _ x He0); done. }
    rewrite Hde in Hd. unfold delete_nodes in Hd. rewrite Hn0 in Hd.
    assert (filter (λ r, ¬ NodeRow.dag_id r = dagID) (dag_nodes (db w))
            = dag_nodes (db w)) as Hkeep.
    { apply filter_all. intros x Hx Heq.
      eapply (filter_nil_not_elem_of _ _ x Hn0); done. }
    assert (∀ x : EdgeRow.t, ¬ references (NodeRow.id <$> []) x) as Hnoref.
    { intros x [Hx | Hx]; simpl in Hx; by apply elem_of_nil in Hx. }
    rewrite Hkeep in Hd. destruct (edge_fk (db w)) eqn:Hfk.
    + rewrite filter_all in Hd by (intros x _; apply Hnoref).
      destruct Hd as [-> Hdb]. split; [done |]. rewrite Hdb.
      destruct (db w); simpl in *. by subst.
    + rewrite decide_False in Hd.
      * destruct Hd as [-> Hdb]. split; [done |]. rewrite Hdb.
        destruct (db w); simpl in *. by subst.
      * intros Hex. apply Exists_exists in Hex as (x & _ & Hx).
        by apply (Hnoref x).
Qed.

(** ** Further properties: nodes *)

Lemma id_or_new_chosen env id w :
  ∃ w', id_or_new env id w = (Ok (chosen_id env id w), w') ∧
        same_store w w'.
Proof.
  unfold id_or_new, chosen_id. case_decide.
  - eexists. split; [reflexivity |]. by repeat split.
  - exists w. split; [done | apply same_store_refl].
Qed.

Lemma filter_unique {A B} `{EqDecision B} (f : A → B) (l : list A) (r : A) :
  NoDup (f <$> l) → r ∈ l → filter (λ x, f x = f r) l = [r].
Proof.
  induction l as [| x l IH]; intros Hnd Hr; [by apply elem_of_nil in Hr |].
  rewrite fmap_cons in Hnd. apply NoDup_cons in Hnd as [Hx Hnd].
  rewrite filter_cons. apply elem_of_cons in Hr as [-> | Hr].
  - rewrite decide_True by done. f_equal. apply filter_none.
    intros y Hy Heq. apply Hx. rewrite <- Heq.
    apply list_elem_of_fmap. by exists y.
  - rewrite decide_False; [by apply IH |].
    intros Heq. apply Hx. rewrite Heq. apply list_elem_of_fmap. by exists r.
Qed.

Lemma filter_absent {A B} `{EqDecision B} (f : A → B) (l : list A) (b : B) :
  b ∉ f <$> l → filter (λ x, f x = b) l = [].
Proof.
  intros Hb. apply filter_none. intros x Hx Heq. apply Hb.
  apply list_elem_of_fmap. by exists x.
Qed.

Lemma AddNode_run env dagID node w id :
  id = chosen_id env (Node.ID node) w →
  ∃ w1, same_store w w1 ∧
    AddNode env dagID node w
    = match insert_node id dagID (jsonb env (Node.Data node)) (db w) with
      | Some t =>
          (Ok id, mkWorld t (tx w1)
                          (log w1 ++ [InsertNode id dagID
                                        (jsonb env (Node.Data node))])
                          (uuids w1))
      | None =>
          (Fail (ErrDb "dag: insert node"),
           logged (InsertNode id dagID (jsonb env (Node.Data node))) w1)
      end.
Proof.
  intros ->. unfold AddNode, mbind, M_bind.
  destruct (id_or_new_chosen env (Node.ID node) w) as (w1 & Hid & Hs).
  exists w1. split; [done |]. rewrite Hid. destruct Hs as (Hdb & _ & _).
  unfold pool_exec, run_stmt. rewrite Hdb.
  by destruct (insert_node _ _ _ (db w)).
Qed.



Lemma isNoRows_ErrNoRows : isNoRows ErrNoRows = true.
Proof. done. Qed.





Lemma set_node_data_ids text id (rows : list NodeRow.t) :
  NodeRow.id <$> (set_node_data text id <$> rows) = NodeRow.id <$> rows ∧
  NodeRow.dag_id <$> (set_node_data text id <$> rows)
  = NodeRow.dag_id <$> rows.
Proof.
  rewrite <- !list_fmap_compose.
  split; apply list_fmap_ext; intros i x _; simpl; unfold set_node_data;
    by case_decide.
Qed.





(** ** Further properties: edges *)

Lemma AddEdge_ok_tables env dagID edge w id w' :
  range_ok (range env) →
  AddEdge env dagID edge w = (Ok id, w') →
  id = chosen_id env (Edge.ID edge) w ∧
  accepted env (Edge.Data edge) ∧
  ((id ∉ edge_ids (db w)) ∧
   Edge.FromNodeID edge ∈ node_ids (db w) ∧
   Edge.ToNodeID edge ∈ node_ids (db w)) ∧
  db w' = mkDB (edge_fk (db w)) (dag_nodes (db w))
               (dag_edges (db w) ++ [edge_row env dagID (with_id id edge)]).
Proof.
  intros Hr Hrun.
  destruct (AddEdge_run env dagID edge w Hr)
    as (r0 & w0 & Hrun0 & _ & [(_ & Hbad & _) | (_ & Hins)]);
    rewrite Hrun in Hrun0; injection Hrun0 as <- <-; [done |].
  destruct (insert_edge_of env dagID _ (db w)) as [t |] eqn:E;
    [| by destruct Hins].
  destruct Hins as [Hid Hdb]. injection Hid as ->.
  apply insert_edge_of_Some in E as (Hacc & Hst & ->). done.
Qed.







(** X15: a graph is found by its nodes only.  Into a graph id that has no
    node row an edge can still be added (its endpoints being nodes of some
    other graph); the edge is then held and listed for that graph id, yet
    [GetDAG] of that id returns nothing. *)
Theorem GetDAG_needs_nodes env dagID edge w id w' :
  range_ok (range env) →
  persisted_nodes dagID w = [] →
  AddEdge env dagID edge w = (Ok id, w') →
  persisted_edges dagID w' ≠ [] ∧ (GetDAG env dagID w').1 = Ok None ∧
  ∃ l, (ListEdges env dagID w').1 = Ok l ∧ l ≠ [].
Proof.
  intros Hr Hn Hrun.
  destruct (AddEdge_ok_persisted env dagID edge w id w' Hr Hrun)
    as (_ & e' & _ & _ & He).
  destruct (AddEdge_ok_tables env dagID edge w id w' Hr Hrun)
    as (_ & _ & _ & Hdb).
  assert (persisted_edges dagID w' ≠ []) as Hne.
  { rewrite He. intros Hnil. by apply app_nil in Hnil as [_ ?]. }
  split; [done |]. split.
  - apply GetDAG_none.
    unfold persisted_nodes, graph_nodes in *. rewrite Hdb. simpl.
    by rewrite Hn.
  - destruct (ListEdges_run env dagID w') as (l & w2 & -> & Hp & _).
    exists l. split; [done |]. intros ->. apply Hne.
    symmetry in Hp. by apply Permutation_nil_r in Hp.
Qed.

Lemma GetDAG_needs_nodes_witness :
  ∃ w',
    AddEdge env0 "h" (plain_edge "x1" "q1" "q2")
            (world0 (chain_db OnDeleteCascade)) = (Ok "x1", w') ∧
    persisted_edges "h" w' ≠ [] ∧ (GetDAG env0 "h" w').1 = Ok None ∧
    ∃ l, (ListEdges env0 "h" w').1 = Ok l ∧ l ≠ [].
Proof.
  eexists. split; [vm_compute; reflexivity |].
  eapply (GetDAG_needs_nodes env0 "h" (plain_edge "x1" "q1" "q2")
            (world0 (chain_db OnDeleteCascade)) "x1" _ range_sorted_ok);
    [reflexivity | vm_compute; reflexivity].
Defined.




(** X17: [DeleteEdge] never fails.  Afterwards no edge row carries the id
    and [GetEdge] of it returns nothing; the nodes and the other edges are
    as they were, in their order; and when no edge row carried the id the
    tables are unchanged. *)
Theorem DeleteEdge_effect edgeID t :
  (DeleteEdge edgeID t).1 = Ok tt ∧
  (edgeID ∉ edge_ids (DeleteEdge edgeID t).2) ∧
  GetEdge edgeID (DeleteEdge edgeID t).2 = Ok None ∧
  dag_nodes (DeleteEdge edgeID t).2 = dag_nodes t ∧
  dag_edges (DeleteEdge edgeID t).2
  = filter (λ r, EdgeRow.id r ≠ edgeID) (dag_edges t) ∧
  (edgeID ∉ edge_ids t → (DeleteEdge edgeID t).2 = t).
Proof.
  unfold DeleteEdge, delete_edge_by_id. simpl.
  assert (edgeID ∉ edge_ids
            (mkDB (edge_fk t) (dag_nodes t)
                  (filter (λ r, EdgeRow.id r ≠ edgeID) (dag_edges t)))) as Hgone.
  { unfold edge_ids. simpl. intros Hin.
    apply list_elem_of_fmap in Hin as (r & Heq & Hr).
    by apply list_elem_of_filter in Hr as [Hne _]. }
  split; [done |]. split; [done |]. split; [| split; [done | split; [done |]]].
  - unfold GetEdge. by rewrite (filter_absent EdgeRow.id).
  - intros Habs. rewrite filter_all; [by destruct t |].
    intros r Hr Heq. apply Habs. unfold edge_ids.
    apply list_elem_of_fmap. by exists r.
Qed.

Lemma delete_nodes_nothing (P : NodeRow.t → Prop) `{∀ r, Decision (P r)} t :
  filter P (dag_nodes t) = [] → delete_nodes P t = Some t.
Proof.
  intros Hnil. unfold delete_nodes. rewrite Hnil.
  assert (filter (λ r, ¬ P r) (dag_nodes t) = dag_nodes t) as Hkeep.
  { apply filter_all. intros x Hx HP.
    eapply (filter_nil_not_elem_of _ _ x Hnil); done. }
  assert (∀ x : EdgeRow.t, ¬ references (NodeRow.id <$> []) x) as Hnoref.
  { intros x [Hx | Hx]; simpl in Hx; by apply elem_of_nil in Hx. }
  rewrite Hkeep. destruct (edge_fk t) eqn:Hfk.
  - rewrite filter_all by (intros x _; apply Hnoref).
    destruct t; simpl in *. by subst.
  - rewrite decide_False.
    + destruct t; simpl in *. by subst.
    + intros Hex. apply Exists_exists in Hex as (x & _ & Hx).
      by apply (Hnoref x).
Qed.

(** X18: [DeleteNode] of an id that no node row carries returns without
    error and leaves the tables as they were, whatever the action of the
    foreign keys. *)
Theorem DeleteNode_absent nodeID w :
  nodeID ∉ node_ids (db w) →
  DeleteNode nodeID w
  = (Ok tt, mkWorld (db w) (tx w) (log w ++ [DeleteNodeById nodeID]) (uuids w)).
Proof.
  intros Habs. unfold DeleteNode, mbind, M_bind, pool_exec, run_stmt.
  rewrite delete_nodes_nothing; [done |].
  by apply (filter_absent NodeRow.id).
Qed.

Lemma DeleteNode_absent_witness :
  DeleteNode "zz" (world0 (chain_db OnDeleteNoAction))
  = (Ok tt, mkWorld (chain_db OnDeleteNoAction) None [DeleteNodeById "zz"] O).
Proof.
  apply (DeleteNode_absent "zz" (world0 (chain_db OnDeleteNoAction))).
  vm_compute. intros H.
  repeat (apply elem_of_cons in H as [H | H]; [done |]).
  by apply elem_of_nil in H.
Defined.

Lemma select_edge_dag_Some id t dagID :
  select_edge_dag id t = Some dagID →
  ∃ row, row ∈ dag_edges t ∧ EdgeRow.id row = id ∧ EdgeRow.dag_id row = dagID.
Proof.
  unfold select_edge_dag. intros H.
  destruct (filter (λ r, EdgeRow.id r = id) (dag_edges t)) as [| row l] eqn:E;
    [done |].
  simpl in H. injection H as <-.
  assert (row ∈ filter (λ r, EdgeRow.id r = id) (dag_edges t)) as Hin
    by (rewrite E; left).
  apply list_elem_of_filter in Hin as [Hid Hrow]. by exists row.
Qed.

Lemma select_edge_dag_present id t dagID :
  select_edge_dag id t = Some dagID → id ∈ edge_ids t.
Proof.
  intros H. apply select_edge_dag_Some in H as (row & Hrow & Hid & _).
  unfold edge_ids. apply list_elem_of_fmap. by exists row.
Qed.

Lemma update_edge_present from to data id t :
  id ∈ edge_ids t →
  (∃ text ct,
     data = Jsonb text ∧ from ∈ node_ids t ∧ to ∈ node_ids t ∧ ct ≠ O ∧
     update_edge from to data id t
     = Some (mkDB (edge_fk t) (dag_nodes t)
                  (update_rows from to text id (dag_edges t)), ct)) ∨
  (¬ ((∃ text, data = Jsonb text) ∧ from ∈ node_ids t ∧ to ∈ node_ids t) ∧
   update_edge from to data id t = None).
Proof.
  intros Hin. unfold update_edge, update_edge_rows.
  assert (filter (λ r, EdgeRow.id r = id) (dag_edges t) ≠ []) as Hne.
  { unfold edge_ids in Hin. apply list_elem_of_fmap in Hin as (r & Hid & Hr).
    intros Hnil. eapply (filter_nil_not_elem_of _ _ r Hnil); done. }
  destruct data as [| | text].
  - right. rewrite decide_False by done. split; [| done].
    by intros [[text ?] _].
  - right. split; [| done]. by intros [[text ?] _].
  - rewrite decide_False by done.
    destruct (decide (from ∈ node_ids t)) as [Hf | Hf];
      [| right; split; [by intros (_ & ? & _) | done]].
    destruct (decide (to ∈ node_ids t)) as [Ht | Ht];
      [| right; split; [by intros (_ & _ & ?) | done]].
    left. exists text. eexists. split; [done |]. split; [done |].
    split; [done |]. split; [| reflexivity].
    intros Hlen. apply Hne. by apply nil_length_inv.
Qed.

(** [UpdateEdge] of an edge whose row exists, by cases on the cycle check
    of the loaded edges with the endpoints of that edge replaced. *)
Lemma UpdateEdge_run env edge w dagID :
  range_ok (range env) →
  select_edge_dag (Edge.ID edge) (db w) = Some dagID →
  ∃ loaded r w',
    loaded ≡ₚ persisted_edges dagID w ∧
    UpdateEdge env edge w = (r, w') ∧ tx w' = tx w ∧
    ((has_cycle (splice edge loaded) ∧
      r = Fail ErrCycleDetected ∧ db w' = db w) ∨
     (¬ has_cycle (splice edge loaded) ∧
      match update_edge (Edge.FromNodeID edge) (Edge.ToNodeID edge)
                        (jsonb env (Edge.Data edge)) (Edge.ID edge) (db w) with
      | Some (t, ct) =>
          r = (if decide (ct = O) then Fail ErrEdgeNotFound else Ok tt) ∧
          db w' = t
      | None => r = Fail (ErrDb "dag: update edge") ∧ db w' = db w
      end)).
Proof.
  intros Hr Hfound.
  unfold UpdateEdge, mbind, M_bind, pool_query, ListNodes, ListEdges,
    pool_query_ordered, pool_query.
  simpl. rewrite Hfound. simpl. unfold lift.
  match goal with
  | |- context [validateAcyclic _ ?nodes (splice edge ?edges)] =>
      exists edges;
      destruct (validateAcyclic_decides (range env) nodes (splice edge edges) Hr)
        as [[Hc ->] | [Hc ->]]
  end.
  - eexists _, _. split; [apply select_edges_Permutation |].
    split; [reflexivity |]. simpl. split; [done |]. by left.
  - unfold pool_exec, run_stmt, logged. simpl.
    destruct (update_edge _ _ _ _ (db w)) as [[t ct] |]; simpl.
    + destruct (decide (ct = O)); simpl;
        eexists _, _; (split; [apply select_edges_Permutation |]);
        (split; [reflexivity |]); simpl; (split; [done |]);
        right; done.
    + eexists _, _. split; [apply select_edges_Permutation |].
      split; [reflexivity |]. simpl. split; [done |].
      right. done.
Qed.

Lemma NoDup_fmap_eq {A B} (f : A → B) (l : list A) x y :
  NoDup (f <$> l) → x ∈ l → y ∈ l → f x = f y → x = y.
Proof.
  induction l as [| z l IH]; intros Hnd Hx Hy Heq; [by apply elem_of_nil in Hx |].
  rewrite fmap_cons in Hnd. apply NoDup_cons in Hnd as [Hz Hnd].
  apply elem_of_cons in Hx as [-> | Hx], Hy as [-> | Hy]; try done.
  - exfalso. apply Hz. rewrite Heq. apply list_elem_of_fmap. by exists y.
  - exfalso. apply Hz. rewrite <- Heq. apply list_elem_of_fmap. by exists x.
  - by apply IH.
Qed.

Lemma filter_fmap_commute {A} (P : A → Prop) `{∀ x, Decision (P x)}
    (f : A → A) (l : list A) :
  (∀ x, P (f x) ↔ P x) → filter P (f <$> l) = f <$> filter P l.
Proof.
  intros Hf. induction l as [| x l IH]; [done |].
  rewrite fmap_cons, !filter_cons.
  destruct (decide (P x)) as [HP | HP].
  - rewrite decide_True by by apply Hf. by rewrite fmap_cons, IH.
  - rewrite decide_False; [done |]. intros HP'. by apply HP, Hf.
Qed.

Lemma fmap_id_on {A} (f : A → A) (l : list A) :
  (∀ x, x ∈ l → f x = x) → f <$> l = l.
Proof.
  induction l as [| x l IH]; intros Hf; [done |].
  rewrite fmap_cons, Hf by left. f_equal. apply IH.
  intros y Hy. apply Hf. by right.
Qed.

(** With unique ids the loop of [UpdateEdge] is a map over the list: the
    order in which the edges were loaded does not matter to the check. *)
Lemma splice_rewire edge l :
  NoDup (Edge.ID <$> l) → splice edge l = rewire edge <$> l.
Proof.
  induction l as [| e l IH]; intros Hnd; [done |].
  rewrite fmap_cons in Hnd. apply NoDup_cons in Hnd as [He Hnd].
  simpl. unfold rewire at 1.
  destruct (decide (Edge.ID e = Edge.ID edge)) as [Hid | Hid].
  - f_equal. symmetry. apply fmap_id_on. intros x Hx. unfold rewire.
    rewrite decide_False; [done |]. intros Hx'. apply He.
    rewrite Hid, <- Hx'. apply list_elem_of_fmap. by exists x.
  - f_equal. by apply IH.
Qed.

Lemma has_cycle_splice_Permutation edge l l' :
  NoDup (Edge.ID <$> l') → l ≡ₚ l' →
  has_cycle (splice edge l) ↔ has_cycle (splice edge l').
Proof.
  intros Hnd Hp.
  assert (NoDup (Edge.ID <$> l)) as Hnd' by by rewrite Hp.
  rewrite !splice_rewire by done. apply has_cycle_ext. intros a b.
  apply edge_rel_Permutation. by apply fmap_Permutation.
Qed.

Lemma persisted_edges_NoDup dagID w :
  NoDup (edge_ids (db w)) → NoDup (Edge.ID <$> persisted_edges dagID w).
Proof.
  intros Hnd. unfold persisted_edges, graph_edges.
  rewrite <- list_fmap_compose.
  by apply (NoDup_fmap_filter EdgeRow.id).
Qed.

(** The rows an update changes, against the list [UpdateEdge] validates. *)
Lemma splice_update_endpoints edge text (rows : list EdgeRow.t) :
  NoDup (EdgeRow.id <$> rows) →
  endpoints <$>
    (edge_of_row <$>
       update_rows (Edge.FromNodeID edge) (Edge.ToNodeID edge) text
                   (Edge.ID edge) rows)
  = endpoints <$> splice edge (edge_of_row <$> rows).
Proof.
  unfold update_rows.
  induction rows as [| r rows IH]; intros Hnd; [done |].
  rewrite fmap_cons in Hnd. apply NoDup_cons in Hnd as [Hr Hnd].
  rewrite !fmap_cons. simpl.
  destruct (decide (EdgeRow.id r = Edge.ID edge)) as [Hid | Hid].
  - rewrite fmap_cons. f_equal. f_equal. f_equal. apply fmap_id_on.
    intros x Hx. rewrite decide_False; [done |].
    intros Hx'. apply Hr. rewrite Hid, <- Hx'.
    apply list_elem_of_fmap. by exists x.
  - rewrite fmap_cons. f_equal. by apply IH.
Qed.

(** A successful [UpdateEdge] on tables with unique edge ids. *)
Lemma UpdateEdge_ok_graph env edge w dagID w' :
  range_ok (range env) → NoDup (edge_ids (db w)) →
  select_edge_dag (Edge.ID edge) (db w) = Some dagID →
  UpdateEdge env edge w = (Ok tt, w') →
  ¬ has_cycle (splice edge (persisted_edges dagID w)) ∧
  (∃ text,
     jsonb env (Edge.Data edge) = Jsonb text ∧
     Edge.FromNodeID edge ∈ node_ids (db w) ∧
     Edge.ToNodeID edge ∈ node_ids (db w) ∧
     db w' = mkDB (edge_fk (db w)) (dag_nodes (db w))
                  (update_rows (Edge.FromNodeID edge) (Edge.ToNodeID edge)
                               text (Edge.ID edge) (dag_edges (db w)))) ∧
  endpoints <$> persisted_edges dagID w'
  = endpoints <$> splice edge (persisted_edges dagID w) ∧
  (∀ g, g ≠ dagID → persisted_edges g w' = persisted_edges g w) ∧
  dag_nodes (db w') = dag_nodes (db w) ∧
  edge_ids (db w') = edge_ids (db w).
Proof.
  intros Hr Hnd Hfound Hrun.
  destruct (UpdateEdge_run env edge w dagID Hr Hfound)
    as (loaded & r0 & w0 & Hp & Hrun0 & _ & Hcase).
  rewrite Hrun in Hrun0. injection Hrun0 as <- <-.
  destruct Hcase as [(_ & Hbad & _) | (Hn & Hupd)]; [done |].
  split.
  { intros Hc. apply Hn.
    by eapply has_cycle_splice_Permutation;
      [apply persisted_edges_NoDup | exact Hp | exact Hc]. }
  pose proof (select_edge_dag_present _ _ _ Hfound) as Hin.
  destruct (update_edge_present (Edge.FromNodeID edge) (Edge.ToNodeID edge)
              (jsonb env (Edge.Data edge)) (Edge.ID edge) (db w) Hin)
    as [(text & ct & Hj & Hf & Ht & Hct & Heq) | (Hbad & Heq)];
    rewrite Heq in Hupd; [| by destruct Hupd].
  destruct Hupd as [_ Hdb].
  split; [by exists text |].
  set (upd := λ x, if decide (EdgeRow.id x = Edge.ID edge)
                   then set_edge (Edge.FromNodeID edge) (Edge.ToNodeID edge)
                                 text x
                   else x).
  assert (dag_edges (db w') = upd <$> dag_edges (db w)) as Hedges
    by by rewrite Hdb.
  assert (∀ x, EdgeRow.dag_id (upd x) = EdgeRow.dag_id x) as Hdag.
  { intros x. unfold upd. by case_decide. }
  assert (∀ x, EdgeRow.id (upd x) = EdgeRow.id x) as Hids.
  { intros x. unfold upd. by case_decide. }
  assert (∀ g, persisted_edges g w'
               = edge_of_row <$>
                   (upd <$> filter (λ r, EdgeRow.dag_id r = g) (dag_edges (db w))))
    as Hsel.
  { intros g. unfold persisted_edges, graph_edges. rewrite Hedges.
    f_equal. apply filter_fmap_commute. intros x. by rewrite Hdag. }
  split; [| split; [| split]].
  - rewrite Hsel. unfold persisted_edges, graph_edges.
    apply (splice_update_endpoints edge text). by apply NoDup_fmap_filter.
  - intros g Hg. rewrite Hsel. unfold persisted_edges, graph_edges.
    f_equal. apply fmap_id_on. intros x Hx.
    apply list_elem_of_filter in Hx as [Hxg Hx].
    unfold upd. rewrite decide_False; [done |]. intros Hxid.
    apply select_edge_dag_Some in Hfound as (row & Hrow & Hid & Hrd).
    assert (x = row) as ->.
    { eapply (NoDup_fmap_eq EdgeRow.id); [exact Hnd | done | done | congruence]. }
    congruence.
  - by rewrite Hdb.
  - unfold edge_ids. rewrite Hedges. rewrite <- list_fmap_compose.
    apply list_fmap_ext. intros i x _. apply Hids.
Qed.






(** ** Further properties: integrity of the tables under every call *)

Lemma run_stmt_db_ok s t t' n :
  db_ok t → run_stmt s t = Some (t', n) → db_ok t'.
Proof.
  intros (Hn & He & Hfk) Hs.
  split; [| split; [| by eapply run_stmt_fk_ok]].
  - destruct s; simpl in Hs; try (injection Hs as <- <-; done).
    + destruct (insert_node _ _ _ t) as [u |] eqn:E; [| done].
      injection Hs as <- <-.
      apply insert_node_Some in E as (text & _ & Hfresh & ->).
      unfold node_ids in *. simpl.
      rewrite fmap_app. apply NoDup_app. split; [done |]. split.
      * intros x Hx Hx'. apply list_elem_of_singleton in Hx' as ->. done.
      * apply NoDup_singleton.
    + destruct (insert_edge _ _ _ _ _ t) as [u |] eqn:E; [| done].
      injection Hs as <- <-. by apply insert_edge_Some in E as (text & _ & _ & ->).
    + destruct (delete_nodes _ t) as [u |] eqn:E; [| done].
      injection Hs as <- <-. apply delete_nodes_spec in E as (_ & Hu & _).
      unfold node_ids in *. rewrite Hu. by apply NoDup_fmap_filter.
    + destruct (delete_nodes _ t) as [u |] eqn:E; [| done].
      injection Hs as <- <-. apply delete_nodes_spec in E as (_ & Hu & _).
      unfold node_ids in *. rewrite Hu. by apply NoDup_fmap_filter.
    + apply update_edge_Some in Hs as [[-> _] | (text & _ & Hs)]; [done |].
      unfold update_edge_rows in Hs. repeat case_decide; try done;
        by injection Hs as <- <-.
  - destruct s; simpl in Hs; try (injection Hs as <- <-; done).
    + destruct (insert_node _ _ _ t) as [u |] eqn:E; [| done].
      injection Hs as <- <-. by apply insert_node_Some in E as (text & _ & _ & ->).
    + destruct (insert_edge _ _ _ _ _ t) as [u |] eqn:E; [| done].
      injection Hs as <- <-.
      apply insert_edge_Some in E as (text & _ & (Hfresh & _) & ->).
      unfold edge_ids in *. simpl.
      rewrite fmap_app. apply NoDup_app. split; [done |]. split.
      * intros x Hx Hx'. apply list_elem_of_singleton in Hx' as ->. done.
      * apply NoDup_singleton.
    + injection Hs as <- <-. unfold edge_ids. simpl.
      by apply NoDup_fmap_filter.
    + destruct (delete_nodes _ t) as [u |] eqn:E; [| done].
      injection Hs as <- <-. apply delete_nodes_spec in E as (_ & _ & Hu).
      unfold edge_ids in *. rewrite Hu. by apply NoDup_fmap_filter.
    + destruct (delete_nodes _ t) as [u |] eqn:E; [| done].
      injection Hs as <- <-. apply delete_nodes_spec in E as (_ & _ & Hu).
      unfold edge_ids in *. rewrite Hu. by apply NoDup_fmap_filter.
    + apply update_edge_Some in Hs as [[-> _] | (text & _ & Hs)]; [done |].
      unfold update_edge_rows in Hs. repeat case_decide; try done.
      * by injection Hs as <- <-.
      * injection Hs as <- <-. unfold edge_ids in *. simpl.
        rewrite <- list_fmap_compose.
        replace (EdgeRow.id <$> dag_edges t)
          with ((EdgeRow.id ∘ (λ r, if decide (EdgeRow.id r = id)
                                    then set_edge from to text r else r))
                  <$> dag_edges t) in He; [done |].
        apply list_fmap_ext. intros i x _. simpl. by case_decide.
Qed.

Lemma insert_all_db_ok {A} (row : A → stmt) (ins : A → DB → option DB) xs :
  (∀ x t, run_stmt (row x) t = (λ t', (t', 1%nat)) <$> ins x t) →
  ∀ t t', db_ok t → insert_all ins xs t = Some t' → db_ok t'.
Proof.
  intros Hrow. induction xs as [| x xs IH]; intros t t' Hok H; simpl in H.
  - by injection H as <-.
  - destruct (ins x t) as [t1 |] eqn:E; [| done].
    eapply IH; [| exact H]. eapply (run_stmt_db_ok (row x) t t1 1%nat); [done |].
    by rewrite Hrow, E.
Qed.

Lemma tx_body_db_ok env dagID nodes edges t t' :
  db_ok t → tx_body env dagID nodes edges t = Some t' → db_ok t'.
Proof.
  unfold tx_body. intros Hok H.
  destruct (delete_nodes _ _) as [t1 |] eqn:E1; [| done].
  destruct (insert_all _ nodes t1) as [t2 |] eqn:E2; [| done].
  assert (db_ok (delete_edges_by_dag dagID t)) as Hok0.
  { by eapply (run_stmt_db_ok (DeleteEdgesByDag dagID) t _ _ Hok). }
  assert (db_ok t1) as Hok1.
  { eapply (run_stmt_db_ok (DeleteNodesByDag dagID) _ t1 _ Hok0).
    simpl. by rewrite E1. }
  assert (db_ok t2) as Hok2.
  { by eapply (insert_all_db_ok
                 (λ n, InsertNode (Node.ID n) dagID (jsonb env (Node.Data n)))
                 (insert_node_of env dagID) nodes _ t1 t2 Hok1 E2). }
  by eapply (insert_all_db_ok
               (λ e, InsertEdge (Edge.ID e) dagID (Edge.FromNodeID e)
                                (Edge.ToNodeID e) (jsonb env (Edge.Data e)))
               (insert_edge_of env dagID) edges _ t2 t' Hok2 H).
  Unshelve. all: done.
Qed.

Lemma has_cycle_sub edges edges' :
  (∀ e, e ∈ edges' → e ∈ edges) → has_cycle edges' → has_cycle edges.
Proof.
  intros Hsub [c Hc]. exists c. eapply tc_mono; [| exact Hc].
  intros a b (e & He & Ha & Hb). exists e. split; [by apply Hsub | done].
Qed.

Lemma acyclic_db_rows t t' :
  (∀ r, r ∈ dag_edges t' → r ∈ dag_edges t) →
  acyclic_db t → acyclic_db t'.
Proof.
  intros Hsub Hac g Hc. apply (Hac g). eapply has_cycle_sub; [| exact Hc].
  intros e He. unfold graph_edges in *.
  apply list_elem_of_fmap in He as (r & -> & Hr).
  apply list_elem_of_filter in Hr as [Hg Hr].
  apply list_elem_of_fmap. exists r. split; [done |].
  apply list_elem_of_filter. split; [done | by apply Hsub].
Qed.

Lemma acyclic_db_same_edges t t' :
  dag_edges t' = dag_edges t → acyclic_db t → acyclic_db t'.
Proof.
  intros Heq. apply acyclic_db_rows. intros r. by rewrite Heq.
Qed.

Lemma delete_nodes_rows (P : NodeRow.t → Prop) `{∀ r, Decision (P r)} t t1 :
  delete_nodes P t = Some t1 → ∀ r, r ∈ dag_edges t1 → r ∈ dag_edges t.
Proof.
  intros Hd r Hr. apply delete_nodes_spec in Hd as (_ & _ & He).
  rewrite He in Hr. by apply list_elem_of_filter in Hr as [_ Hr].
Qed.

Lemma store_ok_CreateDAG env d w :
  range_ok (range env) → store_ok w → store_ok (CreateDAG env d w).2.
Proof.
  intros Hr (Hok & Hac & Htx).
  destruct (CreateDAG env d w) as [r w'] eqn:Hrun. simpl.
  apply CreateDAG_phases in Hrun
    as (nodes & refMap & _ & _ &
        [(s & e & _ & _ & _ & _ & Hs) | (edges & _ & Hcase)]).
  { destruct Hs as (Hdb & Htx' & _). unfold store_ok.
    rewrite Hdb, Htx'. done. }
  destruct Hcase as [(_ & _ & Hs) | [(_ & _ & Hs) | (Hv & Htx' & Hbody)]].
  - destruct Hs as (Hdb & Htx' & _). unfold store_ok. rewrite Hdb, Htx'. done.
  - destruct Hs as (Hdb & Htx' & _). unfold store_ok. rewrite Hdb, Htx'. done.
  - destruct (tx_body env (DAG.ID d) nodes edges (db w)) as [t |] eqn:E.
    2:{ destruct Hbody as [_ Hdb]. unfold store_ok. rewrite Hdb. done. }
    destruct Hbody as [_ Hdb]. unfold store_ok. rewrite Hdb.
    split; [by eapply tx_body_db_ok |]. split; [| done].
    intros g. destruct (decide (g = DAG.ID d)) as [-> | Hg].
    + apply tx_body_graph in E as [_ He]. rewrite He, has_cycle_read.
      by apply (validateAcyclic_ok_iff (range env) nodes edges Hr).
    + intros Hc. apply (Hac g). eapply has_cycle_sub; [| exact Hc].
      intros e He. apply tx_body_tables in E as [_ Hrows].
      unfold graph_edges in *. rewrite Hrows, filter_app in He.
      rewrite (filter_none _ (edge_row env (DAG.ID d) <$> edges)) in He.
      * rewrite app_nil_r in He.
        apply list_elem_of_fmap in He as (row & -> & Hrow).
        apply list_elem_of_filter in Hrow as [Hrg Hrow].
        apply list_elem_of_filter in Hrow as [_ Hrow].
        apply list_elem_of_filter in Hrow as [_ Hrow].
        apply list_elem_of_fmap. exists row. split; [done |].
        apply list_elem_of_filter. by split.
      * intros row Hrow Heq. apply list_elem_of_fmap in Hrow as (x & -> & _).
        simpl in Heq. congruence.
Qed.

Lemma store_ok_DeleteDAG dagID w :
  store_ok w → store_ok (DeleteDAG dagID w).2.
Proof.
  intros (Hok & Hac & Htx).
  destruct (DeleteDAG_spec dagID w) as (r & w' & -> & Htx' & _ & Hd). simpl.
  destruct (delete_nodes _ _) as [t |] eqn:E.
  - destruct Hd as [_ Hdb]. unfold store_ok. rewrite Hdb.
    assert (db_ok (delete_edges_by_dag dagID (db w))) as Hok0.
    { by eapply (run_stmt_db_ok (DeleteEdgesByDag dagID) (db w) _ _ Hok). }
    split; [| split; [| done]].
    + eapply (run_stmt_db_ok (DeleteNodesByDag dagID) _ t _ Hok0).
      simpl. by rewrite E.
    + eapply acyclic_db_rows; [| exact Hac]. intros row Hrow.
      apply (delete_nodes_rows _ _ _ E) in Hrow. simpl in Hrow.
      by apply list_elem_of_filter in Hrow as [_ Hrow].
  - destruct Hd as [_ Hdb]. unfold store_ok. rewrite Hdb. done.
  Unshelve. all: exact O.
Qed.

Lemma pool_exec_run step s w r w' :
  pool_exec step s w = (r, w') →
  tx w' = tx w ∧
  (db w' = db w ∨ ∃ n, run_stmt s (db w) = Some (db w', n)).
Proof.
  unfold pool_exec. destruct (run_stmt s (db w)) as [[t n] |] eqn:E;
    intros H; injection H as <- <-; simpl; split; try done.
  - right. by exists n.
  - by left.
Qed.

Lemma store_ok_AddNode env dagID node w :
  store_ok w → store_ok (AddNode env dagID node w).2.
Proof.
  intros (Hok & Hac & Htx). unfold AddNode, mbind, M_bind.
  destruct (id_or_new_chosen env (Node.ID node) w) as (w1 & -> & Hdb & Htx1 & _).
  destruct (pool_exec _ _ w1) as [r w'] eqn:Hrun.
  apply pool_exec_run in Hrun as [Htx' Hcase].
  assert (store_ok w') as Hgoal.
  { unfold store_ok. rewrite Htx', Htx1. rewrite Hdb in Hcase.
    destruct Hcase as [-> | [n Hs]]; [done |].
    split; [by eapply run_stmt_db_ok |]. split; [| done].
    eapply acyclic_db_same_edges; [| exact Hac].
    simpl in Hs. destruct (insert_node _ _ _ (db w)) as [u |] eqn:E; [| done].
    injection Hs as <- _. by apply insert_node_Some in E as (text & _ & _ & ->). }
  by destruct r.
Qed.

Lemma store_ok_DeleteNode nodeID w :
  store_ok w → store_ok (DeleteNode nodeID w).2.
Proof.
  intros (Hok & Hac & Htx). unfold DeleteNode, mbind, M_bind.
  destruct (pool_exec _ _ w) as [r w'] eqn:Hrun.
  apply pool_exec_run in Hrun as [Htx' Hcase].
  assert (store_ok w') as Hgoal.
  { unfold store_ok. rewrite Htx'.
    destruct Hcase as [-> | [n Hs]]; [done |].
    split; [by eapply run_stmt_db_ok |]. split; [| done].
    eapply acyclic_db_rows; [| exact Hac]. simpl in Hs.
    destruct (delete_nodes _ (db w)) as [t |] eqn:E; [| done].
    injection Hs as <- _. by eapply delete_nodes_rows. }
  by destruct r.
Qed.

Lemma store_ok_AddEdge env dagID edge w :
  range_ok (range env) → store_ok w → store_ok (AddEdge env dagID edge w).2.
Proof.
  intros Hr (Hok & Hac & Htx).
  destruct (AddEdge_run env dagID edge w Hr)
    as (r & w' & -> & Htx' & Hcase). simpl.
  unfold store_ok. rewrite Htx'.
  destruct Hcase as [(_ & _ & -> & _) | (Hn & Hins)]; [done |].
  set (id := chosen_id env (Edge.ID edge) w) in *.
  destruct (insert_edge_of env dagID (with_id id edge) (db w)) as [t |] eqn:E.
  2:{ destruct Hins as [_ ->]. done. }
  destruct Hins as [_ Hdb]. rewrite Hdb.
  split; [| split; [| done]].
  - eapply (run_stmt_db_ok
              (InsertEdge id dagID (Edge.FromNodeID edge) (Edge.ToNodeID edge)
                          (jsonb env (Edge.Data edge)))
              (db w) t 1%nat Hok).
    simpl. unfold insert_edge_of in E. simpl in E. by rewrite E.
  - pose proof (insert_edge_persisted env dagID (with_id id edge) (db w) t E)
      as [He _].
    apply insert_edge_of_Some in E as (_ & _ & Ht).
    intros g. destruct (decide (g = dagID)) as [-> | Hg].
    + rewrite He. intros Hc. apply Hn.
      by eapply has_cycle_same_endpoints; [| | exact Hc].
    + intros Hc. apply (Hac g). eapply has_cycle_sub; [| exact Hc].
      intros e Hin. unfold graph_edges in *. rewrite Ht in Hin.
      simpl in Hin. rewrite filter_app in Hin.
      rewrite (filter_cons_False _ _ []) in Hin by (simpl; congruence).
      by rewrite app_nil_r in Hin.
Qed.

Lemma store_ok_UpdateEdge env edge w :
  range_ok (range env) → store_ok w → store_ok (UpdateEdge env edge w).2.
Proof.
  intros Hr (Hok & Hac & Htx).
  destruct (select_edge_dag (Edge.ID edge) (db w)) as [dagID |] eqn:Hfound.
  2:{ unfold UpdateEdge, mbind, M_bind, pool_query. simpl.
      rewrite Hfound. simpl. done. }
  destruct (UpdateEdge_run env edge w dagID Hr Hfound)
    as (loaded & r & w' & Hp & Hrun & Htx' & Hcase).
  rewrite Hrun. simpl. unfold store_ok. rewrite Htx'.
  destruct Hcase as [(_ & _ & ->) | (Hn & Hupd)]; [done |].
  destruct (update_edge _ _ _ _ (db w)) as [[t ct] |] eqn:E.
  2:{ destruct Hupd as [_ ->]. done. }
  destruct Hupd as [Hres Hdb].
  split; [| split; [| done]].
  - rewrite Hdb. by eapply (run_stmt_db_ok (UpdateEdgeById _ _ _ _) (db w) t ct Hok).
  - pose proof (select_edge_dag_present _ _ _ Hfound) as Hin.
    destruct (update_edge_present (Edge.FromNodeID edge) (Edge.ToNodeID edge)
                (jsonb env (Edge.Data edge)) (Edge.ID edge) (db w) Hin)
      as [(text & ct' & _ & _ & _ & Hct & Heq) | (_ & Heq)]; [| congruence].
    rewrite E in Heq. injection Heq as Ht Hcteq. subst ct'.
    rewrite decide_False in Hres by done. subst r.
    destruct Hok as (_ & Hnd & _).
    destruct (UpdateEdge_ok_graph env edge w dagID w' Hr Hnd Hfound Hrun)
      as (Hnc & _ & Hends & Hother & _).
    intros g. destruct (decide (g = dagID)) as [-> | Hg].
    + intros Hc. apply Hnc. by eapply has_cycle_endpoints; [| exact Hc].
    + fold (persisted_edges g w'). rewrite (Hother g Hg). apply Hac.
Qed.

Lemma store_ok_on_tables {A} (f : DB → result A * DB) w :
  (∀ t, db_ok t → acyclic_db t → db_ok (f t).2 ∧ acyclic_db (f t).2) →
  store_ok w → store_ok (on_tables f w).2.
Proof.
  intros Hf (Hok & Hac & Htx). unfold on_tables.
  destruct (Hf (db w) Hok Hac) as [Hok' Hac'].
  destruct (f (db w)) as [r t]. done.
Qed.

Lemma db_ok_UpdateNode env node t :
  db_ok t → acyclic_db t →
  db_ok (UpdateNode env node t).2 ∧ acyclic_db (UpdateNode env node t).2.
Proof.
  intros (Hn & He & Hfk) Hac. unfold UpdateNode, update_node_data.
  destruct (jsonb env (Node.Data node)) as [| | text]; [| done |].
  { case_decide; [| done]. by rewrite decide_True. }
  set (t' := mkDB (edge_fk t)
                  (set_node_data text (Node.ID node) <$> dag_nodes t)
                  (dag_edges t)).
  assert (node_ids t' = node_ids t) as Hids.
  { unfold node_ids, t'. simpl.
    by destruct (set_node_data_ids text (Node.ID node) (dag_nodes t)). }
  assert (db_ok t' ∧ acyclic_db t') as Hgoal.
  { split; [| by eapply acyclic_db_same_edges; [| exact Hac]].
    split; [by rewrite Hids |]. split; [done |].
    intros r Hr. rewrite Hids. by apply Hfk. }
  by case_decide.
Qed.

Lemma db_ok_DeleteEdge edgeID t :
  db_ok t → acyclic_db t →
  db_ok (DeleteEdge edgeID t).2 ∧ acyclic_db (DeleteEdge edgeID t).2.
Proof.
  intros (Hn & He & Hfk) Hac. unfold DeleteEdge, delete_edge_by_id. simpl.
  split.
  - split; [done |]. split.
    + unfold edge_ids. simpl. by apply NoDup_fmap_filter.
    + intros r Hr. simpl in Hr. apply list_elem_of_filter in Hr as [_ Hr].
      by apply Hfk.
  - eapply acyclic_db_rows; [| exact Hac]. intros r Hr. simpl in Hr.
    by apply list_elem_of_filter in Hr as [_ Hr].
Qed.

Lemma store_ok_run_call env c w :
  range_ok (range env) → store_ok w → store_ok (run_call env c w).
Proof.
  intros Hr Hok. destruct c; cbn [run_call].
  - by apply store_ok_CreateDAG.
  - destruct (GetDAG_run env dagID w) as (g & w' & -> & Hdb & Htx & _). simpl.
    destruct Hok as (? & ? & ?). unfold store_ok. rewrite Hdb, Htx. done.
  - by apply store_ok_DeleteDAG.
  - by apply store_ok_AddNode.
  - by apply store_ok_on_tables.
  - apply store_ok_on_tables; [| done]. apply db_ok_UpdateNode.
  - by apply store_ok_DeleteNode.
  - done.
  - by apply store_ok_AddEdge.
  - by apply store_ok_on_tables.
  - by apply store_ok_UpdateEdge.
  - apply store_ok_on_tables; [| done]. apply db_ok_DeleteEdge.
  - done.
Qed.

Lemma schemaSQL_store_ok fk : store_ok (world0 (mkDB fk [] [])).
Proof.
  split; [| split; [| done]].
  - split; [constructor |]. split; [constructor |].
    intros r Hr. by apply elem_of_nil in Hr.
  - intros g [c Hc]. apply tc_first_step in Hc as (x & (e & He & _) & _).
    by apply elem_of_nil in He.
Qed.

(** X21: the store keeps its tables sound through every sequence of
    calls run one after the other, whatever they return.  If node ids and
    edge ids are unique, every edge endpoint is the id of a node row, the
    edges of every graph are acyclic and no transaction is open, then the
    same holds after any call of the [Store] interface; in particular it
    holds in every state reached from the empty tables of the schema. *)
Theorem store_calls_keep_integrity env cs w :
  range_ok (range env) → store_ok w →
  store_ok (run_calls env cs w) ∧
  store_ok (run_calls env cs (world0 schemaSQL)).
Proof.
  intros Hr Hok.
  assert (∀ u, store_ok u → store_ok (run_calls env cs u)) as Hall.
  { induction cs as [| c cs IH]; intros u Hu; [done |].
    simpl. apply IH. by apply store_ok_run_call. }
  split; [by apply Hall |]. apply Hall, schemaSQL_store_ok.
Qed.

Lemma store_calls_keep_integrity_witness :
  store_ok
    (run_calls env0
       [CallCreateDAG ref_dag; CallAddEdge "g" (plain_edge "" "uu" "u");
        CallDeleteNode "u"; CallUpdateEdge (plain_edge "uuu" "uu" "uu")]
       (world0 schemaSQL)).
Proof.
  apply (store_calls_keep_integrity env0
           [CallCreateDAG ref_dag; CallAddEdge "g" (plain_edge "" "uu" "u");
            CallDeleteNode "u"; CallUpdateEdge (plain_edge "uuu" "uu" "uu")]
           (world0 schemaSQL) range_sorted_ok (schemaSQL_store_ok _)).
Defined.

(** ** Further properties: edges that cannot be stored *)

Lemma splice_replaces edge l :
  (∃ e, e ∈ l ∧ Edge.ID e = Edge.ID edge) →
  edge_rel (splice edge l) (Edge.FromNodeID edge) (Edge.ToNodeID edge).
Proof.
  intros (e & He & Hid). induction l as [| x l IH]; [by apply elem_of_nil in He |].
  simpl. destruct (decide (Edge.ID x = Edge.ID edge)) as [Hx | Hx].
  - eexists. split; [left | done].
  - apply elem_of_cons in He as [-> | He]; [done |].
    destruct (IH He) as (y & Hy & Hf & Ht). exists y. split; [by right | done].
Qed.

(** X22: an edge from a node to itself is never stored.  [AddEdge] of an
    edge whose two endpoint ids are equal returns the cycle-detected
    error, and so does [UpdateEdge] of an existing edge to equal endpoints;
    the tables are as they were.  This includes an edge given by refs
    alone: its endpoint ids are both empty, [AddEdge] does not resolve
    refs, and the edge is reported as a cycle. *)
Theorem self_loop_rejected env edge w :
  range_ok (range env) →
  Edge.FromNodeID edge = Edge.ToNodeID edge →
  (∀ dagID, ∃ w', AddEdge env dagID edge w = (Fail ErrCycleDetected, w') ∧
                  db w' = db w) ∧
  (∀ dagID, select_edge_dag (Edge.ID edge) (db w) = Some dagID →
            ∃ w', UpdateEdge env edge w = (Fail ErrCycleDetected, w') ∧
                  db w' = db w).
Proof.
  intros Hr Hloop. split.
  - intros dagID.
    destruct (AddEdge_run env dagID edge w Hr)
      as (r & w' & Hrun & _ & [(_ & -> & Hdb & _) | (Hn & _)]).
    + by exists w'.
    + exfalso. apply Hn. apply (self_loop_has_cycle _ edge); [| done].
      apply elem_of_app. right. left.
  - intros dagID Hfound.
    destruct (UpdateEdge_run env edge w dagID Hr Hfound)
      as (loaded & r & w' & Hp & Hrun & _ & [(_ & -> & Hdb) | (Hn & _)]).
    + by exists w'.
    + exfalso. apply Hn. exists (Edge.FromNodeID edge). apply tc_once.
      rewrite Hloop at 2. apply splice_replaces.
      apply select_edge_dag_Some in Hfound as (row & Hrow & Hid & Hdag).
      exists (edge_of_row row). split; [| done].
      rewrite Hp. unfold persisted_edges, graph_edges.
      apply list_elem_of_fmap. exists row. split; [done |].
      apply list_elem_of_filter. by split.
Qed.

Lemma self_loop_rejected_witness :
  ∃ w', AddEdge env0 "g" (Edge.mk "" "" "" "q1" "q2" "{}")
                (world0 (chain_db OnDeleteCascade))
        = (Fail ErrCycleDetected, w') ∧
        db w' = chain_db OnDeleteCascade.
Proof.
  apply (self_loop_rejected env0 (Edge.mk "" "" "" "q1" "q2" "{}")
           (world0 (chain_db OnDeleteCascade)) range_sorted_ok eq_refl).
Defined.

(** X23: node ids are unique across the whole store, not per graph.  A
    [CreateDAG] that succeeds has given none of its nodes the id of a node
    row of another graph; so a call whose input carries such an id does
    not succeed, and leaves the tables as they were. *)
Theorem CreateDAG_node_ids_global env d w r w' n row :
  CreateDAG env d w = (r, w') →
  n ∈ DAG.Nodes d → Node.ID n ≠ "" →
  row ∈ dag_nodes (db w) → NodeRow.dag_id row ≠ DAG.ID d →
  NodeRow.id row = Node.ID n →
  ¬ is_Ok r ∧ db w' = db w.
Proof.
  intros Hrun Hn Hid Hrow Hdag Heq.
  assert (¬ is_Ok r) as Hnok.
  { destruct r as [d' | |]; [| by intros [] | by intros []]. intros _.
    apply CreateDAG_ok_inv in Hrun
      as (nodes & refMap & edges & Hall & _ & _ & _ & _ & _ & Hbody).
    unfold tx_body in Hbody.
    destruct (delete_nodes _ _) as [t1 |] eqn:E1; [| done].
    destruct (insert_all _ nodes t1) as [t2 |] eqn:E2; [| done].
    apply delete_nodes_spec in E1 as (_ & Hn1 & _). simpl in Hn1.
    destruct (insert_all_nodes_fresh _ _ _ _ _ E2) as [_ Hfresh].
    apply list_elem_of_lookup in Hn as [j Hj].
    destruct (Forall2_lookup_l _ _ _ _ _ Hall Hj) as (n' & Hn' & (_ & _ & Hkeep & _)).
    apply (Hfresh n'); [apply list_elem_of_lookup; by exists j |].
    unfold node_ids. rewrite Hn1, (Hkeep Hid), <- Heq.
    apply list_elem_of_fmap. exists row. split; [done |].
    apply list_elem_of_filter. by split. }
  split; [done |].
  apply CreateDAG_phases in Hrun
    as (nodes & refMap & _ & _ &
        [(s & e & _ & _ & _ & _ & Hs) | (edges & _ & Hcase)]);
    [by destruct Hs |].
  destruct Hcase as [(_ & _ & Hs) | [(_ & _ & Hs) | (_ & _ & Hbody)]];
    [by destruct Hs | by destruct Hs |].
  destruct (tx_body _ _ _ _); [| by destruct Hbody].
  destruct Hbody as [-> _]. by destruct Hnok.
Qed.

Lemma CreateDAG_node_ids_global_witness :
  ∃ r w',
    CreateDAG env0 (DAG.mk "h" [plain_node "q1"] [])
              (world0 (chain_db OnDeleteCascade)) = (r, w') ∧
    ¬ is_Ok r ∧ db w' = chain_db OnDeleteCascade.
Proof.
  eexists _, _. split; [vm_compute; reflexivity |].
  eapply (CreateDAG_node_ids_global env0 (DAG.mk "h" [plain_node "q1"] [])
            (world0 (chain_db OnDeleteCascade)) _ _ (plain_node "q1")
            (NodeRow.mk "q1" "g" "{}"));
    [vm_compute; reflexivity | left | done | left | done | reflexivity].
Defined.

Lemma DeleteDAG_succeeds_witness :
  ∃ w', DeleteDAG "nowhere" (world0 (chain_db OnDeleteNoAction)) = (Ok tt, w') ∧
        db w' = chain_db OnDeleteNoAction.
Proof.
  apply (DeleteDAG_succeeds "nowhere" (world0 (chain_db OnDeleteNoAction)));
    reflexivity.
Defined.

(** ** Further properties: a delete undoes an add *)

Lemma fresh_ids_unreferenced t (ids : list string) :
  fk_ok t → (∀ x, x ∈ ids → x ∉ node_ids t) →
  ∀ r, r ∈ dag_edges t → ¬ references ids r.
Proof.
  intros Hfk Hfresh r Hr [Hin | Hin]; destruct (Hfk r Hr) as [Hf Ht];
    by eapply Hfresh.
Qed.

Lemma delete_nodes_appended (P : NodeRow.t → Prop) `{∀ r, Decision (P r)}
    fk nodes news edges :
  fk_ok (mkDB fk nodes edges) →
  (∀ r, r ∈ nodes → ¬ P r) → (∀ r, r ∈ news → P r) →
  (∀ r, r ∈ news → NodeRow.id r ∉ NodeRow.id <$> nodes) →
  delete_nodes P (mkDB fk (nodes ++ news) edges) = Some (mkDB fk nodes edges).
Proof.
  intros Hfk Hold Hnew Hfresh. unfold delete_nodes. simpl.
  assert (filter P (nodes ++ news) = news) as Hgone.
  { rewrite filter_app, (filter_none P nodes), (filter_all P news); done. }
  assert (filter (λ r, ¬ P r) (nodes ++ news) = nodes) as Hkept.
  { rewrite filter_app, (filter_all _ nodes) by done.
    rewrite (filter_none _ news); [by rewrite app_nil_r |].
    intros r Hr Hn. by apply Hn, Hnew. }
  assert (∀ r, r ∈ edges → ¬ references (NodeRow.id <$> news) r) as Hnoref.
  { apply (fresh_ids_unreferenced (mkDB fk nodes edges)); [done |].
    intros x Hx. apply list_elem_of_fmap in Hx as (r & -> & Hr).
    by apply Hfresh. }
  rewrite Hgone, Hkept. destruct fk.
  - by rewrite filter_all.
  - rewrite decide_False; [done |]. intros Hex.
    apply Exists_exists in Hex as (r & Hr & Href). by apply (Hnoref r).
Qed.

(** X24: [DeleteNode] undoes [AddNode].  On tables where no edge dangles,
    deleting the node a successful [AddNode] has just stored succeeds and
    brings the tables back to what they were before the add, whatever the
    action of the foreign keys. *)
Theorem DeleteNode_undoes_AddNode env dagID node w id w1 :
  fk_ok (db w) →
  AddNode env dagID node w = (Ok id, w1) →
  ∃ w2, DeleteNode id w1 = (Ok tt, w2) ∧ db w2 = db w.
Proof.
  intros Hfk Hrun.
  destruct (AddNode_run env dagID node w _ eq_refl) as (w0 & _ & Heq).
  rewrite Hrun in Heq.
  destruct (insert_node _ dagID (jsonb env (Node.Data node)) (db w))
    as [t |] eqn:E; [| done].
  injection Heq as -> ->.
  apply insert_node_Some in E as (text & _ & Hfresh & ->).
  unfold DeleteNode, mbind, M_bind, pool_exec, run_stmt. simpl.
  destruct (db w) as [fk nodes edges] eqn:Hw. simpl in *.
  rewrite (delete_nodes_appended _ fk nodes _ edges); simpl.
  - eexists. split; [reflexivity | done].
  - done.
  - intros r Hr Heq. apply Hfresh. unfold node_ids. simpl.
    apply list_elem_of_fmap. by exists r.
  - intros r Hr. by apply list_elem_of_singleton in Hr as ->.
  - intros r Hr. by apply list_elem_of_singleton in Hr as ->.
Qed.

Lemma DeleteNode_undoes_AddNode_witness :
  ∃ w1 w2,
    AddNode env0 "g" (plain_node "q4") (world0 (chain_db OnDeleteNoAction))
    = (Ok "q4", w1) ∧
    DeleteNode "q4" w1 = (Ok tt, w2) ∧ db w2 = chain_db OnDeleteNoAction.
Proof.
  eexists. 
  destruct (DeleteNode_undoes_AddNode env0 "g" (plain_node "q4")
              (world0 (chain_db OnDeleteNoAction)) "q4" _
              (chain_db_fk_ok OnDeleteNoAction)
              ltac:(vm_compute; reflexivity)) as (w2 & Hdel & Hdb).
  exists w2. split; [reflexivity | split; [exact Hdel | exact Hdb]].
Defined.

(** X25: [DeleteEdge] undoes [AddEdge]: deleting the edge a successful
    [AddEdge] has just stored brings the tables back to what they were
    before the add. *)
Theorem DeleteEdge_undoes_AddEdge env dagID edge w id w1 :
  range_ok (range env) →
  AddEdge env dagID edge w = (Ok id, w1) →
  DeleteEdge id (db w1) = (Ok tt, db w).
Proof.
  intros Hr Hrun.
  destruct (AddEdge_ok_tables env dagID edge w id w1 Hr Hrun)
    as (_ & _ & (Hfresh & _) & Hdb).
  unfold DeleteEdge, delete_edge_by_id. rewrite Hdb. simpl. f_equal.
  rewrite filter_app, filter_all.
  - rewrite (filter_cons_False _ _ []) by (simpl; intros Hne; by apply Hne).
    rewrite app_nil_r. by destruct (db w).
  - intros row Hrow Heq. apply Hfresh. unfold edge_ids.
    apply list_elem_of_fmap. by exists row.
Qed.

Lemma DeleteEdge_undoes_AddEdge_witness :
  ∃ w1,
    AddEdge env0 "g" (plain_edge "e9" "q1" "q3")
            (world0 (chain_db OnDeleteCascade)) = (Ok "e9", w1) ∧
    DeleteEdge "e9" (db w1) = (Ok tt, chain_db OnDeleteCascade).
Proof.
  eexists. split; [vm_compute; reflexivity |].
  eapply (DeleteEdge_undoes_AddEdge env0 "g" (plain_edge "e9" "q1" "q3")
            (world0 (chain_db OnDeleteCascade)) "e9" _ range_sorted_ok).
  vm_compute; reflexivity.
Defined.

Lemma select_nil_rows_nodes dagID t :
  graph_nodes dagID t = [] →
  ∀ r, r ∈ dag_nodes t → NodeRow.dag_id r ≠ dagID.
Proof.
  unfold graph_nodes. intros Hnil r Hr Heq.
  apply fmap_nil_inv in Hnil. eapply (filter_nil_not_elem_of _ _ r Hnil); done.
Qed.

Lemma select_nil_rows_edges dagID t :
  graph_edges dagID t = [] →
  ∀ r, r ∈ dag_edges t → EdgeRow.dag_id r ≠ dagID.
Proof.
  unfold graph_edges. intros Hnil r Hr Heq.
  apply fmap_nil_inv in Hnil. eapply (filter_nil_not_elem_of _ _ r Hnil); done.
Qed.

Lemma tx_body_fresh_graph env dagID nodes edges t t' :
  graph_nodes dagID t = [] → graph_edges dagID t = [] →
  tx_body env dagID nodes edges t = Some t' →
  t' = mkDB (edge_fk t) (dag_nodes t ++ (node_row env dagID <$> nodes))
            (dag_edges t ++ (edge_row env dagID <$> edges)) ∧
  ∀ n, n ∈ nodes → Node.ID n ∉ node_ids t.
Proof.
  intros Hn He H.
  pose proof (select_nil_rows_nodes _ _ Hn) as Hnr.
  pose proof (select_nil_rows_edges _ _ He) as Her.
  unfold tx_body in H.
  assert (delete_edges_by_dag dagID t = t) as Hde.
  { unfold delete_edges_by_dag. rewrite filter_all by done. by destruct t. }
  rewrite Hde in H. rewrite delete_nodes_nothing in H.
  2:{ apply filter_none. intros r Hr. by apply Hnr. }
  destruct (insert_all _ nodes t) as [t2 |] eqn:E2; [| done].
  destruct (insert_all_nodes_fresh _ _ _ _ _ E2) as [_ Hfresh].
  apply insert_all_nodes in E2 as (Hfk2 & Hn2 & He2).
  apply insert_all_edges in H as (Hfk3 & Hn3 & He3).
  split; [| done]. destruct t' as [fk' ns' es']. simpl in *.
  by rewrite Hfk3, Hfk2, Hn3, Hn2, He3, He2.
Qed.

(** X26: [DeleteDAG] undoes [CreateDAG] of a new graph.  On tables where
    no edge dangles, when the graph id had no row before a successful
    [CreateDAG], deleting the graph succeeds and brings the tables back to
    what they were before, whatever the action of the foreign keys. *)
Theorem DeleteDAG_undoes_CreateDAG env d w d' w1 :
  fk_ok (db w) →
  persisted_nodes (DAG.ID d) w = [] → persisted_edges (DAG.ID d) w = [] →
  CreateDAG env d w = (Ok d', w1) →
  ∃ w2, DeleteDAG (DAG.ID d) w1 = (Ok tt, w2) ∧ db w2 = db w.
Proof.
  intros Hfk Hn He Hrun. apply CreateDAG_ok_inv in Hrun
    as (nodes & refMap & edges & _ & _ & _ & _ & _ & _ & Hbody).
  pose proof (select_nil_rows_nodes _ _ Hn) as Hnr.
  pose proof (select_nil_rows_edges _ _ He) as Her.
  apply tx_body_fresh_graph in Hbody as [Hdb Hfresh]; [| done | done].
  destruct (DeleteDAG_spec (DAG.ID d) w1) as (r & w2 & Hdel & _ & _ & Hd).
  exists w2. rewrite Hdel.
  assert (delete_edges_by_dag (DAG.ID d) (db w1)
          = mkDB (edge_fk (db w))
                 (dag_nodes (db w) ++ (node_row env (DAG.ID d) <$> nodes))
                 (dag_edges (db w))) as Hde.
  { rewrite Hdb. unfold delete_edges_by_dag. simpl. f_equal.
    rewrite filter_app, filter_all by done.
    rewrite filter_none; [by rewrite app_nil_r |].
    intros row Hrow Hne. apply list_elem_of_fmap in Hrow as (e & -> & _).
    by apply Hne. }
  rewrite Hde in Hd. rewrite delete_nodes_appended in Hd.
  - destruct Hd as [-> Hdb2]. split; [done |]. rewrite Hdb2.
    by destruct (db w).
  - by destruct (db w).
  - intros row Hrow. by apply Hnr.
  - intros row Hrow. by apply list_elem_of_fmap in Hrow as (n & -> & _).
  - intros row Hrow. apply list_elem_of_fmap in Hrow as (n & -> & Hin).
    by apply Hfresh.
Qed.

Lemma DeleteDAG_undoes_CreateDAG_witness :
  ∃ d' w1 w2,
    CreateDAG env0 (DAG.mk "h" [plain_node "p1"; plain_node "p2"]
                           [plain_edge "x" "p1" "q1"])
              (world0 (chain_db OnDeleteNoAction)) = (Ok d', w1) ∧
    DeleteDAG "h" w1 = (Ok tt, w2) ∧ db w2 = chain_db OnDeleteNoAction.
Proof.
  eexists _, _.
  destruct (DeleteDAG_undoes_CreateDAG env0
              (DAG.mk "h" [plain_node "p1"; plain_node "p2"]
                      [plain_edge "x" "p1" "q1"])
              (world0 (chain_db OnDeleteNoAction)) _ _
              (chain_db_fk_ok OnDeleteNoAction) eq_refl eq_refl
              ltac:(vm_compute; reflexivity)) as (w2 & Hdel & Hdb).
  exists w2. split; [reflexivity | split; [exact Hdel | exact Hdb]].
Defined.
